(** * Left-Behind: the Wikipedia event engine and the quiz engine

    A shallow embedding of [src/lib/wikipedia.ts] (discovery, scoring,
    classification, date extraction) and of the quiz engine
    ([gameEngine]: masking, decoys, points), with the properties the
    specification states about them.

    JavaScript strings are sequences of UTF-16 code units: [list Z].
    JavaScript numbers that the code only uses as integers are [Z].
    The String built-ins whose result depends on the Unicode case tables
    ([toLowerCase], [toUpperCase]) are an interface ([Unicode]); the
    instance [Latin1] is exact on code units up to U+00FF. *)

From Stdlib Require Import ZArith Lia Bool Ascii String.
From Stdlib Require Import List Permutation Sorted.
From stdpp Require Import base option list gmap.

Import ListNotations.
Open Scope Z_scope.

(** ** JavaScript strings *)

Module JS.

Abbreviation jsstring := (list Z).

(** Code units of a string literal. The literal is UTF-8 in this file; the
    TypeScript source is UTF-8 as well and its literals denote the UTF-16
    encoding of the same code points. *)
Definition byte_of (a : ascii) : Z := Z.of_N (N_of_ascii a).

Fixpoint bytes_of (s : string) : list Z :=
  match s with
  | EmptyString => []
  | String a t => byte_of a :: bytes_of t
  end.

Definition cont (b : Z) : Z := Z.land b 63.

Definition units_of_code_point (cp : Z) : list Z :=
  if cp <? 65536 then [cp]
  else let v := cp - 65536 in
       [55296 + Z.shiftr v 10; 56320 + Z.land v 1023].

Fixpoint utf16_of_utf8 (bs : list Z) : list Z :=
  match bs with
  | [] => []
  | b0 :: t0 =>
    if b0 <? 128 then b0 :: utf16_of_utf8 t0
    else match t0 with
    | [] => [65533]
    | b1 :: t1 =>
      if b0 <? 224 then
        (Z.shiftl (Z.land b0 31) 6 + cont b1) :: utf16_of_utf8 t1
      else match t1 with
      | [] => [65533]
      | b2 :: t2 =>
        if b0 <? 240 then
          (Z.shiftl (Z.land b0 15) 12 + Z.shiftl (cont b1) 6 + cont b2)
            :: utf16_of_utf8 t2
        else match t2 with
        | [] => [65533]
        | b3 :: t3 =>
          units_of_code_point
            (Z.shiftl (Z.land b0 7) 18 + Z.shiftl (cont b1) 12
             + Z.shiftl (cont b2) 6 + cont b3) ++ utf16_of_utf8 t3
        end
      end
    end
  end.

Definition lit (s : string) : jsstring := utf16_of_utf8 (bytes_of s).

(** [===] on strings. *)
Definition str_eqb (a b : jsstring) : bool := bool_decide (a = b).

(** [s.startsWith(w)], the test behind [includes] and [indexOf]. *)
Fixpoint prefixb (w s : jsstring) : bool :=
  match w, s with
  | [], _ => true
  | _ :: _, [] => false
  | a :: w', b :: s' => (a =? b) && prefixb w' s'
  end.

(** [s.includes(w)] *)
Fixpoint includes (s w : jsstring) : bool :=
  prefixb w s ||
  match s with
  | [] => false
  | _ :: t => includes t w
  end.

(** [s.slice(0, n)] for [0 <= n]. *)
Definition slice0 (n : nat) (s : jsstring) : jsstring := firstn n s.

(** [arr.join(sep)] *)
Fixpoint join (sep : jsstring) (parts : list jsstring) : jsstring :=
  match parts with
  | [] => []
  | [p] => p
  | p :: rest => p ++ sep ++ join sep rest
  end.

(** White space and line terminators: the class [\s] of regular expressions
    and the characters [trim] strips. *)
Definition is_space (c : Z) : bool :=
  ((9 <=? c) && (c <=? 13)) || (c =? 32) || (c =? 160) || (c =? 5760)
  || ((8192 <=? c) && (c <=? 8202)) || (c =? 8232) || (c =? 8233)
  || (c =? 8239) || (c =? 8287) || (c =? 12288) || (c =? 65279).

Fixpoint trimStart (s : jsstring) : jsstring :=
  match s with
  | c :: t => if is_space c then trimStart t else s
  | [] => []
  end.

Definition trimEnd (s : jsstring) : jsstring := rev (trimStart (rev s)).

Definition trim (s : jsstring) : jsstring := trimEnd (trimStart s).

Definition is_digit (c : Z) : bool := (48 <=? c) && (c <=? 57).

(** The class [\w] (without the [u] flag): ASCII letters, digits and [_]. *)
Definition is_word (c : Z) : bool :=
  ((97 <=? c) && (c <=? 122)) || ((65 <=? c) && (c <=? 90))
  || is_digit c || (c =? 95).

(** [parseInt(s, 10)] and [Number(s)] on a string [s] of decimal digits:
    [parse_digits 0 s]. *)
Fixpoint parse_digits (acc : Z) (s : jsstring) : Z :=
  match s with
  | c :: t => if is_digit c then parse_digits (10 * acc + (c - 48)) t else acc
  | [] => acc
  end.

(** [String(n)] for an integer [n]. *)
Fixpoint digits_of_uint (d : Decimal.uint) : jsstring :=
  match d with
  | Decimal.Nil => []
  | Decimal.D0 r => 48 :: digits_of_uint r
  | Decimal.D1 r => 49 :: digits_of_uint r
  | Decimal.D2 r => 50 :: digits_of_uint r
  | Decimal.D3 r => 51 :: digits_of_uint r
  | Decimal.D4 r => 52 :: digits_of_uint r
  | Decimal.D5 r => 53 :: digits_of_uint r
  | Decimal.D6 r => 54 :: digits_of_uint r
  | Decimal.D7 r => 55 :: digits_of_uint r
  | Decimal.D8 r => 56 :: digits_of_uint r
  | Decimal.D9 r => 57 :: digits_of_uint r
  end.

Definition String_of_Z (n : Z) : jsstring :=
  match n with
  | Z0 => [48]
  | Zpos p => digits_of_uint (Pos.to_uint p)
  | Zneg p => 45 :: digits_of_uint (Pos.to_uint p)
  end.

(** [Math.round(a / b)] for integers [a] and [b > 0]: the nearest integer,
    halves towards plus infinity. *)
Definition round_div (a b : Z) : Z := (2 * a + b) / (2 * b).

End JS.

Export JS.

(** ** The Unicode case mappings *)

Class Unicode := {
  toLowerCase : jsstring -> jsstring;
  toUpperCase : jsstring -> jsstring;
}.

(** The instance for text in the Latin-1 range (plus the French ligature OE
    and Y with diaeresis); other code units are left unchanged. *)
Module Latin1Case.

Definition lower_unit (c : Z) : Z :=
  if (65 <=? c) && (c <=? 90) then c + 32
  else if (192 <=? c) && (c <=? 222) && negb (c =? 215) then c + 32
  else if c =? 338 then 339
  else if c =? 376 then 255
  else c.

Definition upper_unit (c : Z) : list Z :=
  if (97 <=? c) && (c <=? 122) then [c - 32]
  else if (224 <=? c) && (c <=? 254) && negb (c =? 247) then [c - 32]
  else if c =? 223 then [83; 83]
  else if c =? 181 then [924]
  else if c =? 255 then [376]
  else if c =? 339 then [338]
  else [c].

Definition lower (s : jsstring) : jsstring := map lower_unit s.
Definition upper (s : jsstring) : jsstring := flat_map upper_unit s.

End Latin1Case.

#[export] Instance Latin1 : Unicode :=
  {| toLowerCase := Latin1Case.lower; toUpperCase := Latin1Case.upper |}.

(** ** Regular expressions

    A backtracking matcher for the fragment of ECMAScript regular
    expressions the sources use: character classes, sequence, greedy
    quantifiers, one capturing group, [^], [\b] and a one-character
    look-behind. The matcher walks over the text with the part already
    read kept in reverse, so that [\b] and the look-behind can see the
    previous code unit. *)

Module RegExp.

Inductive re :=
| Eps
| Chr (p : Z -> bool)
| Seq (a b : re)
| Alt (a b : re)
| Rep (lo : nat) (hi : option nat) (r : re)
| Group (r : re)
| Bol
| WordB
| Behind (p : Z -> bool).

Record mstate := MState {
  cap : option jsstring;
  before : list Z;
  after : list Z;
}.

Definition word_at (l : list Z) : bool :=
  match l with
  | c :: _ => is_word c
  | [] => false
  end.

Definition is_boundary (pre suf : list Z) : bool :=
  xorb (word_at pre) (word_at suf).

Definition hi_zero (hi : option nat) : bool :=
  match hi with
  | Some O => true
  | _ => false
  end.

Definition hi_pred (hi : option nat) : option nat :=
  match hi with
  | Some n => Some (Nat.pred n)
  | None => None
  end.

(** [m r k st]: match [r] at [st], then continue with [k]; the first
    success in the priority order of the backtracking semantics wins. An
    iteration of a quantifier beyond its minimum that reads nothing is
    refused, as in RepeatMatcher. *)
Fixpoint m {R : Type} (r : re) (k : mstate -> option R) (st : mstate)
  {struct r} : option R :=
  match r with
  | Eps => k st
  | Chr p =>
    match after st with
    | c :: t => if p c then k (MState (cap st) (c :: before st) t) else None
    | [] => None
    end
  | Seq a b => m a (m b k) st
  | Alt a b =>
    match m a k st with
    | Some x => Some x
    | None => m b k st
    end
  | Rep lo hi r' =>
    (fix loop (fuel lo : nat) (hi : option nat) (st : mstate) {struct fuel}
       : option R :=
       match fuel with
       | O => None
       | S fuel' =>
         match lo with
         | S lo' => m r' (loop fuel' lo' (hi_pred hi)) st
         | O =>
           if hi_zero hi then k st
           else
             match m r' (fun st' =>
                      if (length (after st') <? length (after st))%nat
                      then loop fuel' O (hi_pred hi) st'
                      else None) st with
             | Some x => Some x
             | None => k st
             end
         end
       end) (S (lo + length (after st))) lo hi st
  | Group r' =>
    m r' (fun st' =>
            k (MState
                 (Some (firstn (length (after st) - length (after st'))
                               (after st)))
                 (before st') (after st'))) st
  | Bol =>
    match before st with
    | [] => k st
    | _ :: _ => None
    end
  | WordB => if is_boundary (before st) (after st) then k st else None
  | Behind p =>
    match before st with
    | c :: _ => if p c then k st else None
    | [] => None
    end
  end.

(** A match: the text before it (reversed), the matched text, group 1 and
    the text after it. *)
Record found := Found {
  f_pre : list Z;
  f_text : jsstring;
  f_cap : option jsstring;
  f_rest : jsstring;
}.

Definition exec_at (r : re) (pre suf : list Z) : option found :=
  m r (fun st' =>
         Some (Found pre
                     (firstn (length suf - length (after st')) suf)
                     (cap st') (after st')))
    (MState None pre suf).

(** The leftmost match at or after the current position. *)
Fixpoint search (r : re) (pre suf : list Z) : option found :=
  match exec_at r pre suf with
  | Some f => Some f
  | None =>
    match suf with
    | [] => None
    | c :: t => search r (c :: pre) t
    end
  end.

(** [s.match(r)] for [r] without the [g] flag. *)
Definition exec (r : re) (s : jsstring) : option found := search r [] s.

(** [r.test(s)] *)
Definition test (r : re) (s : jsstring) : bool :=
  match exec r s with
  | Some _ => true
  | None => false
  end.

(** [s.match(r)] for [r] with the [g] flag: the matched texts, from left
    to right ([[]] stands for [null]). *)
Fixpoint match_all_from (fuel : nat) (r : re) (pre suf : list Z)
  : list jsstring :=
  match fuel with
  | O => []
  | S fuel' =>
    match search r pre suf with
    | None => []
    | Some f =>
      f_text f ::
      match f_text f with
      | [] =>
        match f_rest f with
        | [] => []
        | c :: t => match_all_from fuel' r (c :: f_pre f) t
        end
      | _ :: _ =>
        match_all_from fuel' r (rev (f_text f) ++ f_pre f) (f_rest f)
      end
    end
  end.

Definition match_all (r : re) (s : jsstring) : list jsstring :=
  match_all_from (S (length s)) r [] s.

(** [s.replace(r, by)] for [r] without the [g] flag. *)
Definition replace (r : re) (by_ : jsstring) (s : jsstring) : jsstring :=
  match exec r s with
  | Some f => rev (f_pre f) ++ by_ ++ f_rest f
  | None => s
  end.

(** [s.replace(r, by)] for [r] with the [g] flag; [by] has no [$]. *)
Fixpoint replace_all_from (fuel : nat) (r : re) (by_ : jsstring)
  (pre suf : list Z) : jsstring :=
  match fuel with
  | O => suf
  | S fuel' =>
    match search r pre suf with
    | None => suf
    | Some f =>
      firstn (length (f_pre f) - length pre) suf ++ by_ ++
      match f_text f with
      | [] =>
        match f_rest f with
        | [] => []
        | c :: t => c :: replace_all_from fuel' r by_ (c :: f_pre f) t
        end
      | _ :: _ =>
        replace_all_from fuel' r by_ (rev (f_text f) ++ f_pre f) (f_rest f)
      end
    end
  end.

Definition replace_all (r : re) (by_ : jsstring) (s : jsstring) : jsstring :=
  replace_all_from (S (length s)) r by_ [] s.

(** [s.split(r)] for [r] without capturing groups. [piece] is the current
    piece, reversed. *)
Fixpoint split_from (fuel : nat) (r : re) (piece pre suf : list Z)
  : list jsstring :=
  match fuel with
  | O => [rev piece ++ suf]
  | S fuel' =>
    match suf with
    | [] => [rev piece]
    | c :: t =>
      match exec_at r pre suf with
      | None => split_from fuel' r (c :: piece) (c :: pre) t
      | Some f =>
        match piece, f_text f with
        | [], [] => split_from fuel' r [c] (c :: pre) t
        | _, _ =>
          rev piece :: split_from fuel' r [] (rev (f_text f) ++ pre) (f_rest f)
        end
      end
    end
  end.

Definition split (r : re) (s : jsstring) : list jsstring :=
  match s with
  | [] =>
    match exec_at r [] [] with
    | Some _ => []
    | None => [[]]
    end
  | _ :: _ => split_from (2 * length s + 2) r [] [] s
  end.

(** *** Building patterns *)

Fixpoint seq (rs : list re) : re :=
  match rs with
  | [] => Eps
  | [r] => r
  | r :: rest => Seq r (seq rest)
  end.

Definition opt (r : re) : re := Rep 0 (Some 1%nat) r.
Definition star (r : re) : re := Rep 0 None r.
Definition plus (r : re) : re := Rep 1 None r.
Definition chr (c : Z) : re := Chr (Z.eqb c).
Definition digit : re := Chr is_digit.
Definition space : re := Chr is_space.

(** A literal without the [i] flag. *)
Definition str (s : jsstring) : re := seq (map chr s).

(** The abstract operation Canonicalize for the [i] flag without the [u]
    flag. *)
Definition Canonicalize `{Unicode} (ch : Z) : Z :=
  match toUpperCase [ch] with
  | [cu] => if (128 <=? ch) && (cu <? 128) then ch else cu
  | _ => ch
  end.

Definition ci_eqb `{Unicode} (a b : Z) : bool :=
  Canonicalize a =? Canonicalize b.

Definition chr_i `{Unicode} (c : Z) : re := Chr (ci_eqb c).

(** A literal under the [i] flag. *)
Definition str_i `{Unicode} (s : jsstring) : re := seq (map chr_i s).

End RegExp.

Import RegExp.

(** ** Arrays *)

Module JSArray.

(** [arr.sort(cmp)] for a consistent comparator: the stable sort. An
    element goes before the first element it does not compare greater
    than. *)
Section Sort.
Context {A : Type} (cmp : A -> A -> Z).

Fixpoint insert_sorted (x : A) (l : list A) : list A :=
  match l with
  | [] => [x]
  | y :: l' => if cmp x y <=? 0 then x :: l else y :: insert_sorted x l'
  end.

Fixpoint sort (l : list A) : list A :=
  match l with
  | [] => []
  | x :: l' => insert_sorted x (sort l')
  end.
End Sort.

(** [arr.some(f)], [arr.filter(f).length], [arr.findIndex(f)] *)
Definition some {A} (f : A -> bool) (l : list A) : bool := existsb f l.

Definition count {A} (f : A -> bool) (l : list A) : Z :=
  Z.of_nat (length (List.filter f l)).

Fixpoint findIndex {A} (f : A -> bool) (l : list A) : option nat :=
  match l with
  | [] => None
  | x :: l' => if f x then Some O else option_map S (findIndex f l')
  end.

(** [Math.min(...l)] for a list that is not empty. *)
Fixpoint minimum (x : Z) (l : list Z) : Z :=
  match l with
  | [] => x
  | y :: l' => Z.min x (minimum y l')
  end.

End JSArray.

Import JSArray.

(** ** wikipedia.ts: the lexicon *)

Inductive WikiCategory := shock | civilization | struggle | origins.

#[export] Instance WikiCategory_eq_dec : EqDecision WikiCategory.
Proof. solve_decision. Defined.

Definition words (l : list string) : list jsstring := map lit l.

Definition MAX_RESULTS : nat := 30.
Definition SHADOW_LIMIT : Z := 150.

Definition SHOCK_KW : list jsstring := words [
  "massacre"; "exécution"; "pogrom"; "rafle"; "génocide"; "attentat";
  "assassinat"; "torture"; "déportation"; "persécution"; "esclavage";
  "bombardement"; "extermination"; "fusillade"; "noyade" ]%string.

Definition SHOCK_VERBS : list jsstring := words [
  "assassin"; "exécut"; "massacr"; "fusill"; "pendu"; "noyé";
  "brûlé"; "tortur"; "déport"; "extermin" ]%string.

Definition MEMORIAL_KW : list jsstring := words [
  "camp de concentration"; "camp d'extermination"; "camp de la mort";
  "déportation"; "extermination"; "goulag"; "charnier";
  "chambre à gaz"; "shoah"; "holocauste"; "solution finale" ]%string.

Definition CIVILIZATION_KW : list jsstring := words [
  "empire"; "traité"; "dynastie"; "fondation"; "couronnement";
  "proclamation"; "constitution"; "cathédrale"; "palais"; "forteresse";
  "antiquité"; "romain"; "pharaon"; "civilisation"; "royaume";
  "signature"; "alliance"; "armistice"; "capitulation" ]%string.

Definition STRUGGLE_KW : list jsstring := words [
  "grève"; "manifestation"; "résistance"; "insurrection"; "révolte";
  "révolution"; "barricade"; "soulèvement"; "droits civiques";
  "émancipation"; "libération"; "indépendance"; "répression";
  "censure"; "ségrégation"; "occulté"; "bavure"; "colonisation" ]%string.

Definition ORIGINS_KW : list jsstring := words [
  "archéologie"; "préhistoire"; "néolithique"; "paléolithique";
  "migration"; "mégalithe"; "grotte"; "fossile"; "sépulture";
  "dolmen"; "menhir"; "cité antique"; "ruines"; "vestige";
  "âge du bronze"; "âge du fer" ]%string.

Definition IMPACT_KW : list jsstring := words [
  "victimes"; "morts"; "tués"; "blessés"; "disparus"; "fusillés";
  "pendus"; "noyés"; "brûlés"; "détenus"; "prisonniers" ]%string.

Definition ALL_VERBS : list jsstring := words [
  "assassin"; "proclam"; "envahi"; "sign"; "découvr"; "soulev";
  "conqui"; "détru"; "incendi"; "bombard"; "libér"; "occup";
  "exécut"; "massacr"; "fusill"; "déport"; "resist"; "revolt";
  "fond"; "constru"; "érig"; "bâti" ]%string.

Definition GEO_PENALTIES : list jsstring := words [
  "commune de"; "code postal"; "montagne"; "sommet"; "fleuve";
  "altitude"; "km²"; "rivière"; "affluent"; "bassin versant";
  "département"; "arrondissement"; "canton de"; "intercommunalité" ]%string.

Definition CHURCH_WORDS : list jsstring := words [
  "église"; "paroisse"; "édifice"; "chapelle" ]%string.

Definition SPORT_BLACKLIST : list jsstring := words [
  "football"; "stade"; "match"; "olympique"; "club sportif";
  "championnat"; "ligue"; "coupe du monde"; "rugby"; "tennis";
  "natation"; "athlétisme"; "gymnase" ]%string.

Definition SPORT_EXCEPTIONS : list jsstring := words [
  "exécution"; "prisonnier"; "détenu"; "massacre"; "internement";
  "déportation"; "camp"; "fusillade"; "mémorial" ]%string.

Definition KEYWORD_SEARCHES : list jsstring := words [
  "massacre"; "pogrom"; "révolte"; "insurrection";
  "bombardement"; "libération"; "traité"; "camp de concentration" ]%string.

Definition ROMAN_TO_NUM : list (jsstring * Z) := [
  (lit "I", 1); (lit "II", 2); (lit "III", 3); (lit "IV", 4); (lit "V", 5);
  (lit "VI", 6); (lit "VII", 7); (lit "VIII", 8); (lit "IX", 9);
  (lit "X", 10); (lit "XI", 11); (lit "XII", 12); (lit "XIII", 13);
  (lit "XIV", 14); (lit "XV", 15); (lit "XVI", 16); (lit "XVII", 17);
  (lit "XVIII", 18); (lit "XIX", 19); (lit "XX", 20); (lit "XXI", 21) ].

(** [obj[key]] on a record of numbers. *)
Fixpoint record_get (tbl : list (jsstring * Z)) (key : jsstring) : option Z :=
  match tbl with
  | [] => None
  | (k, v) :: rest => if str_eqb k key then Some v else record_get rest key
  end.

(** ** wikipedia.ts: dates *)

Section Dates.
Context `{Unicode}.

(** [/(\d{1,4})\s*av(?:ant)?\.?\s*J\.?-?C\.?/i] *)
Definition re_bc : re := seq [
  Group (Rep 1 (Some 4%nat) digit); star space; str_i (lit "av");
  opt (str_i (lit "ant")); opt (chr 46); star space; chr_i 74;
  opt (chr 46); opt (chr 45); chr_i 67; opt (chr 46) ].

(** [/\b(\d{3,4})\b/g] *)
Definition re_num : re := seq [
  WordB; Group (Rep 3 (Some 4%nat) digit); WordB ].

(** [X{0,3}(?:IX|IV|V?I{0,3})] under the [i] flag *)
Definition re_roman : re := seq [
  Rep 0 (Some 3%nat) (chr_i 88);
  Alt (str_i (lit "IX"))
      (Alt (str_i (lit "IV"))
           (Seq (opt (chr_i 86)) (Rep 0 (Some 3%nat) (chr_i 73)))) ].

(** [/\b(X{0,3}(?:IX|IV|V?I{0,3}))e\s*siècle\s*av/i] *)
Definition re_bc_roman : re := seq [
  WordB; Group re_roman; chr_i 101; star space; str_i (lit "siècle");
  star space; str_i (lit "av") ].

(** [/\b(X{0,3}(?:IX|IV|V?I{0,3}))e\s*siècle/i] *)
Definition re_roman_century : re := seq [
  WordB; Group re_roman; chr_i 101; star space; str_i (lit "siècle") ].

(** [/\b(\d{1,2})(?:e|ème)\s*siècle/i] *)
Definition re_num_century : re := seq [
  WordB; Group (Rep 1 (Some 2%nat) digit);
  Alt (chr_i 101) (str_i (lit "ème")); star space; str_i (lit "siècle") ].

Definition group1 (f : found) : jsstring :=
  match f_cap f with
  | Some g => g
  | None => []
  end.

(** A number is truthy when it is not zero. *)
Definition roman_value (g : jsstring) : option Z :=
  match record_get ROMAN_TO_NUM (toUpperCase g) with
  | Some n => if n =? 0 then None else Some n
  | None => None
  end.

Definition extractCenturyYear (text : jsstring) : option Z :=
  let bcRoman :=
    match exec re_bc_roman text with
    | Some f =>
      match roman_value (group1 f) with
      | Some n => Some (- (n * 100 - 50))
      | None => None
      end
    | None => None
    end in
  match bcRoman with
  | Some y => Some y
  | None =>
    let roman :=
      match exec re_roman_century text with
      | Some f =>
        match roman_value (group1 f) with
        | Some n => Some (n * 100 - 50)
        | None => None
        end
      | None => None
      end in
    match roman with
    | Some y => Some y
    | None =>
      match exec re_num_century text with
      | Some f =>
        let n := parse_digits 0 (group1 f) in
        if (1 <=? n) && (n <=? 21) then Some (n * 100 - 50) else None
      | None => None
      end
    end
  end.

(** The result is [None] for [null]; the zero of JavaScript is [Some 0],
    whatever its sign. *)
Definition extractYear (text : jsstring) : option Z :=
  match exec re_bc text with
  | Some f => Some (- parse_digits 0 (group1 f))
  | None =>
    let years :=
      List.filter (fun y => (100 <=? y) && (y <=? 2025))
                  (map (parse_digits 0) (match_all re_num text)) in
    match years with
    | y :: rest => Some (minimum y rest)
    | [] => extractCenturyYear text
    end
  end.

(** The group as it stands in the text, then the suffix. *)
Definition formatCenturyLabel (text : jsstring) : option jsstring :=
  match exec re_bc_roman text with
  | Some f => Some (group1 f ++ lit "e av. J.-C.")
  | None =>
    match exec re_roman_century text with
    | Some f => Some (group1 f ++ lit "e")
    | None =>
      match exec re_num_century text with
      | Some f =>
        let n := parse_digits 0 (group1 f) in
        match List.find (fun kv => snd kv =? n) ROMAN_TO_NUM with
        | Some kv => Some (fst kv ++ lit "e")
        | None => Some (String_of_Z n ++ lit "e")
        end
      | None => None
      end
    end
  end.

End Dates.

(** ** wikipedia.ts: scoring and classification *)

(** The [reason] of a result is a message for the console; it is kept as
    the data the message is built from. *)
Inductive Reason :=
| BoostMemoriel (impact : Z)
| AntiEglise (occurrences : Z)
| SportObscur (langs : Z)
| MalusGeo (kw : jsstring)
| PasDeDate
| Retenu (cat : WikiCategory) (catScore impact : Z) (titreRoyal grotte : bool).

Record ScoreResult := {
  score : Z;
  rejected : bool;
  reason : Reason;
  cat : WikiCategory;
}.

Section Scoring.
Context `{Unicode}.

Definition hasVerb (text : jsstring) : bool :=
  let tl := toLowerCase text in
  some (fun v => includes tl v) ALL_VERBS.

(** The inner loop of [countOccurrences] for one word: after a hit the
    search resumes behind the word, so the [skip] code units that follow
    the start of a hit are passed over. *)
Fixpoint countFrom (w : jsstring) (skip : nat) (tl : jsstring) : Z :=
  match tl with
  | [] => 0
  | _ :: t =>
    match skip with
    | S skip' => countFrom w skip' t
    | O =>
      if prefixb w tl then 1 + countFrom w (length w - 1) t
      else countFrom w 0 t
    end
  end.

Definition countOccurrences (text : jsstring) (ws : list jsstring) : Z :=
  let tl := toLowerCase text in
  fold_left (fun count w => count + countFrom w 0 tl) ws 0.

Record CatScore := { cs_cat : WikiCategory; cs_s : Z }.

Definition hits (full : jsstring) (kws : list jsstring) : Z :=
  count (fun k => includes full k) kws.

Definition classify (full : jsstring) : WikiCategory * Z :=
  let shockHits := hits full SHOCK_KW in
  let shockVerbHits := hits full SHOCK_VERBS in
  let civHits := hits full CIVILIZATION_KW in
  let struggleHits := hits full STRUGGLE_KW in
  let originsHits := hits full ORIGINS_KW in
  let scores := [
    {| cs_cat := shock; cs_s := shockHits * 25 + shockVerbHits * 20 |};
    {| cs_cat := civilization; cs_s := civHits * 12 |};
    {| cs_cat := struggle; cs_s := struggleHits * 20 |};
    {| cs_cat := origins; cs_s := originsHits * 5 |} ] in
  match sort (fun a b => cs_s b - cs_s a) scores with
  | top :: _ =>
    if cs_s top =? 0 then (civilization, 0) else (cs_cat top, cs_s top)
  | [] => (civilization, 0)
  end.

(** [full] of [computeScore]: the lowercased title, a space, the
    lowercased extract. *)
Definition fullText (title extract : jsstring) : jsstring :=
  toLowerCase (title ++ [32] ++ extract).

Definition isMemorial (full : jsstring) : bool :=
  some (fun k => includes full k) MEMORIAL_KW.

Definition isSport (full : jsstring) : bool :=
  some (fun k => includes full k) SPORT_BLACKLIST.

Definition hasSportException (full : jsstring) : bool :=
  some (fun k => includes full k) SPORT_EXCEPTIONS.

Definition hasConflict (full : jsstring) : bool :=
  some (fun k => includes full k) (SHOCK_KW ++ STRUGGLE_KW).

Definition titleHasShock (title : jsstring) : bool :=
  some (fun k => includes (toLowerCase title) k) SHOCK_KW.

Definition titleHasCiv (title : jsstring) : bool :=
  some (fun k => includes (toLowerCase title) k) CIVILIZATION_KW.

Definition titleHasStruggle (title : jsstring) : bool :=
  some (fun k => includes (toLowerCase title) k) STRUGGLE_KW.

Definition titreRoyal (title : jsstring) : bool :=
  titleHasShock title || titleHasCiv title || titleHasStruggle title.

(** [!year] *)
Definition falsy (year : option Z) : bool :=
  match year with
  | None => true
  | Some y => y =? 0
  end.

(** The score after the title step ("Titre Royal"), from the score
    before it. *)
Definition afterTitle (title : jsstring) (s : Z) : Z :=
  if titreRoyal title then s + 500 else s.

(** The steps of [computeScore] behind the title step: sport penalty, geo
    penalty, impact, action verbs, the date test, length and the minor
    origins division. [None] is the rejection for want of a date and of a
    keyword. *)
Definition afterTitleSteps (full extract : jsstring) (langs : Z)
  (c : WikiCategory) (catScore : Z) (s : Z) : option Z :=
  let s := if isSport full && negb (hasSportException full)
           then s - 50 else s in
  let s := if some (fun kw => includes full kw) GEO_PENALTIES
           then s - 10 else s in
  let impactHits := hits full IMPACT_KW in
  let s := s + impactHits * 15 in
  let s := if hasVerb full then s + 10 else s in
  let year := extractYear extract in
  if falsy year && negb (0 <? catScore) then None
  else
    let s := if (200 <? length extract)%nat then s + 5 else s in
    let s := if (500 <? length extract)%nat then s + 5 else s in
    let s := if bool_decide (c = origins) && (langs <? 30)
             then round_div s 5 else s in
    Some s.

Definition computeScore (title extract : jsstring) (langs : Z)
  : ScoreResult :=
  let full := fullText title extract in
  if isMemorial full then
    let impactHits := hits full IMPACT_KW in
    let base := 100 + impactHits * 15 in
    {| score := base * 10; rejected := false;
       reason := BoostMemoriel (impactHits * 15); cat := shock |}
  else
    let churchCount := countOccurrences full CHURCH_WORDS in
    let hasAction := hasVerb full in
    if (3 <? churchCount) && negb hasAction && negb (hasConflict full) then
      {| score := 0; rejected := true;
         reason := AntiEglise churchCount; cat := civilization |}
    else if isSport full && negb (hasSportException full)
               && (langs <? 20) then
      {| score := -100; rejected := true;
         reason := SportObscur langs; cat := civilization |}
    else
      let '(c, catScore) := classify full in
      let hasAnyKeyword := 0 <? catScore in
      match List.find (fun kw => includes full kw && negb hasAnyKeyword)
                      GEO_PENALTIES with
      | Some kw =>
        {| score := -15; rejected := true; reason := MalusGeo kw; cat := c |}
      | None =>
        let s := 10 + catScore in
        let s := afterTitle title s in
        match afterTitleSteps full extract langs c catScore s with
        | None =>
          {| score := 0; rejected := true; reason := PasDeDate; cat := c |}
        | Some s =>
          {| score := s; rejected := false;
             reason := Retenu c catScore (hits full IMPACT_KW * 15)
                         (titreRoyal title)
                         (bool_decide (c = origins) && (langs <? 30));
             cat := c |}
        end
      end.

End Scoring.

(** ** wikipedia.ts: title and extract *)

Section TitleAndExtract.
Context `{Unicode}.

Definition formatTitle (rawTitle : jsstring) (year : option Z)
  (extract : jsstring) : jsstring :=
  let byLabel :=
    match formatCenturyLabel (rawTitle ++ [32] ++ extract) with
    | Some ((_ :: _) as label) => lit "(" ++ label ++ lit ") " ++ rawTitle
    | _ => rawTitle
    end in
  match year with
  | Some y =>
    if 0 <? y then lit "(" ++ String_of_Z y ++ lit ") " ++ rawTitle
    else if y <? 0 then
      lit "(" ++ String_of_Z (Z.abs y) ++ lit " av. J.-C.) " ++ rawTitle
    else byLabel
  | None => byLabel
  end.

(** [/(?<=[.!?])\s+/] *)
Definition re_sentence_end : re :=
  Seq (Behind (fun c => (c =? 46) || (c =? 33) || (c =? 63))) (plus space).

(** [/\b\d{3,4}\b/] *)
Definition re_has_number : re := seq [
  WordB; Rep 3 (Some 4%nat) digit; WordB ].

(** [/siècle/i] *)
Definition re_siecle : re := str_i (lit "siècle").

Definition allKW : list jsstring :=
  SHOCK_KW ++ CIVILIZATION_KW ++ STRUGGLE_KW ++ ORIGINS_KW ++ IMPACT_KW.

Definition datedKeywordSentence (s : jsstring) : bool :=
  let sl := toLowerCase s in
  let hasDate := test re_has_number s || test re_siecle s in
  let hasKw := some (fun k => includes sl k) allKW || hasVerb sl in
  hasDate && hasKw.

(** The last loop of [trimExtract]: the first keyword, in the order of
    [allKW], that some sentence contains gives the index. *)
Fixpoint firstKeywordSentence (sentences : list jsstring)
  (kws : list jsstring) : option nat :=
  match kws with
  | [] => None
  | kw :: rest =>
    match findIndex (fun s => includes (toLowerCase s) kw) sentences with
    | Some idx => Some idx
    | None => firstKeywordSentence sentences rest
    end
  end.

(** [sentences.slice(i).join(" ").slice(0, 500)] *)
Definition fromSentence (sentences : list jsstring) (i : nat) : jsstring :=
  slice0 500 (join [32] (skipn i sentences)).

Definition yearSentence (sentences : list jsstring) (year : option Z)
  : option nat :=
  match year with
  | Some y =>
    if 0 <? y then findIndex (fun s => includes s (String_of_Z y)) sentences
    else None
  | None => None
  end.

Definition trimExtract (extract : jsstring) (year : option Z) : jsstring :=
  let sentences := split re_sentence_end extract in
  match findIndex datedKeywordSentence sentences with
  | Some i => fromSentence sentences i
  | None =>
    match yearSentence sentences year with
    | Some idx => fromSentence sentences idx
    | None =>
      match firstKeywordSentence sentences allKW with
      | Some idx => fromSentence sentences idx
      | None => slice0 500 extract
      end
    end
  end.

End TitleAndExtract.

(** ** wikipedia.ts: the discovery pass

    Coordinates are JavaScript doubles: a type [float] with the few
    operations the pass applies to them. The four network calls are
    functions of their arguments (what the call resolved to), and so is the
    rounded notoriety product, which goes through [Math.log2]. All of them
    are variables: what is proved holds whatever they answer. *)

Module GeoSearchResult.
Record t {float : Type} := {
  pageid : Z;
  title : jsstring;
  lat : float;
  lon : float;
  dist : float;
}.
Arguments t : clear implicits.
End GeoSearchResult.

Module PageExtract.
Record t := {
  pageid : Z;
  title : jsstring;
  extract : option jsstring;
}.
End PageExtract.

Module WikiEvent.
Record t {float : Type} := {
  id : Z;
  title : jsstring;
  description : jsstring;
  lat : float;
  lng : float;
  year : option Z;
  category : WikiCategory;
  score : Z;
  notorietyScore : Z;
  isIncontournable : bool;
}.
Arguments t : clear implicits.
End WikiEvent.

Section Discovery.
Context `{Unicode}.
Variable float : Type.
Variables fadd fsub fmin : float -> float -> float.
(** [0.18] and [10000] *)
Variables offsetDeg maxRadius : float.
(** [x.toFixed(2)] *)
Variable toFixed2 : float -> jsstring.
Variable geosearch :
  float -> float -> float -> Z -> list (GeoSearchResult.t float).
Variable keywordSearch :
  jsstring -> float -> float -> list (GeoSearchResult.t float).
Variable fetchExtracts : list Z -> gmap Z PageExtract.t.
Variable fetchLangCounts : list Z -> gmap Z Z.
(** [Math.round(baseScore * (1 + Math.log2(Math.max(1, langs)) * 0.3))] *)
Variable notoriety : Z -> Z -> Z.

Record Caches := {
  articleCache : gmap Z (option (WikiEvent.t float));
  gridCache : gset jsstring;
}.

Definition gridKey (lat lon : float) : jsstring :=
  toFixed2 lat ++ lit "|" ++ toFixed2 lon.

Definition buildGrid (lat lon : float) : list (float * float) := [
  (lat, lon);
  (fadd lat offsetDeg, lon);
  (fsub lat offsetDeg, lon);
  (lat, fadd lon offsetDeg);
  (lat, fsub lon offsetDeg) ].

(** The insertion-ordered map [uniqueMap], as the list of its values. *)
Definition addUnique (cache : gmap Z (option (WikiEvent.t float)))
  (uniqueMap : list (GeoSearchResult.t float)) (g : GeoSearchResult.t float)
  : list (GeoSearchResult.t float) :=
  if existsb (fun u => GeoSearchResult.pageid u =? GeoSearchResult.pageid g)
             uniqueMap
     || bool_decide (is_Some (cache !! GeoSearchResult.pageid g))
  then uniqueMap
  else uniqueMap ++ [g].

(** One turn of the scoring loop: the article cache and the array
    [scored] before and after. *)
Definition scoreCandidate (extracts : gmap Z PageExtract.t)
  (langCounts : gmap Z Z) (kwPageIds : gset Z)
  (st : gmap Z (option (WikiEvent.t float)) * list (WikiEvent.t float))
  (g : GeoSearchResult.t float)
  : gmap Z (option (WikiEvent.t float)) * list (WikiEvent.t float) :=
  let '(cache, scored) := st in
  let pid := GeoSearchResult.pageid g in
  let ext := extracts !! pid in
  let rawExtract :=
    match ext with
    | Some e => default [] (PageExtract.extract e)
    | None => []
    end in
  let rawTitle :=
    match ext with
    | Some e => PageExtract.title e
    | None => GeoSearchResult.title g
    end in
  let langs := default 0 (langCounts !! pid) in
  let fromKw := bool_decide (pid ∈ kwPageIds) in
  let r := computeScore rawTitle rawExtract langs in
  if rejected r then (<[pid := None]> cache, scored)
  else
    let baseScore := score r in
    let isAlreadyBoosted := 1000 <=? baseScore in
    let finalScore :=
      if isAlreadyBoosted then baseScore else notoriety baseScore langs in
    if bool_decide (cat r = origins) && (langs <? 15) && negb fromKw
    then (<[pid := None]> cache, scored)
    else
      let year := extractYear rawExtract in
      let description := trimExtract rawExtract year in
      let title := formatTitle rawTitle year rawExtract in
      let event := {|
        WikiEvent.id := pid;
        WikiEvent.title := title;
        WikiEvent.description := description;
        WikiEvent.lat := GeoSearchResult.lat g;
        WikiEvent.lng := GeoSearchResult.lon g;
        WikiEvent.year := year;
        WikiEvent.category := cat r;
        WikiEvent.score := finalScore;
        WikiEvent.notorietyScore := langs;
        WikiEvent.isIncontournable := fromKw |} in
      (<[pid := Some event]> cache, scored ++ [event]).

(** [(a, b) => b.score - a.score] *)
Definition byScoreDesc (a b : WikiEvent.t float) : Z :=
  WikiEvent.score b - WikiEvent.score a.

Definition fetchWikiEvents (lat lon radius : float) (c : Caches)
  : list (WikiEvent.t float) * Caches :=
  let grid := buildGrid lat lon in
  let newPoints :=
    List.filter (fun p => negb (bool_decide
                                  (gridKey (fst p) (snd p) ∈ gridCache c)))
                grid in
  match newPoints with
  | [] => ([], c)
  | _ :: _ =>
    let grid' :=
      fold_left (fun s p => s ∪ {[ gridKey (fst p) (snd p) ]})
                newPoints (gridCache c) in
    let allGeoResults :=
      map (fun p => geosearch (fst p) (snd p) (fmin radius maxRadius)
                              SHADOW_LIMIT) newPoints in
    let allKwResults :=
      map (fun kw => keywordSearch kw lat lon) KEYWORD_SEARCHES in
    let kwPageIds : gset Z :=
      fold_left (fun s g => s ∪ {[ GeoSearchResult.pageid g ]})
                (concat allKwResults) ∅ in
    let geoResults :=
      fold_left (addUnique (articleCache c))
                (concat (allGeoResults ++ allKwResults)) [] in
    match geoResults with
    | [] => ([], {| articleCache := articleCache c; gridCache := grid' |})
    | _ :: _ =>
      let pageids := map GeoSearchResult.pageid geoResults in
      let extracts := fetchExtracts pageids in
      let langCounts := fetchLangCounts pageids in
      let '(cache', scored) :=
        fold_left (scoreCandidate extracts langCounts kwPageIds)
                  geoResults (articleCache c, []) in
      let top := firstn MAX_RESULTS (sort byScoreDesc scored) in
      (top, {| articleCache := cache'; gridCache := grid' |})
    end
  end.

End Discovery.

(** ** The quiz engine *)

(** [Math.random] is a supply of draws: the index [Math.floor(Math.random()
    * (i + 1))] is the next draw reduced below [i + 1], so that every index
    from [0] to [i] is the outcome of some supply. *)
Module Rand.
Definition t (A : Type) : Type := list nat -> A * list nat.

Definition ret {A} (x : A) : t A := fun s => (x, s).

Definition bind {A B} (c : t A) (f : A -> t B) : t B :=
  fun s => let '(x, s') := c s in f x s'.

Definition randomIndex (i : nat) : t nat :=
  fun s =>
    match s with
    | [] => (O, [])
    | r :: s' => (r mod (S i), s')%nat
    end.
End Rand.

Notation "'let!' x ':=' c 'in' k" := (Rand.bind c (fun x => k))
  (at level 10, x name, c at level 100, k at level 200).

Module QuizQuestion.
Inductive Difficulty := easy | hard.

Record Hints := {
  category : WikiCategory;
  year : option Z;
  actions : list jsstring;
}.

Record t := {
  eventId : jsstring;
  correctTitle : jsstring;
  maskedDescription : jsstring;
  hints : Hints;
  options : list jsstring;
  difficulty : Difficulty;
}.
End QuizQuestion.

Module QuizResult.
Record t := {
  points : Z;
  hintsUsed : Z;
  wasQCM : bool;
  correct : bool;
}.
End QuizResult.

Definition VERB_MAP : list (jsstring * jsstring) := [
  (lit "assassin", lit "assassiner");
  (lit "proclam", lit "proclamer");
  (lit "envahi", lit "envahir");
  (lit "sign", lit "signer");
  (lit "découvr", lit "découvrir");
  (lit "soulev", lit "se soulever");
  (lit "conqui", lit "conquérir");
  (lit "détru", lit "détruire");
  (lit "incendi", lit "incendier");
  (lit "bombard", lit "bombarder");
  (lit "libér", lit "libérer");
  (lit "occup", lit "occuper");
  (lit "exécut", lit "exécuter");
  (lit "massacr", lit "massacrer");
  (lit "fusill", lit "fusiller");
  (lit "déport", lit "déporter");
  (lit "resist", lit "résister");
  (lit "revolt", lit "se révolter");
  (lit "fond", lit "fonder");
  (lit "constru", lit "construire");
  (lit "érig", lit "ériger");
  (lit "bâti", lit "bâtir") ].

Definition STOP_WORDS : list jsstring := words [
  "de"; "du"; "des"; "le"; "la"; "les"; "un"; "une";
  "au"; "aux"; "en"; "et"; "ou"; "par"; "pour"; "sur";
  "dans"; "avec"; "sans"; "sous"; "entre"; "vers";
  "qui"; "que"; "dont"; "son"; "ses"; "leur"; "ce";
  "cette"; "ces"; "est"; "été"; "sont"; "fut"; "ont" ]%string.

Definition genericFallbacks : list jsstring := words [
  "Siège de Constantinople";
  "Révolte des Canuts";
  "Traité de Westphalie";
  "Bataille de Verdun";
  "Massacre de Wounded Knee";
  "Chute de l'Empire romain";
  "Croisade des Albigeois";
  "Déclaration de Balfour" ]%string.

(** The full mask and the word mask: six and four full blocks (U+2588). *)
Definition FULL_MASK : jsstring := lit "██████".
Definition WORD_MASK : jsstring := lit "████".

(** [(?:\s*av\.?\s*J\.?-?C\.?)?] *)
Definition re_av_jc : re := opt (seq [
  star space; str (lit "av"); opt (chr 46); star space; chr 74;
  opt (chr 46); opt (chr 45); chr 67; opt (chr 46) ]).

(** [/\(\d{1,4}(?:\s*av\.?\s*J\.?-?C\.?)?\)\s*/], after [^] in [cleanTitle]
    and with the [g] flag in [extractSignificantWords]. *)
Definition re_year_tag : re := seq [
  chr 40; Rep 1 (Some 4%nat) digit; re_av_jc; chr 41; star space ].

Definition is_roman_letter (c : Z) : bool :=
  existsb (Z.eqb c) (lit "IVXLCDM").

(** [/^\([IVXLCDM]+e(?:\s*av\.?\s*J\.?-?C\.?)?\)\s*/] *)
Definition re_century_prefix : re := seq [
  Bol; chr 40; plus (Chr is_roman_letter); chr 101; re_av_jc; chr 41;
  star space ].

(** [/[\s''`\-–—/,.:;]+/] *)
Definition is_separator (c : Z) : bool :=
  is_space c || existsb (Z.eqb c) (lit "''`-–—/,.:;").

(** [/[^a-zA-ZÀ-ÿ]/g] *)
Definition is_letter (c : Z) : bool :=
  ((97 <=? c) && (c <=? 122)) || ((65 <=? c) && (c <=? 90))
  || ((192 <=? c) && (c <=? 255)).

Definition cleanTitle (title : jsstring) : jsstring :=
  trim (replace re_century_prefix []
          (replace (Seq Bol re_year_tag) [] title)).

(** [QuizResult] of an answer. [Math.round(points * 0.5)] is the half
    rounded towards plus infinity. *)
Definition calculatePoints (correct : bool) (hintsUsed : Z) (wasQCM : bool)
  : QuizResult.t :=
  if negb correct then
    {| QuizResult.points := 0; QuizResult.hintsUsed := hintsUsed;
       QuizResult.wasQCM := wasQCM; QuizResult.correct := false |}
  else
    let points := 100 in
    let points := points - hintsUsed * 30 in
    let points := if wasQCM then round_div points 2 else points in
    let points := Z.max 10 points in
    {| QuizResult.points := points; QuizResult.hintsUsed := hintsUsed;
       QuizResult.wasQCM := wasQCM; QuizResult.correct := true |}.

Section Quiz.
Context `{Unicode}.
Variable float : Type.

Definition extractSignificantWords (title : jsstring) : list jsstring :=
  let stripped := replace_all re_year_tag [] title in
  let parts := split (plus (Chr is_separator)) stripped in
  let cleaned :=
    map (replace_all (Chr (fun c => negb (is_letter c))) []) parts in
  List.filter
    (fun w => (4 <=? length w)%nat
              && negb (existsb (str_eqb (toLowerCase w)) STOP_WORDS))
    cleaned.

(** [new RegExp(escapeRegex(s), "gi")]: the escape makes every code unit
    of [s] a pattern character for itself. *)
Definition fullTitleRegex (s : jsstring) : re := str_i s.

(** [new RegExp(`\\b${escapeRegex(word)}\\b`, "gi")] *)
Definition wordRegex (word : jsstring) : re :=
  seq [WordB; str_i word; WordB].

Definition maskDescription (description rawTitle : jsstring) : jsstring :=
  let cleanTitle := cleanTitle rawTitle in
  let masked := description in
  let masked :=
    match cleanTitle with
    | _ :: _ => replace_all (fullTitleRegex cleanTitle) FULL_MASK masked
    | [] => masked
    end in
  let ws := extractSignificantWords cleanTitle in
  fold_left (fun masked word => replace_all (wordRegex word) WORD_MASK masked)
            ws masked.

Fixpoint actionVerbsFrom (lower : jsstring) (maxCount : nat)
  (radicals : list (jsstring * jsstring)) (found : list jsstring)
  : list jsstring :=
  match radicals with
  | [] => found
  | (radical, verb) :: rest =>
    if includes lower radical && negb (existsb (str_eqb verb) found) then
      let found' := found ++ [verb] in
      if (maxCount <=? length found')%nat then found'
      else actionVerbsFrom lower maxCount rest found'
    else actionVerbsFrom lower maxCount rest found
  end.

Definition extractActionVerbs (description : jsstring) (maxCount : nat)
  : list jsstring :=
  actionVerbsFrom (toLowerCase description) maxCount VERB_MAP [].

(** [[copy[i], copy[j]] = [copy[j], copy[i]]] *)
Definition swap {A} (copy : list A) (i j : nat) : list A :=
  match copy !! i, copy !! j with
  | Some x, Some y => <[j := x]> (<[i := y]> copy)
  | _, _ => copy
  end.

Fixpoint shuffleFrom {A} (i : nat) (copy : list A) : Rand.t (list A) :=
  match i with
  | O => Rand.ret copy
  | S i' =>
    let! j := Rand.randomIndex i in
    shuffleFrom i' (swap copy i j)
  end.

Definition shuffle {A} (arr : list A) : Rand.t (list A) :=
  shuffleFrom (length arr - 1) arr.

(** The loop over the shuffled pool: [decoys] and [used] before and
    after. *)
Fixpoint pickDecoys (count : nat) (shuffled : list (WikiEvent.t float))
  (decoys : list jsstring) (used : gset jsstring)
  : list jsstring * gset jsstring :=
  match shuffled with
  | [] => (decoys, used)
  | e :: rest =>
    let clean := toLowerCase (cleanTitle (WikiEvent.title e)) in
    if bool_decide (clean ∈ used) then pickDecoys count rest decoys used
    else
      let decoys' := decoys ++ [cleanTitle (WikiEvent.title e)] in
      let used' := used ∪ {[ clean ]} in
      if (count <=? length decoys')%nat then (decoys', used')
      else pickDecoys count rest decoys' used'
  end.

(** The loop over the generic titles. *)
Fixpoint padDecoys (count : nat) (fallbacks : list jsstring)
  (decoys : list jsstring) (used : gset jsstring) : list jsstring :=
  match fallbacks with
  | [] => decoys
  | f :: rest =>
    if (count <=? length decoys)%nat then decoys
    else if bool_decide (toLowerCase f ∈ used)
    then padDecoys count rest decoys used
    else padDecoys count rest (decoys ++ [f]) (used ∪ {[ toLowerCase f ]})
  end.

Definition generateDecoys (correctEvent : WikiEvent.t float)
  (pool : list (WikiEvent.t float)) (count : nat)
  : Rand.t (list jsstring) :=
  let correctClean :=
    toLowerCase
      (trim (replace re_century_prefix []
               (replace (Seq Bol re_year_tag) []
                  (WikiEvent.title correctEvent)))) in
  let sameCategory :=
    List.filter
      (fun e =>
         negb (WikiEvent.id e =? WikiEvent.id correctEvent)
         && bool_decide
              (WikiEvent.category e = WikiEvent.category correctEvent)
         && negb (str_eqb (toLowerCase (cleanTitle (WikiEvent.title e)))
                          correctClean))
      pool in
  let otherCategory :=
    List.filter
      (fun e =>
         negb (WikiEvent.id e =? WikiEvent.id correctEvent)
         && negb (bool_decide
              (WikiEvent.category e = WikiEvent.category correctEvent))
         && negb (str_eqb (toLowerCase (cleanTitle (WikiEvent.title e)))
                          correctClean))
      pool in
  let! same := shuffle sameCategory in
  let! other := shuffle otherCategory in
  let shuffled := same ++ other in
  let '(decoys, used) := pickDecoys count shuffled [] {[ correctClean ]} in
  let decoys := padDecoys count genericFallbacks decoys used in
  Rand.ret (firstn count decoys).

Definition prepareQuizQuestion (event : WikiEvent.t float)
  (pool : list (WikiEvent.t float)) (difficulty : QuizQuestion.Difficulty)
  : Rand.t QuizQuestion.t :=
  let correctTitle := cleanTitle (WikiEvent.title event) in
  let maskedDescription :=
    maskDescription (WikiEvent.description event) (WikiEvent.title event) in
  let actions := extractActionVerbs (WikiEvent.description event) 3 in
  let! decoys := generateDecoys event pool 3 in
  let! options := shuffle (correctTitle :: decoys) in
  Rand.ret {|
    QuizQuestion.eventId := String_of_Z (WikiEvent.id event);
    QuizQuestion.correctTitle := correctTitle;
    QuizQuestion.maskedDescription := maskedDescription;
    QuizQuestion.hints := {|
      QuizQuestion.category := WikiEvent.category event;
      QuizQuestion.year := WikiEvent.year event;
      QuizQuestion.actions := actions |};
    QuizQuestion.options := options;
    QuizQuestion.difficulty := difficulty |}.

End Quiz.

(** * Properties *)

(** ** Scoring *)

Section ScoringFacts.
Context `{Unicode}.

Lemma hits_nonneg full kws : 0 <= hits full kws.
Proof. unfold hits, count. lia. Qed.

(** The impact keywords are pairwise distinct, so [hits _ IMPACT_KW]
    counts distinct keywords. *)
Lemma IMPACT_KW_NoDup : NoDup IMPACT_KW.
Proof. apply (bool_decide_unpack _). vm_compute. exact I. Qed.

(** C1. When the lowercased text of a candidate contains a memorial
    keyword, [computeScore] answers category shock, the score
    [(100 + impactHits * 15) * 10] with [impactHits] the number of impact
    keywords present, and no rejection; the score is at least 1000. *)
Theorem computeScore_memorial (title extract : jsstring) (langs : Z) :
  isMemorial (fullText title extract) = true ->
  let r := computeScore title extract langs in
  let impactHits := hits (fullText title extract) IMPACT_KW in
  cat r = shock
  /\ score r = (100 + impactHits * 15) * 10
  /\ rejected r = false
  /\ 1000 <= score r.
Proof.
  intros Hmem r impactHits. subst r. unfold computeScore.
  rewrite Hmem. cbn [cat score rejected].
  repeat split; try reflexivity.
  pose proof (hits_nonneg (fullText title extract) IMPACT_KW). lia.
Qed.

(** C5, as amended. A candidate whose lowercased text contains a sports
    keyword, no exception keyword and no memorial keyword, with fewer
    than 20 language editions, is rejected. *)
Theorem computeScore_sport_rejected (title extract : jsstring) (langs : Z) :
  let full := fullText title extract in
  isMemorial full = false ->
  isSport full = true ->
  hasSportException full = false ->
  langs < 20 ->
  rejected (computeScore title extract langs) = true.
Proof.
  intros full Hmem Hsport Hexc Hlangs. subst full. unfold computeScore.
  rewrite Hmem, Hsport, Hexc.
  destruct (_ && _ && _); [reflexivity |].
  replace (langs <? 20) with true by (symmetry; apply Z.ltb_lt; exact Hlangs).
  reflexivity.
Qed.

(** A keyword of any of the four categories in the lowercased title. *)
Definition titleHasCategoryKeyword (title : jsstring) : bool :=
  some (fun k => includes (toLowerCase title) k)
       (SHOCK_KW ++ CIVILIZATION_KW ++ STRUGGLE_KW ++ ORIGINS_KW).

(** A keyword of the three categories the title step looks at. *)
Definition titleHasRoyalKeyword (title : jsstring) : bool :=
  some (fun k => includes (toLowerCase title) k)
       (SHOCK_KW ++ CIVILIZATION_KW ++ STRUGGLE_KW).

(** The candidate gets to the base score: none of the memorial boost,
    the church filter, the sports rejection and the geography rejection
    applies. *)
Definition reachesBaseScoring (title extract : jsstring) (langs : Z)
  : bool :=
  let full := fullText title extract in
  negb (isMemorial full)
  && negb ((3 <? countOccurrences full CHURCH_WORDS)
           && negb (hasVerb full) && negb (hasConflict full))
  && negb (isSport full && negb (hasSportException full) && (langs <? 20))
  && negb (existsb (fun kw => includes full kw
                              && negb (0 <? snd (classify full)))
                   GEO_PENALTIES).

Lemma titreRoyal_spec title : titreRoyal title = titleHasRoyalKeyword title.
Proof.
  unfold titreRoyal, titleHasRoyalKeyword, titleHasShock, titleHasCiv,
    titleHasStruggle, some.
  rewrite !existsb_app, orb_assoc. reflexivity.
Qed.

Lemma find_none_existsb {A} (f : A -> bool) (l : list A) :
  existsb f l = false -> List.find f l = None.
Proof.
  induction l as [|x l IH]; simpl; [reflexivity |].
  destruct (f x); simpl; [discriminate | exact IH].
Qed.

(** C3, as amended. For a candidate that gets to the base score, the
    title step adds exactly 500 to [10 + catScore] when a shock,
    civilization or struggle keyword is in the lowercased title, and
    nothing otherwise; the result of [computeScore] is what the later
    steps make of that score. *)
Theorem computeScore_title_bonus (title extract : jsstring) (langs : Z) :
  reachesBaseScoring title extract langs = true ->
  let full := fullText title extract in
  let c := fst (classify full) in
  let catScore := snd (classify full) in
  let bonus := if titleHasRoyalKeyword title then 500 else 0 in
  afterTitle title (10 + catScore) = 10 + catScore + bonus
  /\ match afterTitleSteps full extract langs c catScore
             (10 + catScore + bonus) with
     | Some s =>
       rejected (computeScore title extract langs) = false
       /\ score (computeScore title extract langs) = s
     | None => rejected (computeScore title extract langs) = true
     end.
Proof.
  intros Hreach full c catScore bonus.
  assert (Hbonus : afterTitle title (10 + catScore) = 10 + catScore + bonus).
  { unfold afterTitle, bonus. rewrite titreRoyal_spec.
    destruct (titleHasRoyalKeyword title); lia. }
  split; [exact Hbonus |].
  unfold reachesBaseScoring in Hreach. fold full in Hreach.
  apply andb_prop in Hreach as [Hreach Hgeo].
  apply andb_prop in Hreach as [Hreach Hsport].
  apply andb_prop in Hreach as [Hmem Hchurch].
  apply negb_true_iff in Hmem, Hchurch, Hsport, Hgeo.
  unfold computeScore. fold full. rewrite Hmem, Hchurch, Hsport.
  subst c catScore. destruct (classify full) as [c catScore] eqn:Hcl.
  cbn [fst snd] in *.
  rewrite (find_none_existsb _ _ Hgeo), Hbonus.
  destruct (afterTitleSteps full extract langs c catScore
              (10 + catScore + bonus)); cbn [rejected score]; auto.
Qed.

End ScoringFacts.

(** C1 at the end-to-end scenario of the specification. *)
Lemma computeScore_memorial_witness :
  let title := lit "Rafle du Vel d'Hiv" in
  let extract :=
    lit "En 1942, les nazis ont déporté des milliers de prisonniers vers un camp de concentration." in
  isMemorial (fullText title extract) = true
  /\ cat (computeScore title extract 12) = shock
  /\ score (computeScore title extract 12) = 1150.
Proof.
  split; [vm_compute; reflexivity |].
  pose proof (computeScore_memorial
                (lit "Rafle du Vel d'Hiv")
                (lit "En 1942, les nazis ont déporté des milliers de prisonniers vers un camp de concentration.")
                12 eq_refl) as (Hc & Hs & _ & _).
  split; [exact Hc | rewrite Hs; vm_compute; reflexivity].
Defined.

(** C5 as stated fails: a stadium article that names the gulag has a
    sports keyword, no exception keyword and 5 language editions, and is
    kept (with the memorial boost). *)
Lemma computeScore_sport_counterexample :
  let title := lit "Stade du goulag" in
  let full := fullText title [] in
  isSport full = true
  /\ hasSportException full = false
  /\ 5 < 20
  /\ rejected (computeScore title [] 5) = false.
Proof. vm_compute. repeat split. Qed.

Lemma computeScore_sport_rejected_witness :
  rejected (computeScore (lit "Stade municipal") (lit "Un stade de football.") 5)
  = true.
Proof.
  apply (computeScore_sport_rejected
           (lit "Stade municipal") (lit "Un stade de football.") 5);
    vm_compute; reflexivity.
Defined.

(** C3 as stated fails: "grotte" is a category keyword (origins) in the
    title, the candidate gets to the base score, and the title step adds
    nothing: the score stays [10 + 5], where 500 more are claimed. *)
Lemma computeScore_title_bonus_counterexample :
  let title := lit "Grotte de Lascaux" in
  titleHasCategoryKeyword title = true
  /\ reachesBaseScoring title [] 50 = true
  /\ classify (fullText title []) = (origins, 5)
  /\ afterTitle title (10 + 5) = 10 + 5
  /\ score (computeScore title [] 50) = 15.
Proof. vm_compute. repeat split. Qed.

Lemma computeScore_title_bonus_witness :
  let title := lit "Massacre de la Saint-Barthélemy" in
  let extract := lit "En 1572, des milliers de morts." in
  reachesBaseScoring title extract 40 = true
  /\ afterTitle title (10 + 45) = 10 + 45 + 500
  /\ rejected (computeScore title extract 40) = false
  /\ score (computeScore title extract 40) = 580.
Proof.
  pose proof (computeScore_title_bonus
                (lit "Massacre de la Saint-Barthélemy")
                (lit "En 1572, des milliers de morts.") 40 eq_refl) as [H1 H2].
  split; [reflexivity |]. split; [exact H1 | exact H2].
Defined.

(** ** Dates *)

(** C4 at the failing input. "5e siècle av. J.-C." has no explicit BCE
    year, no number of three or four digits and an Arabic ordinal century
    with the BCE marker; [extractYear] answers the midpoint 450 without the
    sign, where the Roman form of the same century gives -450. *)
Lemma extractYear_arabic_century_bce :
  let text := lit "au 5e siècle av. J.-C." in
  exec re_bc text = None
  /\ match_all re_num text = []
  /\ test re_num_century text = true
  /\ extractYear text = Some 450
  /\ extractYear (lit "au Ve siècle av. J.-C.") = Some (-450).
Proof. vm_compute. repeat split. Qed.

(** C10 at the failing input. In "10 000 av. J.-C." the BCE pattern reads
    the group "000": [extractYear] answers zero, the date test of
    [computeScore] takes it for no date, and the candidate is rejected for
    want of a date, where the same text with "9000" is kept. *)
Lemma extractYear_zero :
  let extract := lit "Site occupé vers 10 000 av. J.-C." in
  extractYear extract = Some 0
  /\ rejected (computeScore (lit "Abri") extract 40) = true
  /\ reason (computeScore (lit "Abri") extract 40) = PasDeDate
  /\ rejected (computeScore (lit "Abri")
                 (lit "Site occupé vers 9000 av. J.-C.") 40) = false.
Proof. vm_compute. repeat split. Qed.

Section DateFacts.
Context `{Unicode}.

Lemma parse_digits_nonneg (s : jsstring) (acc : Z) :
  0 <= acc -> 0 <= parse_digits acc s.
Proof.
  revert acc. induction s as [|c s IH]; intros acc Hacc; cbn; [exact Hacc |].
  destruct (is_digit c) eqn:Hd; [| exact Hacc].
  apply IH. unfold is_digit in Hd. apply andb_prop in Hd as [Hd _].
  apply Z.leb_le in Hd. lia.
Qed.

Lemma minimum_ge (b x : Z) (l : list Z) :
  b <= x -> Forall (fun y => b <= y) l -> b <= minimum x l.
Proof.
  intros Hx Hl. revert x Hx.
  induction Hl as [|y l Hy Hl IH]; intros x Hx; cbn; [exact Hx |].
  specialize (IH y Hy). lia.
Qed.

Lemma record_get_In (tbl : list (jsstring * Z)) (key : jsstring) (v : Z) :
  record_get tbl key = Some v -> In v (map snd tbl).
Proof.
  induction tbl as [|[k w] tbl IH]; cbn; [discriminate |].
  destruct (str_eqb k key); [intros [= ->]; left; reflexivity |].
  intros Hget. right. exact (IH Hget).
Qed.

Lemma roman_value_range (g : jsstring) (n : Z) :
  roman_value g = Some n -> 1 <= n <= 21.
Proof.
  unfold roman_value.
  destruct (record_get ROMAN_TO_NUM (toUpperCase g)) as [v|] eqn:Hget;
    [| discriminate].
  destruct (v =? 0); [discriminate |]. intros [= <-].
  apply record_get_In in Hget.
  assert (Hall : forallb (fun v => (1 <=? v) && (v <=? 21))
                         (map snd ROMAN_TO_NUM) = true) by reflexivity.
  apply (proj1 (forallb_forall _ _) Hall) in Hget. lia.
Qed.

Lemma extractCenturyYear_range (text : jsstring) (y : Z) :
  extractCenturyYear text = Some y -> y <= -50 \/ 50 <= y.
Proof.
  unfold extractCenturyYear.
  destruct (exec re_bc_roman text) as [f1|];
    [destruct (roman_value (group1 f1)) as [n1|] eqn:H1;
     [apply roman_value_range in H1; intros [= <-]; lia |] |];
  (destruct (exec re_roman_century text) as [f2|];
   [destruct (roman_value (group1 f2)) as [n2|] eqn:H2;
    [apply roman_value_range in H2; intros [= <-]; lia |] |];
   (destruct (exec re_num_century text) as [f3|]; [| discriminate];
    destruct (_ && _) eqn:Hn; [| discriminate];
    intros [= <-]; lia)).
Qed.

(** What does hold of [extractYear]: a result is at most -50 or at least
    50, unless it comes from the explicit BCE pattern, whose results are
    the numbers up to zero. *)
Lemma extractYear_range (text : jsstring) (y : Z) :
  extractYear text = Some y ->
  (is_Some (exec re_bc text) /\ y <= 0) \/ y <= -50 \/ 50 <= y.
Proof.
  unfold extractYear.
  destruct (exec re_bc text) as [f|].
  - intros [= <-]. left. split; [eexists; reflexivity |].
    pose proof (parse_digits_nonneg (group1 f) 0). lia.
  - destruct (List.filter _ _) as [|y0 rest] eqn:Hyears.
    + intros Hc. right. apply extractCenturyYear_range in Hc. exact Hc.
    + intros [= <-]. right. right.
      assert (Hall : Forall (fun y => 100 <= y) (y0 :: rest)).
      { rewrite <- Hyears. apply List.Forall_forall. intros z Hz.
        apply filter_In in Hz as [_ Hz]. lia. }
      apply Forall_cons in Hall as [H0 Hrest].
      pose proof (minimum_ge 100 y0 rest H0 Hrest). lia.
Qed.

End DateFacts.

(** ** Points *)

Lemma round_div_half_mono (a b : Z) : a <= b -> round_div a 2 <= round_div b 2.
Proof. intros Hab. unfold round_div. apply Z.div_le_mono; lia. Qed.

(** C7. The points of a correct answer do not grow with the number of
    hints used, and are never below 10. *)
Theorem calculatePoints_monotone (wasQCM : bool) (h1 h2 hintsUsed : Z) :
  0 <= h1 -> h1 <= h2 -> 0 <= hintsUsed ->
  QuizResult.points (calculatePoints true h2 wasQCM)
    <= QuizResult.points (calculatePoints true h1 wasQCM)
  /\ 10 <= QuizResult.points (calculatePoints true hintsUsed wasQCM).
Proof.
  intros H0 H12 Hh. unfold calculatePoints. cbn [negb QuizResult.points].
  split; [| lia].
  destruct wasQCM.
  - pose proof (round_div_half_mono (100 - h2 * 30) (100 - h1 * 30)). lia.
  - lia.
Qed.

Lemma calculatePoints_monotone_witness :
  QuizResult.points (calculatePoints true 3 true)
    <= QuizResult.points (calculatePoints true 1 true)
  /\ 10 <= QuizResult.points (calculatePoints true 2 true).
Proof. apply (calculatePoints_monotone true 1 3 2); lia. Defined.

(** ** The discovery pass *)

Lemma firstn_In {A : Type} (n : nat) (l : list A) (x : A) :
  In x (firstn n l) -> In x l.
Proof.
  revert n. induction l as [|y l IH]; intros [|n]; simpl; try tauto.
  intros [Hx | Hx]; [left; exact Hx | right; exact (IH n Hx)].
Qed.

Section SortFacts.
Context {A : Type} (key : A -> Z).

(** In descending order of [key]. *)
Definition descending : list A -> Prop :=
  StronglySorted (fun a b => key b <= key a).

Lemma insert_sorted_perm (x : A) (l : list A) :
  Permutation (insert_sorted (fun a b => key b - key a) x l) (x :: l).
Proof.
  induction l as [|y l IH]; simpl; [reflexivity |].
  destruct (key y - key x <=? 0); [reflexivity |].
  rewrite IH. apply perm_swap.
Qed.

Lemma sort_perm (l : list A) :
  Permutation (sort (fun a b => key b - key a) l) l.
Proof.
  induction l as [|x l IH]; simpl; [reflexivity |].
  rewrite insert_sorted_perm. apply perm_skip, IH.
Qed.

Lemma insert_sorted_descending (x : A) (l : list A) :
  descending l ->
  descending (insert_sorted (fun a b => key b - key a) x l).
Proof.
  unfold descending.
  induction 1 as [|y l Hl IH Hy]; simpl.
  - repeat constructor.
  - destruct (key y - key x <=? 0) eqn:Hcmp.
    + apply Z.leb_le in Hcmp. constructor.
      * constructor; [exact Hl | exact Hy].
      * constructor; [lia |].
        eapply List.Forall_impl; [| exact Hy]. simpl. intros z Hz. lia.
    + apply Z.leb_gt in Hcmp. constructor; [exact IH |].
      eapply Permutation_Forall.
      * symmetry. apply insert_sorted_perm.
      * constructor; [lia | exact Hy].
Qed.

Lemma sort_descending (l : list A) :
  descending (sort (fun a b => key b - key a) l).
Proof.
  induction l as [|x l IH]; simpl.
  - constructor.
  - apply insert_sorted_descending, IH.
Qed.

Lemma firstn_descending (n : nat) (l : list A) :
  descending l -> descending (firstn n l).
Proof.
  unfold descending. intros Hl. revert n.
  induction Hl as [|x l Hl IH Hx]; intros [|n]; simpl; try constructor.
  - apply IH.
  - apply List.Forall_forall. intros y Hy.
    apply (proj1 (List.Forall_forall _ _) Hx), (firstn_In n), Hy.
Qed.

End SortFacts.

Section DiscoveryFacts.
Context `{Unicode}.
Variable float : Type.
Variables fadd fsub fmin : float -> float -> float.
Variables offsetDeg maxRadius : float.
Variable toFixed2 : float -> jsstring.
Variable geosearch :
  float -> float -> float -> Z -> list (GeoSearchResult.t float).
Variable keywordSearch :
  jsstring -> float -> float -> list (GeoSearchResult.t float).
Variable fetchExtracts : list Z -> gmap Z PageExtract.t.
Variable fetchLangCounts : list Z -> gmap Z Z.
Variable notoriety : Z -> Z -> Z.

Abbreviation fetch :=
  (fetchWikiEvents float fadd fsub fmin offsetDeg maxRadius toFixed2
     geosearch keywordSearch fetchExtracts fetchLangCounts notoriety).

(** C2. Whatever the point, the radius, the caches and the answers of
    the network, the events [fetchWikiEvents] returns are in descending
    order of score and at most 30. *)
Theorem fetchWikiEvents_ranked (lat lon radius : float)
  (c : Caches float) :
  descending WikiEvent.score (fetch lat lon radius c).1
  /\ (length (fetch lat lon radius c).1 <= 30)%nat.
Proof.
  unfold fetchWikiEvents.
  destruct (List.filter _ (buildGrid _ _ _ _ _ _)) as [|p ps];
    [split; [constructor | simpl; lia] |].
  destruct (fold_left (addUnique float _) _ []) as [|g gs];
    [split; [constructor | simpl; lia] |].
  destruct (fold_left (scoreCandidate _ _ _ _ _) _ _) as [cache' scored].
  cbn [fst]. split.
  - apply firstn_descending. apply (sort_descending WikiEvent.score).
  - apply firstn_le_length.
Qed.

Lemma trimExtract_length (extract : jsstring) (year : option Z) :
  (length (trimExtract extract year) <= 500)%nat.
Proof.
  unfold trimExtract, fromSentence, slice0.
  repeat match goal with
         | |- context [match ?x with _ => _ end] => destruct x
         end; apply firstn_le_length.
Qed.

Definition shortDescription (e : WikiEvent.t float) : Prop :=
  (length (WikiEvent.description e) <= 500)%nat.

Lemma scoreCandidate_descriptions extracts langCounts kwPageIds st g :
  Forall shortDescription st.2 ->
  Forall shortDescription
    (scoreCandidate float notoriety extracts langCounts kwPageIds st g).2.
Proof.
  destruct st as [cache scored]. unfold scoreCandidate. cbn [snd].
  intros Hall.
  destruct (rejected _); [exact Hall |].
  destruct (_ && _ && _); [exact Hall |].
  cbn [snd]. apply Forall_app. split; [exact Hall |].
  constructor; [| constructor].
  unfold shortDescription. cbn [WikiEvent.description].
  apply trimExtract_length.
Qed.

Lemma scored_descriptions extracts langCounts kwPageIds gs st :
  Forall shortDescription st.2 ->
  Forall shortDescription
    (fold_left (scoreCandidate float notoriety extracts langCounts kwPageIds)
               gs st).2.
Proof.
  revert st. induction gs as [|g gs IH]; intros st Hst; simpl.
  - exact Hst.
  - apply IH, scoreCandidate_descriptions, Hst.
Qed.

(** C9. [trimExtract] returns at most 500 code units, and so the
    description of every event [fetchWikiEvents] returns has at most
    500. *)
Theorem trimExtract_bounded :
  (forall (extract : jsstring) (year : option Z),
      (length (trimExtract extract year) <= 500)%nat)
  /\ (forall (lat lon radius : float) (c : Caches float),
         Forall (fun e => (length (WikiEvent.description e) <= 500)%nat)
                (fetch lat lon radius c).1).
Proof.
  split; [exact trimExtract_length |].
  intros lat lon radius c. unfold fetchWikiEvents.
  destruct (List.filter _ (buildGrid _ _ _ _ _ _)) as [|p ps];
    [constructor |].
  destruct (fold_left (addUnique float _) _ []) as [|g gs];
    [constructor |].
  match goal with
  | |- context [fold_left (scoreCandidate _ _ ?ex ?lc ?kw) ?l ?s] =>
    pose proof (scored_descriptions ex lc kw l s (List.Forall_nil _))
      as Hscored;
    destruct (fold_left (scoreCandidate float notoriety ex lc kw) l s)
      as [cache' scored]
  end.
  cbn [fst snd] in *.
  apply List.Forall_forall. intros e He.
  apply firstn_In in He.
  apply (Permutation_in _ (sort_perm WikiEvent.score scored)) in He.
  exact (proj1 (List.Forall_forall _ _) Hscored e He).
Qed.

End DiscoveryFacts.

(** ** The quiz question *)

Section QuizFacts.
Context `{Unicode}.
Variable float : Type.

Lemma swap_perm {A} (copy : list A) (i j : nat) : swap copy i j ≡ₚ copy.
Proof.
  unfold swap.
  destruct (copy !! i) as [x|] eqn:Hi; [| reflexivity].
  destruct (copy !! j) as [y|] eqn:Hj; [| reflexivity].
  apply Permutation_insert_swap; assumption.
Qed.

Lemma shuffleFrom_perm {A} (i : nat) (copy : list A) (draws : list nat) :
  (shuffleFrom i copy draws).1 ≡ₚ copy.
Proof.
  revert copy draws. induction i as [|i IH]; intros copy draws.
  - reflexivity.
  - cbn [shuffleFrom]. unfold Rand.bind.
    destruct (Rand.randomIndex (S i) draws) as [j draws'].
    rewrite IH. apply swap_perm.
Qed.

(** Whatever is drawn, [shuffle] returns a permutation of its argument. *)
Lemma shuffle_perm {A} (arr : list A) (draws : list nat) :
  (shuffle arr draws).1 ≡ₚ arr.
Proof. apply shuffleFrom_perm. Qed.

(** The invariant of the two loops of [generateDecoys]: the lowercased
    decoys are pairwise distinct and distinct from the lowercased correct
    title [cc], and [used] holds exactly these. *)
Definition DecoyInv (cc : jsstring) (decoys : list jsstring)
  (used : gset jsstring) : Prop :=
  NoDup (cc :: (toLowerCase <$> decoys))
  /\ forall x, x ∈ used <-> x ∈ cc :: (toLowerCase <$> decoys).

Lemma DecoyInv_init (cc : jsstring) : DecoyInv cc [] {[ cc ]}.
Proof.
  split.
  - apply NoDup_singleton.
  - intros x. cbn. rewrite elem_of_singleton, list_elem_of_singleton.
    reflexivity.
Qed.

Lemma DecoyInv_push (cc t : jsstring) (decoys : list jsstring)
  (used : gset jsstring) :
  DecoyInv cc decoys used ->
  toLowerCase t ∉ used ->
  DecoyInv cc (decoys ++ [t]) (used ∪ {[ toLowerCase t ]}).
Proof.
  intros [Hnd Hused] Hfresh. split.
  - rewrite fmap_app. cbn [fmap list_fmap].
    change (NoDup ((cc :: (toLowerCase <$> decoys)) ++ [toLowerCase t])).
    apply NoDup_app.
    split; [exact Hnd |]. split; [| apply NoDup_singleton].
    intros x Hx Hx'. apply list_elem_of_singleton in Hx'. subst x.
    apply Hfresh, Hused, Hx.
  - intros x. rewrite fmap_app. cbn [fmap list_fmap].
    rewrite elem_of_union, elem_of_singleton, Hused.
    rewrite !elem_of_cons, elem_of_app, list_elem_of_singleton. tauto.
Qed.

Lemma pickDecoys_inv (cc : jsstring) (count : nat) shuffled decoys used :
  DecoyInv cc decoys used ->
  DecoyInv cc (pickDecoys float count shuffled decoys used).1
              (pickDecoys float count shuffled decoys used).2.
Proof.
  revert decoys used.
  induction shuffled as [|e rest IH]; intros decoys used Hinv; cbn.
  - exact Hinv.
  - case_bool_decide as Hin; [apply IH, Hinv |].
    pose proof (DecoyInv_push cc _ _ _ Hinv Hin) as Hpush.
    destruct (_ <=? _)%nat; [exact Hpush | apply IH, Hpush].
Qed.

Lemma padDecoys_inv (cc : jsstring) (count : nat)
  (fallbacks decoys : list jsstring) (used : gset jsstring) :
  DecoyInv cc decoys used ->
  NoDup (cc :: (toLowerCase <$> padDecoys count fallbacks decoys used)).
Proof.
  revert decoys used.
  induction fallbacks as [|f rest IH]; intros decoys used Hinv; cbn.
  - apply Hinv.
  - destruct (_ <=? _)%nat; [apply Hinv |].
    case_bool_decide as Hin; [apply IH, Hinv |].
    apply IH, DecoyInv_push; assumption.
Qed.

(** The generic titles still free: those whose lowercase is not in
    [used]. *)
Fixpoint available (fallbacks : list jsstring) (used : gset jsstring) : nat :=
  match fallbacks with
  | [] => O
  | f :: rest =>
    ((if bool_decide (toLowerCase f ∈ used) then 0 else 1)
     + available rest used)%nat
  end.

Lemma available_fresh (x : jsstring) (fallbacks : list jsstring)
  (used : gset jsstring) :
  x ∉ (toLowerCase <$> fallbacks) ->
  available fallbacks (used ∪ {[ x ]}) = available fallbacks used.
Proof.
  induction fallbacks as [|f rest IH]; intros Hx; cbn; [reflexivity |].
  cbn in Hx. apply not_elem_of_cons in Hx as [Hne Hx].
  rewrite (IH Hx). f_equal.
  rewrite (bool_decide_ext (toLowerCase f ∈ used ∪ {[ x ]})
                           (toLowerCase f ∈ used)); [reflexivity |].
  rewrite elem_of_union, elem_of_singleton. split; [| tauto].
  intros [Hu | Heq]; [exact Hu | congruence].
Qed.

Lemma padDecoys_length (count : nat) (fallbacks decoys : list jsstring)
  (used : gset jsstring) :
  NoDup (toLowerCase <$> fallbacks) ->
  (count <= length decoys + available fallbacks used)%nat ->
  (count <= length (padDecoys count fallbacks decoys used))%nat.
Proof.
  revert decoys used.
  induction fallbacks as [|f rest IH]; intros decoys used Hnd Hlen; cbn in *.
  - lia.
  - apply NoDup_cons in Hnd as [Hf Hnd].
    destruct (count <=? length decoys)%nat eqn:Hc;
      [apply Nat.leb_le in Hc; exact Hc |].
    case_bool_decide as Hin.
    + apply IH; [exact Hnd | lia].
    + apply IH; [exact Hnd |].
      rewrite (available_fresh _ _ _ Hf), length_app. cbn. lia.
Qed.

(** A pigeonhole count: the generic titles that are not free have their
    lowercase in [ul], each a different one. *)
Lemma available_bound (fallbacks : list jsstring) (used : gset jsstring)
  (ul : list jsstring) :
  NoDup (toLowerCase <$> fallbacks) ->
  (forall x, x ∈ used -> x ∈ (toLowerCase <$> fallbacks) -> x ∈ ul) ->
  (length fallbacks <= available fallbacks used + length ul)%nat.
Proof.
  revert ul.
  induction fallbacks as [|f rest IH]; intros ul Hnd Hul; cbn in *; [lia |].
  apply NoDup_cons in Hnd as [Hf Hnd].
  case_bool_decide as Hin.
  - assert (Hful : toLowerCase f ∈ ul) by (apply Hul; [exact Hin | left]).
    pose proof (length_filter_lt (fun x => x <> toLowerCase f) ul
                  (toLowerCase f) Hful) as Hlt.
    specialize (IH (filter (fun x => x <> toLowerCase f) ul) Hnd).
    assert (Hcover : forall x, x ∈ used -> x ∈ (toLowerCase <$> rest) ->
                      x ∈ filter (fun x => x <> toLowerCase f) ul).
    { intros x Hx Hxr. apply list_elem_of_filter. split.
      - intros ->. exact (Hf Hxr).
      - apply Hul; [exact Hx | right; exact Hxr]. }
    specialize (IH Hcover). specialize (Hlt ltac:(tauto)). lia.
  - specialize (IH ul Hnd).
    assert (Hcover : forall x, x ∈ used -> x ∈ (toLowerCase <$> rest) ->
                      x ∈ ul).
    { intros x Hx Hxr. apply Hul; [exact Hx | right; exact Hxr]. }
    specialize (IH Hcover). lia.
Qed.

(** Three decoys, pairwise distinct and distinct from the correct title,
    whatever the pool and the draws. *)
Lemma generateDecoys_spec (event : WikiEvent.t float)
  (pool : list (WikiEvent.t float)) (draws : list nat) :
  NoDup (toLowerCase <$> genericFallbacks) ->
  let decoys := (generateDecoys float event pool 3 draws).1 in
  length decoys = 3%nat
  /\ NoDup (cleanTitle (WikiEvent.title event) :: decoys).
Proof.
  intros Hfb. unfold generateDecoys, Rand.bind.
  fold (cleanTitle (WikiEvent.title event)).
  set (ct := cleanTitle (WikiEvent.title event)).
  set (cc := toLowerCase ct).
  destruct (shuffle (List.filter _ pool) draws) as [same draws1].
  destruct (shuffle (List.filter _ pool) draws1) as [other draws2].
  pose proof (pickDecoys_inv cc 3 (same ++ other) [] {[ cc ]}
                (DecoyInv_init cc)) as Hpick.
  destruct (pickDecoys float 3 (same ++ other) [] {[ cc ]})
    as [picked used].
  cbn [fst snd Rand.ret] in *.
  pose proof (padDecoys_inv cc 3 genericFallbacks picked used Hpick) as Hpad.
  assert (Hlen : (3 <= length (padDecoys 3 genericFallbacks picked used))%nat).
  { apply padDecoys_length; [exact Hfb |].
    pose proof (available_bound genericFallbacks used
                  (cc :: (toLowerCase <$> picked)) Hfb) as Hb.
    destruct Hpick as [_ Hused].
    specialize (Hb ltac:(intros x Hx _; apply Hused, Hx)).
    change (length genericFallbacks) with 8%nat in Hb.
    cbn [length] in Hb. rewrite length_fmap in Hb. lia. }
  split.
  - apply firstn_length_le, Hlen.
  - apply (NoDup_fmap_1 toLowerCase).
    eapply sublist_NoDup; [exact Hpad |].
    rewrite fmap_cons, fmap_take. apply sublist_skip, sublist_take.
Qed.

(** C6. Whatever the event, the pool, the difficulty and the draws of the
    shuffles, the options of the question hold the cleaned title of the
    event exactly once, are four, and are pairwise distinct. The lowercase
    mapping has to keep the eight generic titles distinct, as the one of
    JavaScript does. *)
Theorem prepareQuizQuestion_options (event : WikiEvent.t float)
  (pool : list (WikiEvent.t float)) (difficulty : QuizQuestion.Difficulty)
  (draws : list nat) :
  NoDup (toLowerCase <$> genericFallbacks) ->
  let options :=
    QuizQuestion.options
      (prepareQuizQuestion float event pool difficulty draws).1 in
  count_occ (List.list_eq_dec Z.eq_dec) options
            (cleanTitle (WikiEvent.title event)) = 1%nat
  /\ length options = 4%nat
  /\ NoDup options.
Proof.
  intros Hfb. unfold prepareQuizQuestion, Rand.bind.
  pose proof (generateDecoys_spec event pool draws Hfb) as [Hlen Hnd].
  destruct (generateDecoys float event pool 3 draws) as [decoys draws1].
  cbn [fst] in Hlen, Hnd.
  pose proof (shuffle_perm (cleanTitle (WikiEvent.title event) :: decoys)
                draws1) as Hperm.
  destruct (shuffle _ draws1) as [options draws2].
  cbn [fst Rand.ret QuizQuestion.options] in *.
  split; [| split].
  - rewrite (proj1 (Permutation_count_occ _ _ _) Hperm).
    cbn [count_occ].
    destruct (List.list_eq_dec _ _ _) as [_ | Hne]; [| congruence].
    f_equal. apply count_occ_not_In.
    apply NoDup_cons in Hnd as [Hnotin _].
    intros Hin. apply Hnotin, list_elem_of_In, Hin.
  - rewrite (Permutation_length Hperm). cbn. rewrite Hlen. reflexivity.
  - rewrite Hperm. exact Hnd.
Qed.

End QuizFacts.

Lemma Latin1_genericFallbacks : NoDup (toLowerCase <$> genericFallbacks).
Proof. apply (bool_decide_unpack _). vm_compute. exact I. Qed.

(** ** Masking *)

Section MaskFacts.
Context `{Unicode}.

Lemma m_seq_cons {R} (r : re) (rs : list re) (k : mstate -> option R)
  (st : mstate) :
  m (seq (r :: rs)) k st = m r (m (seq rs) k) st.
Proof. destruct rs; reflexivity. Qed.

(** The literal [w] under the [i] flag reads a prefix of the text. *)
Fixpoint prefix_i (w s : jsstring) : bool :=
  match w, s with
  | [], _ => true
  | _ :: _, [] => false
  | a :: w', b :: s' => ci_eqb a b && prefix_i w' s'
  end.

Lemma prefix_i_length (w s : jsstring) :
  prefix_i w s = true -> (length w <= length s)%nat.
Proof.
  revert s. induction w as [|a w IH]; intros [|b s]; simpl; try lia;
    try discriminate.
  intros Hp. apply andb_prop in Hp as [_ Hp]. specialize (IH s Hp). lia.
Qed.

Lemma m_str_i {R} (w : jsstring) (k : mstate -> option R)
  (cp : option jsstring) (pre suf : list Z) :
  m (str_i w) k (MState cp pre suf)
  = if prefix_i w suf
    then k (MState cp (rev (firstn (length w) suf) ++ pre)
                   (skipn (length w) suf))
    else None.
Proof.
  unfold str_i. revert pre suf.
  induction w as [|a w IH]; intros pre suf.
  - reflexivity.
  - cbn [map]. rewrite m_seq_cons. unfold chr_i at 1. cbn [m after].
    destruct suf as [|c t]; [reflexivity |].
    cbn [prefix_i before cap]. destruct (ci_eqb a c); [| reflexivity].
    rewrite IH. cbn [andb length firstn skipn rev].
    rewrite <- app_assoc. reflexivity.
Qed.


(** *** Global replacement, position by position *)

(** A matcher gives the length of the match that starts at a position. *)
Definition matcher : Type := list Z -> list Z -> option nat.

(** The text after a global replacement: at a position where [M] matches
    the replacement is written and the match skipped, elsewhere the code
    unit is kept. [skip] counts what is left of the match being skipped. *)
Fixpoint gsub (M : matcher) (by_ : jsstring) (skip : nat)
  (pre suf : list Z) : jsstring :=
  match suf with
  | [] => []
  | c :: t =>
    match skip with
    | S k => gsub M by_ k (c :: pre) t
    | O =>
      match M pre suf with
      | Some n => by_ ++ gsub M by_ (n - 1) (c :: pre) t
      | None => c :: gsub M by_ 0 (c :: pre) t
      end
    end
  end.

(** [M] says where and how far the expression [r] matches. *)
Definition implements (r : re) (M : matcher) : Prop :=
  forall pre suf,
    match M pre suf with
    | Some n =>
      (1 <= n <= length suf)%nat
      /\ exists cp, exec_at r pre suf
                    = Some (Found pre (firstn n suf) cp (skipn n suf))
    | None => exec_at r pre suf = None
    end.

Lemma gsub_skip (M : matcher) (by_ : jsstring) (k : nat) (pre suf : list Z) :
  gsub M by_ k pre suf
  = gsub M by_ 0 (rev (firstn k suf) ++ pre) (skipn k suf).
Proof.
  revert pre suf. induction k as [|k IH]; intros pre suf.
  - reflexivity.
  - destruct suf as [|c t]; [reflexivity |].
    cbn [gsub firstn skipn rev]. rewrite IH, <- app_assoc. reflexivity.
Qed.

Lemma search_gsub (r : re) (M : matcher) (by_ : jsstring) :
  implements r M ->
  forall suf pre,
    match search r pre suf with
    | None => gsub M by_ 0 pre suf = suf
    | Some f =>
      exists k,
        f_pre f = rev (firstn k suf) ++ pre
        /\ (k <= length suf)%nat
        /\ f_text f <> []
        /\ (length (f_rest f) < length suf)%nat
        /\ gsub M by_ 0 pre suf
           = firstn k suf ++ by_
             ++ gsub M by_ 0 (rev (f_text f) ++ f_pre f) (f_rest f)
    end.
Proof.
  intros Himpl suf. induction suf as [|c t IH]; intros pre.
  - cbn [search]. specialize (Himpl pre []).
    destruct (M pre []) as [n|].
    + destruct Himpl as [Hn _]. cbn in Hn. lia.
    + rewrite Himpl. reflexivity.
  - cbn [search]. pose proof (Himpl pre (c :: t)) as Hm.
    cbn [gsub]. destruct (M pre (c :: t)) as [n|].
    + destruct Hm as [Hn [cp Hex]]. rewrite Hex. exists O.
      cbn [f_pre f_text f_rest firstn rev app length].
      destruct n as [|n]; [lia |]. cbn [firstn skipn length] in *.
      repeat split; try lia; try discriminate.
      * rewrite length_skipn. lia.
      * replace (S n - 1)%nat with n by lia.
        rewrite gsub_skip. cbn [rev]. rewrite <- app_assoc. reflexivity.
    + rewrite Hm. specialize (IH (c :: pre)).
      destruct (search r (c :: pre) t) as [f|].
      * destruct IH as (k & Hpre & Hk & Htext & Hrest & Hg).
        exists (S k). cbn [firstn rev length].
        rewrite <- app_assoc. cbn [app].
        repeat split; try assumption; try lia.
        rewrite Hg. reflexivity.
      * rewrite IH. reflexivity.
Qed.

(** The engine's global replacement is [gsub] for any matcher of the
    expression. *)
Lemma replace_all_from_gsub (r : re) (M : matcher) (by_ : jsstring) :
  implements r M ->
  forall fuel pre suf,
    (length suf < fuel)%nat ->
    replace_all_from fuel r by_ pre suf = gsub M by_ 0 pre suf.
Proof.
  intros Himpl fuel. induction fuel as [|fuel IH]; intros pre suf Hfuel;
    [lia |].
  cbn [replace_all_from].
  pose proof (search_gsub r M by_ Himpl suf pre) as Hs.
  destruct (search r pre suf) as [f|]; [| symmetry; exact Hs].
  destruct Hs as (k & Hpre & Hk & Htext & Hrest & Hg).
  rewrite Hg, Hpre, length_app, length_rev, length_firstn.
  replace (k `min` length suf + length pre - length pre)%nat with k by lia.
  destruct (f_text f) as [|x text] eqn:Ht; [congruence |].
  rewrite IH by lia. reflexivity.
Qed.

Lemma replace_all_gsub (r : re) (M : matcher) (by_ s : jsstring) :
  implements r M -> replace_all r by_ s = gsub M by_ 0 [] s.
Proof.
  intros Himpl. unfold replace_all.
  apply replace_all_from_gsub; [exact Himpl | lia].
Qed.


(** *** The two kinds of mask patterns *)

(** A literal under the [gi] flags, between two [\b] when [bounded]. *)
Record pat := Pat { bounded : bool; word : jsstring }.

Definition regex_of (P : pat) : re :=
  if bounded P then seq [WordB; str_i (word P); WordB] else str_i (word P).

Definition matches_at (P : pat) (pre suf : list Z) : bool :=
  let n := length (word P) in
  (negb (bounded P) || is_boundary pre suf)
  && prefix_i (word P) suf
  && (negb (bounded P)
      || is_boundary (rev (firstn n suf) ++ pre) (skipn n suf)).

Definition pat_matcher (P : pat) : matcher :=
  fun pre suf =>
    if matches_at P pre suf then Some (length (word P)) else None.

Lemma m_WordB {R} (k : mstate -> option R) (st : mstate) :
  m WordB k st = if is_boundary (before st) (after st) then k st else None.
Proof. reflexivity. Qed.

Lemma pat_implements (P : pat) :
  word P <> [] -> implements (regex_of P) (pat_matcher P).
Proof.
  intros Hne pre suf. unfold pat_matcher, matches_at, regex_of, exec_at.
  assert (Hlen : prefix_i (word P) suf = true ->
                 (1 <= length (word P) <= length suf)%nat).
  { intros Hp. apply prefix_i_length in Hp.
    destruct (word P); [congruence | cbn in *; lia]. }
  assert (Htext : prefix_i (word P) suf = true ->
                  (length suf - length (skipn (length (word P)) suf))%nat
                  = length (word P)).
  { intros Hp. specialize (Hlen Hp). rewrite length_skipn. lia. }
  destruct (bounded P); cbn [negb orb andb].
  - rewrite m_seq_cons, m_WordB. cbn [before after].
    destruct (is_boundary pre suf); cbn [andb]; [| reflexivity].
    rewrite m_seq_cons, m_str_i.
    destruct (prefix_i (word P) suf) eqn:Hp; cbn [andb]; [| reflexivity].
    cbn [seq]. rewrite m_WordB. cbn [before after cap].
    destruct (is_boundary _ _); [| reflexivity].
    split; [exact (Hlen eq_refl) |]. exists None.
    rewrite (Htext eq_refl). reflexivity.
  - rewrite m_str_i.
    destruct (prefix_i (word P) suf) eqn:Hp; cbn [andb]; [| reflexivity].
    split; [exact (Hlen eq_refl) |]. exists None.
    cbn [after cap]. rewrite (Htext eq_refl). reflexivity.
Qed.

(** The expression that deletes what is not a letter. *)
Definition chr_matcher (p : Z -> bool) : matcher :=
  fun _ suf =>
    match suf with
    | c :: _ => if p c then Some 1%nat else None
    | [] => None
    end.

Lemma chr_implements (p : Z -> bool) : implements (Chr p) (chr_matcher p).
Proof.
  intros pre [|c t]; cbn; [reflexivity |].
  destruct (p c); [| reflexivity].
  split; [lia |]. exists None.
  replace (S (length t) - length t)%nat with 1%nat by lia. reflexivity.
Qed.

Lemma gsub_chr_delete (p : Z -> bool) (pre suf : list Z) :
  Forall (fun c => p c = false) (gsub (chr_matcher p) [] 0 pre suf).
Proof.
  revert pre. induction suf as [|c t IH]; intros pre; cbn.
  - constructor.
  - destruct (p c) eqn:Hp; cbn.
    + apply IH.
    + constructor; [exact Hp | apply IH].
Qed.

(** *** Texts free of a pattern *)

(** No position of the text [suf], read after [pre], matches [P]. *)
Fixpoint free (P : pat) (pre suf : list Z) : Prop :=
  matches_at P pre suf = false
  /\ match suf with
     | [] => True
     | c :: t => free P (c :: pre) t
     end.

Lemma gsub_free_id (P : pat) (by_ : jsstring) (suf pre : list Z) :
  free P pre suf -> gsub (pat_matcher P) by_ 0 pre suf = suf.
Proof.
  revert pre. induction suf as [|c t IH]; intros pre [Hm Hfree];
    [reflexivity |].
  cbn [gsub]. unfold pat_matcher at 1. rewrite Hm. f_equal. apply IH, Hfree.
Qed.


(** The full block, the code unit of both masks. *)
Definition BLOCK : Z := 9608.

(** No code unit of [w] matches the full block under the [i] flag. *)
Definition mask_free (w : jsstring) : Prop :=
  Forall (fun c => ci_eqb c BLOCK = false) w.

Definition is_mask (by_ : jsstring) : Prop :=
  by_ <> [] /\ Forall (fun c => c = BLOCK) by_.

Lemma word_at_app (l pre : list Z) :
  l <> [] -> word_at (l ++ pre) = word_at l.
Proof. destruct l; [congruence | reflexivity]. Qed.

Lemma rev_nonempty {A} (l : list A) : l <> [] -> rev l <> [].
Proof.
  destruct l as [|x l]; [congruence |]. cbn. intros _ Hr.
  apply app_eq_nil in Hr as [_ Hr]. discriminate.
Qed.

Lemma prefix_i_firstn (w s : jsstring) :
  w <> [] -> prefix_i w s = true -> firstn (length w) s <> [].
Proof.
  destruct w as [|a w]; [congruence |].
  destruct s as [|b s]; cbn; [discriminate | discriminate].
Qed.

Lemma matches_at_nil (P : pat) (pre : list Z) :
  word P <> [] -> matches_at P pre [] = false.
Proof.
  intros Hne. unfold matches_at.
  destruct (word P); [congruence |]. cbn [prefix_i].
  rewrite andb_false_r. reflexivity.
Qed.

Lemma matches_at_prefix (P : pat) (pre suf : list Z) :
  matches_at P pre suf = true -> prefix_i (word P) suf = true.
Proof.
  unfold matches_at. intros Hm.
  apply andb_prop in Hm as [Hm _]. apply andb_prop in Hm as [_ Hm]. exact Hm.
Qed.

Lemma gsub_keep (A : pat) (by_ : jsstring) (pre : list Z) (c : Z)
  (t : list Z) :
  matches_at A pre (c :: t) = false ->
  gsub (pat_matcher A) by_ 0 pre (c :: t)
  = c :: gsub (pat_matcher A) by_ 0 (c :: pre) t.
Proof. intros Hm. cbn [gsub]. unfold pat_matcher at 1. rewrite Hm. reflexivity. Qed.

Lemma gsub_match (A : pat) (by_ : jsstring) (pre suf : list Z) :
  word A <> [] ->
  matches_at A pre suf = true ->
  gsub (pat_matcher A) by_ 0 pre suf
  = by_ ++ gsub (pat_matcher A) by_ 0
             (rev (firstn (length (word A)) suf) ++ pre)
             (skipn (length (word A)) suf).
Proof.
  intros Hne Hm. destruct suf as [|c t].
  - rewrite matches_at_nil in Hm by exact Hne. discriminate.
  - cbn [gsub]. unfold pat_matcher at 1. rewrite Hm. rewrite gsub_skip.
    destruct (word A) as [|a w]; [congruence |].
    cbn [length].
    replace (S (length w) - 1)%nat with (length w) by lia.
    cbn [firstn skipn rev]. rewrite <- app_assoc. reflexivity.
Qed.

(** Where the text after a replacement reads a word that has no full
    block, nothing was replaced. *)
Lemma gsub_prefix (A : pat) (by_ w : jsstring) :
  is_mask by_ -> mask_free w ->
  forall pre suf,
    let out := gsub (pat_matcher A) by_ 0 pre suf in
    prefix_i w out = true ->
    prefix_i w suf = true
    /\ (w <> [] -> matches_at A pre suf = false)
    /\ firstn (length w) out = firstn (length w) suf
    /\ skipn (length w) out
       = gsub (pat_matcher A) by_ 0 (rev (firstn (length w) suf) ++ pre)
              (skipn (length w) suf).
Proof.
  intros [Hbne Hby] Hw. induction Hw as [|b w Hb Hw IH]; intros pre suf out Hp.
  - repeat split; congruence.
  - subst out. destruct suf as [|c t]; [discriminate Hp |].
    destruct (matches_at A pre (c :: t)) eqn:Hm.
    + exfalso. cbn [gsub] in Hp. unfold pat_matcher at 1 in Hp.
      rewrite Hm in Hp. destruct by_ as [|x by']; [congruence |].
      apply Forall_cons in Hby as [-> _]. cbn [app prefix_i] in Hp.
      rewrite Hb in Hp. discriminate.
    + rewrite gsub_keep in * by exact Hm. cbn [prefix_i] in Hp.
      apply andb_prop in Hp as [Hbc Hp].
      destruct (IH (c :: pre) t Hp) as (H1 & _ & H3 & H4).
      cbn [prefix_i length firstn skipn rev]. rewrite Hbc, H1, H3, H4.
      rewrite <- app_assoc. repeat split; reflexivity.
Qed.

Lemma word_at_gsub (A : pat) (by_ : jsstring) (pre suf : list Z) :
  is_mask by_ -> word A <> [] ->
  let out := gsub (pat_matcher A) by_ 0 pre suf in
  word_at out = word_at suf
  \/ (word_at out = false /\ matches_at A pre suf = true).
Proof.
  intros [Hbne Hby] Hne out. subst out.
  destruct suf as [|c t]; [left; reflexivity |].
  destruct (matches_at A pre (c :: t)) eqn:Hm.
  - right. split; [| reflexivity]. rewrite gsub_match by assumption.
    destruct by_ as [|x by']; [congruence |].
    apply Forall_cons in Hby as [-> _]. reflexivity.
  - left. rewrite gsub_keep by exact Hm. reflexivity.
Qed.

(** Every position where [B] matches is a position where [A] matches. *)
Fixpoint covers (A B : pat) (pre suf : list Z) : Prop :=
  (matches_at B pre suf = true -> matches_at A pre suf = true)
  /\ match suf with
     | [] => True
     | c :: t => covers A B (c :: pre) t
     end.

Lemma covers_skipn (A B : pat) (n : nat) (pre suf : list Z) :
  covers A B pre suf ->
  covers A B (rev (firstn n suf) ++ pre) (skipn n suf).
Proof.
  revert pre suf. induction n as [|n IH]; intros pre suf Hc; [exact Hc |].
  destruct suf as [|c t]; [exact Hc |].
  cbn [firstn skipn rev]. rewrite <- app_assoc. apply IH, Hc.
Qed.

Lemma covers_refl (A : pat) (pre suf : list Z) : covers A A pre suf.
Proof.
  revert pre. induction suf as [|c t IH]; intros pre; cbn; auto.
Qed.

Lemma covers_free (A B : pat) (pre suf : list Z) :
  free B pre suf -> covers A B pre suf.
Proof.
  revert pre. induction suf as [|c t IH]; intros pre [Hm Hf]; cbn;
    (split; [rewrite Hm; discriminate | auto]).
Qed.

(** How the code unit written last relates to the one read last: the same
    class, or a mask written over a match that ended on a word boundary. *)
Definition ctx (B : pat) (pre opre suf : list Z) : Prop :=
  bounded B = false
  \/ word_at opre = word_at pre
  \/ (word_at opre = false /\ is_boundary pre suf = true).

(** A match of [B] in the text after the replacement of [A] is a match of
    [B] in the text before. *)
Lemma matches_transfer (A B : pat) (by_ : jsstring) (pre opre suf : list Z) :
  word A <> [] -> word B <> [] -> mask_free (word B) -> is_mask by_ ->
  bounded A = true \/ bounded B = false ->
  ctx B pre opre suf ->
  matches_at B opre (gsub (pat_matcher A) by_ 0 pre suf) = true ->
  matches_at B pre suf = true.
Proof.
  intros HA HB Hmf Hby Hbd Hctx Hm.
  pose proof (matches_at_prefix _ _ _ Hm) as Hp.
  destruct (gsub_prefix A by_ (word B) Hby Hmf pre suf Hp)
    as (Hps & Hno & Hfirst & Hskip).
  specialize (Hno HB).
  unfold matches_at in Hm |- *. rewrite Hps.
  destruct (bounded B) eqn:HbB; [| reflexivity].
  cbn [negb orb andb] in *. rewrite andb_true_r in *.
  apply andb_prop in Hm as [Hlead Htrail]. rewrite Hp, andb_true_r in Hlead.
  apply andb_true_intro. split.
  - destruct suf as [|c t];
      [destruct (word B); [congruence | discriminate Hps] |].
    rewrite gsub_keep in Hlead by exact Hno.
    destruct Hctx as [Hc | [Hc | [_ Hc]]]; [congruence | | exact Hc].
    unfold is_boundary in *. cbn [word_at] in *. rewrite <- Hc. exact Hlead.
  - rewrite Hfirst, Hskip in Htrail.
    pose proof (prefix_i_firstn _ _ HB Hps) as Hne.
    apply rev_nonempty in Hne.
    unfold is_boundary in *. rewrite word_at_app in * by exact Hne.
    destruct (word_at_gsub A by_
                (rev (firstn (length (word B)) suf) ++ pre)
                (skipn (length (word B)) suf) Hby HA) as [Heq | [Hf HmA]].
    + rewrite <- Heq. exact Htrail.
    + destruct Hbd as [HbA | HbA]; [| congruence].
      unfold matches_at in HmA. rewrite HbA in HmA. cbn [negb orb] in HmA.
      apply andb_prop in HmA as [HmA _]. apply andb_prop in HmA as [HmA _].
      unfold is_boundary in HmA. rewrite word_at_app in HmA by exact Hne.
      exact HmA.
Qed.


Lemma matches_at_block (B : pat) (opre rest : list Z) :
  word B <> [] -> mask_free (word B) ->
  matches_at B opre (BLOCK :: rest) = false.
Proof.
  intros HB Hmf. unfold matches_at.
  destruct (word B) as [|b w]; [congruence |].
  apply Forall_cons in Hmf as [Hb _]. cbn [prefix_i]. rewrite Hb.
  rewrite andb_false_r. reflexivity.
Qed.

Lemma free_mask_app (B : pat) (by_ rest : jsstring) (opre : list Z) :
  word B <> [] -> mask_free (word B) ->
  Forall (fun c => c = BLOCK) by_ ->
  free B (rev by_ ++ opre) rest ->
  free B opre (by_ ++ rest).
Proof.
  intros HB Hmf Hby. revert opre.
  induction Hby as [|x by_ -> Hby IH]; intros opre Hfree; [exact Hfree |].
  cbn [app free]. split; [apply matches_at_block; assumption |].
  apply IH. cbn [rev] in Hfree. rewrite <- app_assoc in Hfree. exact Hfree.
Qed.

Lemma word_at_mask (by_ : jsstring) (opre : list Z) :
  is_mask by_ -> word_at (rev by_ ++ opre) = false.
Proof.
  intros [Hne Hby]. rewrite word_at_app by (apply rev_nonempty, Hne).
  apply List.Forall_rev in Hby.
  destruct (rev by_) as [|x l]; [reflexivity |].
  apply Forall_cons in Hby as [-> _]. reflexivity.
Qed.

(** The text after the replacement of [A] is free of [B] when, in the text
    before, [B] matches only where [A] does. *)
Lemma gsub_free (A B : pat) (by_ : jsstring) :
  word A <> [] -> word B <> [] -> mask_free (word B) -> is_mask by_ ->
  bounded A = true \/ bounded B = false ->
  forall (len : nat) (suf pre opre : list Z),
    (length suf < len)%nat ->
    covers A B pre suf ->
    ctx B pre opre suf ->
    free B opre (gsub (pat_matcher A) by_ 0 pre suf).
Proof.
  intros HA HB Hmf Hby Hbd len.
  induction len as [|len IH]; intros suf pre opre Hlen Hcov Hctx; [lia |].
  destruct suf as [|c t].
  - cbn. split; [apply matches_at_nil, HB | exact I].
  - destruct (matches_at A pre (c :: t)) eqn:HmA.
    + rewrite gsub_match by assumption.
      apply free_mask_app; [exact HB | exact Hmf | apply Hby |].
      pose proof (prefix_i_length _ _ (matches_at_prefix _ _ _ HmA)) as Hn.
      apply IH.
      * rewrite length_skipn. destruct (word A); [congruence |].
        cbn [length] in *. lia.
      * apply covers_skipn, Hcov.
      * destruct (bounded B) eqn:HbB; [| left; exact HbB].
        right. right. split; [apply word_at_mask, Hby |].
        destruct Hbd as [HbA | HbA]; [| congruence].
        unfold matches_at in HmA. rewrite HbA in HmA.
        apply andb_prop in HmA as [_ HmA]. exact HmA.
    + rewrite gsub_keep by exact HmA. cbn [free]. split.
      * destruct (matches_at B opre (c :: gsub _ _ _ _ _)) eqn:HmB;
          [| reflexivity].
        rewrite <- (gsub_keep A by_ pre c t HmA) in HmB.
        apply (matches_transfer A B by_ pre opre (c :: t)) in HmB;
          try assumption.
        destruct Hcov as [Hcov _]. rewrite (Hcov HmB) in HmA. discriminate.
      * apply IH; [cbn [length] in Hlen; lia | apply Hcov |].
        right. left. reflexivity.
Qed.

(** After its own replacement a pattern matches nowhere. *)
Lemma free_after_self (P : pat) (by_ s : jsstring) :
  word P <> [] -> mask_free (word P) -> is_mask by_ ->
  free P [] (gsub (pat_matcher P) by_ 0 [] s).
Proof.
  intros HP Hmf Hby.
  apply (gsub_free P P by_ HP HP Hmf Hby) with (len := S (length s)).
  - destruct (bounded P); [left | right]; reflexivity.
  - lia.
  - apply covers_refl.
  - right. left. reflexivity.
Qed.

(** The replacement of a word between boundaries makes no match of
    another pattern. *)
Lemma free_preserved (A B : pat) (by_ s : jsstring) :
  word A <> [] -> word B <> [] -> mask_free (word B) -> is_mask by_ ->
  bounded A = true ->
  free B [] s ->
  free B [] (gsub (pat_matcher A) by_ 0 [] s).
Proof.
  intros HA HB Hmf Hby HbA Hfree.
  apply (gsub_free A B by_ HA HB Hmf Hby) with (len := S (length s)).
  - left. exact HbA.
  - lia.
  - apply covers_free, Hfree.
  - right. left. reflexivity.
Qed.


(** *** [maskDescription] *)

Lemma FULL_MASK_is_mask : is_mask FULL_MASK.
Proof. split; [discriminate | repeat constructor]. Qed.

Lemma WORD_MASK_is_mask : is_mask WORD_MASK.
Proof. split; [discriminate | repeat constructor]. Qed.

Definition maskWord (masked word : jsstring) : jsstring :=
  replace_all (wordRegex word) WORD_MASK masked.

Lemma maskWord_gsub (masked w : jsstring) :
  w <> [] ->
  maskWord masked w = gsub (pat_matcher (Pat true w)) WORD_MASK 0 [] masked.
Proof.
  intros Hw. unfold maskWord.
  apply (replace_all_gsub (regex_of (Pat true w))), pat_implements, Hw.
Qed.

Lemma maskTitle_gsub (masked t : jsstring) :
  t <> [] ->
  replace_all (fullTitleRegex t) FULL_MASK masked
  = gsub (pat_matcher (Pat false t)) FULL_MASK 0 [] masked.
Proof.
  intros Ht.
  apply (replace_all_gsub (regex_of (Pat false t))), pat_implements, Ht.
Qed.

Definition good (P : pat) : Prop := word P <> [] /\ mask_free (word P).

(** The loop over the significant words leaves a text where none of them
    matches, and none of the patterns that matched nowhere before. *)
Lemma maskWords_free (ws : list jsstring) (Ps : list pat) (s : jsstring) :
  Forall (fun w => good (Pat true w)) ws ->
  Forall (fun P => good P /\ free P [] s) Ps ->
  Forall (fun P => free P [] (fold_left maskWord ws s)) Ps
  /\ Forall (fun w => free (Pat true w) [] (fold_left maskWord ws s)) ws.
Proof.
  revert Ps s. induction ws as [|w ws IH]; intros Ps s Hws HPs.
  - split; [| constructor].
    eapply List.Forall_impl; [| exact HPs]. intros P [_ HP]. exact HP.
  - apply Forall_cons in Hws as [[Hw Hmf] Hws]. cbn [word] in Hw, Hmf.
    cbn [fold_left].
    destruct (IH (Pat true w :: Ps) (maskWord s w) Hws) as [HPs' Hws'].
    { rewrite maskWord_gsub by exact Hw. constructor.
      - split; [split; assumption |].
        apply free_after_self; [exact Hw | exact Hmf | exact WORD_MASK_is_mask].
      - eapply List.Forall_impl; [| exact HPs].
        intros P [[HP HPmf] HPfree]. split; [split; assumption |].
        apply free_preserved; try assumption;
          [exact WORD_MASK_is_mask | reflexivity]. }
    apply Forall_cons in HPs' as [Hw' HPs'].
    split; [exact HPs' | constructor; assumption].
Qed.

Lemma maskWords_id (ws : list jsstring) (s : jsstring) :
  Forall (fun w => w <> [] /\ free (Pat true w) [] s) ws ->
  fold_left maskWord ws s = s.
Proof.
  induction 1 as [|w ws [Hw Hfree] _ IH]; [reflexivity |].
  cbn [fold_left]. rewrite maskWord_gsub by exact Hw.
  rewrite gsub_free_id by exact Hfree. exact IH.
Qed.

Lemma letters_mask_free (w : jsstring) :
  (forall c, ci_eqb c BLOCK = true -> c = BLOCK) ->
  Forall (fun c => is_letter c = true) w -> mask_free w.
Proof.
  intros Hcanon Hw. eapply List.Forall_impl; [| exact Hw].
  intros c Hc. destruct (ci_eqb c BLOCK) eqn:Hci; [| reflexivity].
  apply Hcanon in Hci. subst c. discriminate Hc.
Qed.

(** The significant words are letters only, four at least. *)
Lemma extractSignificantWords_letters (title : jsstring) :
  Forall (fun w => w <> [] /\ Forall (fun c => is_letter c = true) w)
         (extractSignificantWords title).
Proof.
  unfold extractSignificantWords. apply List.Forall_forall. intros w Hw.
  apply filter_In in Hw as [Hw Hlen]. apply andb_prop in Hlen as [Hlen _].
  split.
  - apply Nat.leb_le in Hlen. destruct w; [cbn in Hlen; lia | discriminate].
  - apply in_map_iff in Hw as (part & <- & _).
    rewrite (replace_all_gsub _ _ _ _ (chr_implements _)).
    eapply List.Forall_impl; [| apply gsub_chr_delete].
    intros c Hc. apply negb_false_iff in Hc. exact Hc.
Qed.

(** C8, as amended. When the cleaned title has no full block, masking the
    masked description again changes nothing. The case mapping must not
    make any other code unit match the full block, as the one of
    JavaScript does not. *)
Theorem maskDescription_idempotent (description rawTitle : jsstring) :
  (forall c, Canonicalize c = Canonicalize 9608 -> c = 9608) ->
  ~ In 9608 (cleanTitle rawTitle) ->
  maskDescription (maskDescription description rawTitle) rawTitle
  = maskDescription description rawTitle.
Proof.
  intros Hcanon Hclean.
  assert (Hci : forall c, ci_eqb c BLOCK = true -> c = BLOCK).
  { intros c Hc. apply Hcanon, Z.eqb_eq, Hc. }
  unfold maskDescription.
  change (fun masked word => replace_all (wordRegex word) WORD_MASK masked)
    with maskWord.
  set (title := cleanTitle rawTitle) in *.
  set (ws := extractSignificantWords title).
  assert (Hws : Forall (fun w => good (Pat true w)) ws).
  { eapply List.Forall_impl; [| apply extractSignificantWords_letters].
    intros w [Hw Hl]. split; [exact Hw | apply letters_mask_free; assumption]. }
  destruct title as [|c t] eqn:Htitle.
  - destruct (maskWords_free ws [] description Hws (List.Forall_nil _))
      as [_ Hfree].
    apply maskWords_id.
    apply List.Forall_forall. intros w Hw. split.
    + exact (proj1 (proj1 (List.Forall_forall _ _) Hws w Hw)).
    + exact (proj1 (List.Forall_forall _ _) Hfree w Hw).
  - rewrite <- Htitle in *.
    assert (Hne : title <> []) by (rewrite Htitle; discriminate).
    assert (Hgood : good (Pat false title)).
    { split; [exact Hne |]. cbn [word]. apply List.Forall_forall.
      intros x Hx. destruct (ci_eqb x BLOCK) eqn:Hxb; [| reflexivity].
      apply Hci in Hxb. subst x. contradiction. }
    rewrite !maskTitle_gsub by exact Hne.
    set (s1 := gsub (pat_matcher (Pat false title)) FULL_MASK 0 []
                    description).
    destruct (maskWords_free ws [Pat false title] s1 Hws) as [Htitle' Hfree].
    { constructor; [| constructor]. split; [exact Hgood |].
      apply free_after_self;
        [exact Hne | apply Hgood | exact FULL_MASK_is_mask]. }
    apply Forall_cons in Htitle' as [Htitle' _].
    rewrite gsub_free_id by exact Htitle'.
    apply maskWords_id.
    apply List.Forall_forall. intros w Hw. split.
    + exact (proj1 (proj1 (List.Forall_forall _ _) Hws w Hw)).
    + exact (proj1 (List.Forall_forall _ _) Hfree w Hw).
Qed.

End MaskFacts.

Lemma Latin1_block (c : Z) : Canonicalize c = Canonicalize 9608 -> c = 9608.
Proof.
  change (Canonicalize 9608) with 9608.
  unfold Canonicalize. cbn [toUpperCase Latin1 Latin1Case.upper flat_map].
  unfold Latin1Case.upper_unit.
  repeat (match goal with
          | |- context [?a <=? ?b] => destruct (Z.leb_spec a b)
          | |- context [?a <? ?b] => destruct (Z.ltb_spec a b)
          | |- context [?a =? ?b] => destruct (Z.eqb_spec a b)
          end; cbn [andb negb orb app]; try lia).
Qed.

(** C6 at a pool with a title that differs from the correct one by case
    only, and a few draws. *)
Lemma prepareQuizQuestion_options_witness :
  let ev (i : Z) (t : jsstring) (c : WikiCategory) : WikiEvent.t unit := {|
    WikiEvent.id := i; WikiEvent.title := t; WikiEvent.description := [];
    WikiEvent.lat := tt; WikiEvent.lng := tt; WikiEvent.year := None;
    WikiEvent.category := c; WikiEvent.score := 0;
    WikiEvent.notorietyScore := 0; WikiEvent.isIncontournable := false |} in
  let event := ev 1 (lit "(1916) Bataille de Verdun") shock in
  let pool := [ev 2 (lit "Rafle du Vel d'Hiv") shock;
               ev 3 (lit "bataille de verdun") shock;
               ev 4 (lit "(XIIe) Cathédrale") civilization] in
  let options :=
    QuizQuestion.options
      (prepareQuizQuestion unit event pool QuizQuestion.easy
                           [1; 5; 2; 0; 1; 2; 3]%nat).1 in
  count_occ (List.list_eq_dec Z.eq_dec) options (lit "Bataille de Verdun")
  = 1%nat
  /\ length options = 4%nat
  /\ NoDup options.
Proof.
  intros ev event pool.
  apply (prepareQuizQuestion_options unit event pool QuizQuestion.easy
           [1; 5; 2; 0; 1; 2; 3]%nat).
  apply (bool_decide_unpack _). vm_compute. exact I.
Defined.

(** C8 as stated fails: a title of three full blocks is masked by six, in
    which the title then matches twice. *)
Lemma maskDescription_counterexample :
  let title := lit "███" in
  let description := lit "███" in
  maskDescription description title = lit "██████"
  /\ maskDescription (maskDescription description title) title
     = lit "████████████"
  /\ maskDescription (maskDescription description title) title
     <> maskDescription description title.
Proof. vm_compute. repeat split. discriminate. Qed.

Lemma maskDescription_idempotent_witness :
  let title := lit "(1942) Rafle du Vel d'Hiv" in
  let description := lit "La rafle du Vel d'Hiv, Rafle de juillet 1942." in
  maskDescription (maskDescription description title) title
  = maskDescription description title.
Proof.
  intros title description.
  apply (maskDescription_idempotent description title).
  - exact Latin1_block.
  - rewrite <- list_elem_of_In. apply (bool_decide_unpack _).
    vm_compute. exact I.
Defined.

(** * Further properties *)

(** ** Trimming *)

Lemma trimStart_head (s : jsstring) :
  match trimStart s with
  | [] => True
  | c :: _ => is_space c = false
  end.
Proof.
  induction s as [|c t IH]; cbn [trimStart]; [exact I |].
  destruct (is_space c) eqn:Hc; [exact IH | exact Hc].
Qed.

Lemma trimStart_suffix (s : jsstring) : exists a, s = a ++ trimStart s.
Proof.
  induction s as [|c t [a IH]]; cbn [trimStart]; [exists []; reflexivity |].
  destruct (is_space c).
  - exists (c :: a). cbn. f_equal. exact IH.
  - exists []. reflexivity.
Qed.

Lemma trimStart_fixed (c : Z) (t : jsstring) :
  is_space c = false -> trimStart (c :: t) = c :: t.
Proof. intros Hc. cbn [trimStart]. rewrite Hc. reflexivity. Qed.

Lemma trimStart_idem (s : jsstring) : trimStart (trimStart s) = trimStart s.
Proof.
  pose proof (trimStart_head s) as Hh.
  destruct (trimStart s) as [|c t]; [reflexivity |].
  apply trimStart_fixed, Hh.
Qed.

Lemma trimStart_snoc (l : jsstring) (c : Z) :
  is_space c = false -> exists l', trimStart (l ++ [c]) = l' ++ [c].
Proof.
  intros Hc. induction l as [|x l [l' IH]]; cbn [app trimStart].
  - rewrite Hc. exists []. reflexivity.
  - destruct (is_space x); [exists l'; exact IH |].
    exists (x :: l). reflexivity.
Qed.

Lemma trimEnd_head (c : Z) (t : jsstring) :
  is_space c = false -> exists t', trimEnd (c :: t) = c :: t'.
Proof.
  intros Hc. unfold trimEnd. cbn [rev].
  destruct (trimStart_snoc (rev t) c Hc) as [l' ->].
  exists (rev l'). rewrite rev_app_distr. reflexivity.
Qed.

Lemma trimEnd_prefix (s : jsstring) : exists b, s = trimEnd s ++ b.
Proof.
  unfold trimEnd. destruct (trimStart_suffix (rev s)) as [a Ha].
  exists (rev a). rewrite <- rev_app_distr, <- Ha. symmetry.
  apply rev_involutive.
Qed.

Lemma trimEnd_idem (s : jsstring) : trimEnd (trimEnd s) = trimEnd s.
Proof. unfold trimEnd. rewrite rev_involutive, trimStart_idem. reflexivity. Qed.

(** Trimming a trimmed string changes nothing. *)
Lemma trim_idem (s : jsstring) : trim (trim s) = trim s.
Proof.
  unfold trim. pose proof (trimStart_head s) as Hh.
  destruct (trimStart s) as [|c t].
  - reflexivity.
  - destruct (trimEnd_head c t Hh) as [t' Ht']. rewrite Ht'.
    rewrite (trimStart_fixed c t' Hh), <- Ht'. apply trimEnd_idem.
Qed.

Lemma trim_infix (s : jsstring) : exists a b, s = a ++ trim s ++ b.
Proof.
  unfold trim. destruct (trimStart_suffix s) as [a Ha].
  destruct (trimEnd_prefix (trimStart s)) as [b Hb].
  exists a, b. rewrite <- Hb. exact Ha.
Qed.

Lemma cleanTitle_trimmed (title : jsstring) :
  trim (cleanTitle title) = cleanTitle title.
Proof. apply trim_idem. Qed.

(** ** More on the matcher *)

Section RepLoop.
Context {R : Type}.
Variable body : (mstate -> option R) -> mstate -> option R.
Variable k : mstate -> option R.

(** The loop of a quantifier, as in [m]. *)
Fixpoint rep_loop (fuel lo : nat) (hi : option nat) (st : mstate)
  : option R :=
  match fuel with
  | O => None
  | S fuel' =>
    match lo with
    | S lo' => body (rep_loop fuel' lo' (hi_pred hi)) st
    | O =>
      if hi_zero hi then k st
      else
        match body (fun st' =>
                if (length (after st') <? length (after st))%nat
                then rep_loop fuel' O (hi_pred hi) st'
                else None) st with
        | Some x => Some x
        | None => k st
        end
    end
  end.

End RepLoop.

Lemma m_Rep {R} (lo : nat) (hi : option nat) (r : re)
  (k : mstate -> option R) (st : mstate) :
  m (Rep lo hi r) k st
  = rep_loop (m r) k (S (lo + length (after st))) lo hi st.
Proof. reflexivity. Qed.

(** [st'] is [st] after reading [w]. *)
Definition reads (w : list Z) (st st' : mstate) : Prop :=
  after st = w ++ after st' /\ before st' = rev w ++ before st.

Lemma reads_nil (st : mstate) : reads [] st st.
Proof. split; reflexivity. Qed.

Lemma reads_app (w1 w2 : list Z) (st1 st2 st3 : mstate) :
  reads w1 st1 st2 -> reads w2 st2 st3 -> reads (w1 ++ w2) st1 st3.
Proof.
  intros [Ha1 Hb1] [Ha2 Hb2]. split.
  - rewrite Ha1, Ha2, app_assoc. reflexivity.
  - rewrite Hb2, Hb1, rev_app_distr, app_assoc. reflexivity.
Qed.

Fixpoint groupless (r : re) : bool :=
  match r with
  | Seq a b | Alt a b => groupless a && groupless b
  | Rep _ _ r' => groupless r'
  | Group _ => false
  | _ => true
  end.

(** A match reads a piece of the text and goes on with what follows it;
    an expression without group leaves the capture as it is. *)
Lemma m_sound {R} (r : re) (k : mstate -> option R) (st : mstate) (x : R) :
  m r k st = Some x ->
  exists w st',
    reads w st st' /\ k st' = Some x
    /\ (groupless r = true -> cap st' = cap st).
Proof.
  revert k st. induction r as [|p|a IHa b IHb|a IHa b IHb|lo hi r IH|r IH| | |p];
    intros k st Hm.
  - exists [], st. split; [apply reads_nil |]. split; [exact Hm | reflexivity].
  - cbn [m] in Hm. destruct st as [cp pre suf]. cbn [after before cap] in *.
    destruct suf as [|c t]; [discriminate |].
    destruct (p c); [| discriminate].
    exists [c], (MState cp (c :: pre) t).
    split; [split; reflexivity |]. split; [exact Hm | reflexivity].
  - cbn [m] in Hm. apply IHa in Hm as (w1 & st1 & Hr1 & Hm & Hc1).
    apply IHb in Hm as (w2 & st2 & Hr2 & Hm & Hc2).
    exists (w1 ++ w2), st2. split; [exact (reads_app _ _ _ _ _ Hr1 Hr2) |].
    split; [exact Hm |]. cbn [groupless]. intros Hg.
    apply andb_prop in Hg as [Hga Hgb]. rewrite (Hc2 Hgb). exact (Hc1 Hga).
  - cbn [m] in Hm. cbn [groupless].
    destruct (m a k st) as [y|] eqn:Ha.
    + rewrite <- Hm in *. apply IHa in Ha as (w & st' & Hr & Hk & Hc).
      exists w, st'. split; [exact Hr |]. split; [exact Hk |].
      intros Hg. apply andb_prop in Hg as [Hg _]. exact (Hc Hg).
    + apply IHb in Hm as (w & st' & Hr & Hk & Hc).
      exists w, st'. split; [exact Hr |]. split; [exact Hk |].
      intros Hg. apply andb_prop in Hg as [_ Hg]. exact (Hc Hg).
  - rewrite m_Rep in Hm. cbn [groupless]. revert Hm.
    generalize (S (lo + length (after st))). intros fuel.
    revert lo hi st. induction fuel as [|fuel IHf]; intros lo hi st Hm;
      [discriminate |].
    cbn [rep_loop] in Hm. destruct lo as [|lo].
    + destruct (hi_zero hi).
      * exists [], st. split; [apply reads_nil |]. split; [exact Hm | reflexivity].
      * destruct (m r _ st) as [y|] eqn:Hbody.
        -- rewrite <- Hm in *. apply IH in Hbody as (w1 & st1 & Hr1 & Hk & Hc1).
           destruct (_ <? _)%nat; [| discriminate].
           apply IHf in Hk as (w2 & st2 & Hr2 & Hk & Hc2).
           exists (w1 ++ w2), st2.
           split; [exact (reads_app _ _ _ _ _ Hr1 Hr2) |].
           split; [exact Hk |]. intros Hg. rewrite (Hc2 Hg). exact (Hc1 Hg).
        -- exists [], st. split; [apply reads_nil |].
           split; [exact Hm | reflexivity].
    + apply IH in Hm as (w1 & st1 & Hr1 & Hk & Hc1).
      apply IHf in Hk as (w2 & st2 & Hr2 & Hk & Hc2).
      exists (w1 ++ w2), st2.
      split; [exact (reads_app _ _ _ _ _ Hr1 Hr2) |].
      split; [exact Hk |]. intros Hg. rewrite (Hc2 Hg). exact (Hc1 Hg).
  - cbn [m] in Hm. apply IH in Hm as (w & st' & Hr & Hk & _).
    exists w, (MState (Some (firstn (length (after st) - length (after st'))
                                    (after st))) (before st') (after st')).
    split; [exact Hr |]. split; [exact Hk | discriminate].
  - cbn [m] in Hm. destruct (before st); [| discriminate].
    exists [], st. split; [apply reads_nil |]. split; [exact Hm | reflexivity].
  - cbn [m] in Hm. destruct (is_boundary _ _); [| discriminate].
    exists [], st. split; [apply reads_nil |]. split; [exact Hm | reflexivity].
  - cbn [m] in Hm. destruct (before st) as [|c pre]; [discriminate |].
    destruct (p c); [| discriminate].
    exists [], st. split; [apply reads_nil |]. split; [exact Hm | reflexivity].
Qed.

Lemma firstn_read (w rest : list Z) :
  firstn (length (w ++ rest) - length rest) (w ++ rest) = w.
Proof.
  rewrite length_app. replace (length w + length rest - length rest)%nat
    with (length w + 0)%nat by lia.
  rewrite firstn_app_2. cbn. apply app_nil_r.
Qed.

(** A match at a position is the text that follows the position, cut in
    two. *)
Lemma exec_at_sound (r : re) (pre suf : list Z) (f : found) :
  exec_at r pre suf = Some f ->
  f_pre f = pre /\ suf = f_text f ++ f_rest f.
Proof.
  unfold exec_at. intros Hm.
  apply m_sound in Hm as (w & st' & [Ha _] & Hk & _).
  cbn [after] in Ha. injection Hk as <-. cbn [f_pre f_text f_rest].
  split; [reflexivity |]. subst suf. rewrite firstn_read. reflexivity.
Qed.

Lemma search_sound (r : re) (suf pre : list Z) (f : found) :
  search r pre suf = Some f ->
  exists a, f_pre f = rev a ++ pre /\ suf = a ++ f_text f ++ f_rest f
            /\ exec_at r (f_pre f) (f_text f ++ f_rest f) = Some f.
Proof.
  revert pre. induction suf as [|c t IH]; intros pre; cbn [search];
    destruct (exec_at r pre _) as [g|] eqn:Hex; try discriminate.
  - intros [= <-]. destruct (exec_at_sound _ _ _ _ Hex) as [Hp Hs].
    exists []. rewrite Hp, <- Hs. repeat split. exact Hex.
  - intros [= <-]. destruct (exec_at_sound _ _ _ _ Hex) as [Hp Hs].
    exists []. rewrite Hp, <- Hs. repeat split. exact Hex.
  - intros Hs. apply IH in Hs as (a & Hp & Hs & Hex').
    exists (c :: a). cbn [rev app]. rewrite <- app_assoc.
    repeat split; [exact Hp | f_equal; exact Hs | exact Hex'].
Qed.

(** A bounded quantifier over one class reads at most its bound. *)
Lemma rep_loop_chr_bound {R} (p : Z -> bool) (k : mstate -> option R)
  (fuel : nat) :
  forall (lo h : nat) (st : mstate) (x : R),
    (lo <= h)%nat ->
    rep_loop (m (Chr p)) k fuel lo (Some h) st = Some x ->
    exists w st',
      reads w st st' /\ (length w <= h)%nat /\ cap st' = cap st
      /\ k st' = Some x.
Proof.
  induction fuel as [|fuel IH]; intros lo h st x Hlo Hm; [discriminate |].
  assert (Hstop : k st = Some x ->
                  exists w st',
                    reads w st st' /\ (length w <= h)%nat
                    /\ cap st' = cap st /\ k st' = Some x).
  { intros Hk. exists [], st. split; [apply reads_nil |].
    split; [cbn; lia |]. split; [reflexivity | exact Hk]. }
  assert (Hstep : forall c t lo',
             after st = c :: t -> (lo' <= Nat.pred h)%nat -> (1 <= h)%nat ->
             rep_loop (m (Chr p)) k fuel lo' (Some (Nat.pred h))
                      (MState (cap st) (c :: before st) t) = Some x ->
             exists w st',
               reads w st st' /\ (length w <= h)%nat
               /\ cap st' = cap st /\ k st' = Some x).
  { intros c t lo' Hafter Hlo' Hh Hloop.
    apply IH in Hloop as (w & st' & [Ha Hb] & Hlen & Hcap & Hk);
      [| exact Hlo'].
    cbn [after before cap] in *.
    exists (c :: w), st'. split; [split |].
    - rewrite Hafter, Ha. reflexivity.
    - rewrite Hb. cbn [rev]. rewrite <- app_assoc. reflexivity.
    - split; [cbn [length]; lia |]. split; [exact Hcap | exact Hk]. }
  cbn [rep_loop hi_pred] in Hm. destruct lo as [|lo].
  - destruct h as [|h]; cbn [hi_zero] in Hm; [exact (Hstop Hm) |].
    cbn [m] in Hm. destruct (after st) as [|c t] eqn:Hafter;
      [exact (Hstop Hm) |].
    destruct (p c); [| exact (Hstop Hm)].
    cbn [after] in Hm.
    destruct (length t <? length (c :: t))%nat; [| exact (Hstop Hm)].
    destruct (rep_loop _ _ _ _ _ _) as [y|] eqn:Hloop; [| exact (Hstop Hm)].
    rewrite <- Hm in *.
    apply (Hstep c t O eq_refl); [lia | lia | exact Hloop].
  - cbn [m] in Hm. destruct (after st) as [|c t] eqn:Hafter; [discriminate |].
    destruct (p c); [| discriminate].
    apply (Hstep c t lo eq_refl); [lia | lia | exact Hm].
Qed.

Lemma parse_digits_bound (s : jsstring) (acc : Z) :
  0 <= acc -> parse_digits acc s < (acc + 1) * 10 ^ Z.of_nat (length s).
Proof.
  revert acc. induction s as [|c s IH]; intros acc Hacc.
  - cbn. lia.
  - cbn [parse_digits length]. rewrite Nat2Z.inj_succ, Z.pow_succ_r by lia.
    assert (Hpow : 0 < 10 ^ Z.of_nat (length s))
      by (apply Z.pow_pos_nonneg; lia).
    destruct (is_digit c) eqn:Hd; [| nia].
    unfold is_digit in Hd. apply andb_prop in Hd as [Hlo Hhi].
    apply Z.leb_le in Hlo, Hhi.
    specialize (IH (10 * acc + (c - 48)) ltac:(lia)). nia.
Qed.

Lemma parse_digits_short (g : jsstring) :
  (length g <= 4)%nat -> parse_digits 0 g <= 9999.
Proof.
  intros Hlen. pose proof (parse_digits_bound g 0 ltac:(lia)) as Hb.
  assert (Hpow : 10 ^ Z.of_nat (length g) <= 10 ^ 4)
    by (apply Z.pow_le_mono_r; lia).
  change (10 ^ 4) with 10000 in Hpow. lia.
Qed.

(** An expression that starts with [^] matches at the start only. *)
Lemma search_bol (r : re) (suf pre : list Z) :
  pre <> [] -> search (Seq Bol r) pre suf = None.
Proof.
  revert pre. induction suf as [|c t IH]; intros [|x pre] Hpre;
    try congruence; cbn [search]; unfold exec_at at 1; cbn [m before];
    [reflexivity |].
  apply IH. discriminate.
Qed.

Lemma replace_bol (r : re) (s : jsstring) :
  replace (Seq Bol r) [] s
  = match exec_at (Seq Bol r) [] s with
    | Some f => f_rest f
    | None => s
    end.
Proof.
  unfold replace, exec. destruct s as [|c t]; cbn [search].
  - destruct (exec_at (Seq Bol r) [] []) as [f|] eqn:Hex; [| reflexivity].
    apply exec_at_sound in Hex as [-> _]. reflexivity.
  - destruct (exec_at (Seq Bol r) [] (c :: t)) as [f|] eqn:Hex.
    + apply exec_at_sound in Hex as [-> _]. reflexivity.
    + rewrite search_bol by discriminate. reflexivity.
Qed.

Lemma replace_bol_suffix (r : re) (s : jsstring) :
  exists a, s = a ++ replace (Seq Bol r) [] s.
Proof.
  rewrite replace_bol.
  destruct (exec_at (Seq Bol r) [] s) as [f|] eqn:Hex.
  - apply exec_at_sound in Hex as [_ Hs]. exists (f_text f). exact Hs.
  - exists []. reflexivity.
Qed.

(** A global replacement by nothing and a split give parts of the text,
    in its order. *)
Lemma replace_all_from_sublist (r : re) (fuel : nat) (suf pre : list Z) :
  replace_all_from fuel r [] pre suf `sublist_of` suf.
Proof.
  revert suf pre. induction fuel as [|fuel IH]; intros suf pre;
    cbn [replace_all_from]; [reflexivity |].
  destruct (search r pre suf) as [f|] eqn:Hs; [| reflexivity].
  apply search_sound in Hs as (a & Hpre & Hsuf & _).
  rewrite Hpre, length_app, length_rev.
  replace (length a + length pre - length pre)%nat with (length a) by lia.
  subst suf. rewrite firstn_app, Nat.sub_diag, firstn_all.
  cbn [firstn app]. rewrite app_nil_r.
  apply sublist_app; [reflexivity |].
  destruct (f_text f) as [|x text].
  - cbn [app]. destruct (f_rest f) as [|c t]; [reflexivity |].
    apply sublist_skip, IH.
  - apply sublist_inserts_l, IH.
Qed.

Lemma replace_all_sublist (r : re) (s : jsstring) :
  replace_all r [] s `sublist_of` s.
Proof. apply replace_all_from_sublist. Qed.

Lemma split_from_sublist (r : re) (fuel : nat) (suf piece pre : list Z)
  (p : jsstring) :
  In p (split_from fuel r piece pre suf) ->
  p `sublist_of` rev piece ++ suf.
Proof.
  revert suf piece pre. induction fuel as [|fuel IH]; intros suf piece pre;
    cbn [split_from].
  - intros [<- | []]. reflexivity.
  - destruct suf as [|c t]; [intros [<- | []]; rewrite app_nil_r; reflexivity |].
    assert (Hnext : forall pc, In p (split_from fuel r (c :: pc) (c :: pre) t)
                               -> p `sublist_of` rev pc ++ c :: t).
    { intros pc Hp. apply IH in Hp. cbn [rev] in Hp.
      rewrite <- app_assoc in Hp. exact Hp. }
    destruct (exec_at r pre (c :: t)) as [f|] eqn:Hex; [| apply Hnext].
    apply exec_at_sound in Hex as [_ Hsuf].
    assert (Hcut : In p (rev piece
                           :: split_from fuel r [] (rev (f_text f) ++ pre)
                                         (f_rest f)) ->
                   p `sublist_of` rev piece ++ c :: t).
    { intros [<- | Hp]; [apply sublist_inserts_r; reflexivity |].
      apply IH in Hp. cbn [rev app] in Hp. rewrite Hsuf.
      apply sublist_inserts_l, sublist_inserts_l, Hp. }
    destruct piece as [|x piece]; [| exact Hcut].
    destruct (f_text f) as [|y text]; [| exact Hcut].
    intros Hp. apply (Hnext []) in Hp. exact Hp.
Qed.

Lemma split_sublist (r : re) (s p : jsstring) :
  In p (split r s) -> p `sublist_of` s.
Proof.
  unfold split. destruct s as [|c t].
  - destruct (exec_at r [] []); [intros [] | intros [<- | []]; reflexivity].
  - intros Hp. apply split_from_sublist in Hp. exact Hp.
Qed.

(** ** Dates and scoring *)

Section MoreScoringFacts.
Context `{Unicode}.

Lemma minimum_le (x : Z) (l : list Z) : minimum x l <= x.
Proof. destruct l; cbn; lia. Qed.

Lemma extractCenturyYear_upper (text : jsstring) (y : Z) :
  extractCenturyYear text = Some y -> y <= 2050.
Proof.
  unfold extractCenturyYear.
  destruct (exec re_bc_roman text) as [f1|];
    [destruct (roman_value (group1 f1)) as [n1|] eqn:H1;
     [apply roman_value_range in H1; intros [= <-]; lia |] |];
  (destruct (exec re_roman_century text) as [f2|];
   [destruct (roman_value (group1 f2)) as [n2|] eqn:H2;
    [apply roman_value_range in H2; intros [= <-]; lia |] |];
   (destruct (exec re_num_century text) as [f3|]; [| discriminate];
    destruct (_ && _) eqn:Hn; [| discriminate];
    apply andb_prop in Hn as [_ Hn]; apply Z.leb_le in Hn;
    intros [= <-]; lia)).
Qed.

Lemma m_Group {R} (r : re) (k : mstate -> option R) (st : mstate) :
  m (Group r) k st
  = m r (fun st' =>
           k (MState
                (Some (firstn (length (after st) - length (after st'))
                              (after st)))
                (before st') (after st'))) st.
Proof. reflexivity. Qed.

(** The group of the BCE pattern holds four code units at most. *)
Lemma exec_at_bc_cap (pre suf : list Z) (f : found) :
  exec_at re_bc pre suf = Some f -> (length (group1 f) <= 4)%nat.
Proof.
  unfold exec_at, re_bc. rewrite m_seq_cons, m_Group, m_Rep. unfold digit.
  intros Hm.
  apply rep_loop_chr_bound in Hm as (w & st' & [Ha _] & Hlen & _ & Hk);
    [| lia].
  apply m_sound in Hk as (w2 & st2 & _ & Hk & Hc).
  specialize (Hc ltac:(vm_compute; reflexivity)).
  injection Hk as <-. unfold group1. cbn [f_cap]. rewrite Hc. cbn [cap].
  rewrite length_firstn. cbn [after] in *. rewrite Ha, length_app. lia.
Qed.

Lemma extractCenturyYear_lower (text : jsstring) (y : Z) :
  extractCenturyYear text = Some y -> -2050 <= y.
Proof.
  unfold extractCenturyYear.
  destruct (exec re_bc_roman text) as [f1|];
    [destruct (roman_value (group1 f1)) as [n1|] eqn:H1;
     [apply roman_value_range in H1; intros [= <-]; lia |] |];
  (destruct (exec re_roman_century text) as [f2|];
   [destruct (roman_value (group1 f2)) as [n2|] eqn:H2;
    [apply roman_value_range in H2; intros [= <-]; lia |] |];
   (destruct (exec re_num_century text) as [f3|]; [| discriminate];
    destruct (_ && _) eqn:Hn; [| discriminate];
    apply andb_prop in Hn as [Hn _]; apply Z.leb_le in Hn;
    intros [= <-]; lia)).
Qed.

Lemma extractYear_interval (text : jsstring) (y : Z) :
  extractYear text = Some y ->
  -9999 <= y <= 2050 /\ (y <= 0 \/ 50 <= y).
Proof.
  intros Hy. split.
  - unfold extractYear in Hy.
    destruct (exec re_bc text) as [f|] eqn:Hex.
    + injection Hy as <-.
      pose proof (parse_digits_nonneg (group1 f) 0).
      apply search_sound in Hex as (_ & _ & _ & Hex).
      apply exec_at_bc_cap, parse_digits_short in Hex. lia.
    + destruct (List.filter _ _) as [|y0 rest] eqn:Hyears.
      * pose proof (extractCenturyYear_upper _ _ Hy).
        pose proof (extractCenturyYear_lower _ _ Hy). lia.
      * injection Hy as <-.
        assert (Hin : In y0 (y0 :: rest)) by (left; reflexivity).
        assert (Hall : Forall (fun y => 100 <= y) (y0 :: rest)).
        { rewrite <- Hyears. apply List.Forall_forall. intros z Hz.
          apply filter_In in Hz as [_ Hz]. lia. }
        rewrite <- Hyears in Hin. apply filter_In in Hin as [_ Hin].
        apply Forall_cons in Hall as [H0 Hrest].
        pose proof (minimum_ge 100 y0 rest H0 Hrest).
        pose proof (minimum_le y0 rest). lia.
  - destruct (extractYear_range text y Hy) as [[_ Hle] | [Hle | Hge]]; lia.
Qed.

(** X1. A year that [extractYear] returns is between -9999 and 2050 and
    never between 1 and 49. *)
Theorem extractYear_bounds (text : jsstring) (y : Z) :
  extractYear text = Some y ->
  -9999 <= y <= 2050 /\ (y <= 0 \/ 50 <= y).
Proof. apply extractYear_interval. Qed.

Lemma sort_head_greatest {A : Type} (key : A -> Z) (l : list A) :
  match sort (fun a b => key b - key a) l with
  | [] => l = []
  | top :: _ => In top l /\ forall e, In e l -> key e <= key top
  end.
Proof.
  pose proof (sort_perm key l) as Hperm.
  pose proof (sort_descending key l) as Hdesc.
  destruct (sort (fun a b => key b - key a) l) as [|top rest].
  - apply Permutation_nil in Hperm. exact Hperm.
  - apply StronglySorted_inv in Hdesc as [_ Hrest]. split.
    + apply (Permutation_in _ Hperm). left. reflexivity.
    + intros e He. apply (Permutation_in _ (Permutation_sym Hperm)) in He.
      destruct He as [<- | He]; [lia |].
      exact (proj1 (List.Forall_forall _ _) Hrest _ He).
Qed.

(** The weighted keyword count of a category in [classify]. *)
Definition categoryScore (full : jsstring) (c : WikiCategory) : Z :=
  match c with
  | shock => hits full SHOCK_KW * 25 + hits full SHOCK_VERBS * 20
  | civilization => hits full CIVILIZATION_KW * 12
  | struggle => hits full STRUGGLE_KW * 20
  | origins => hits full ORIGINS_KW * 5
  end.

(** X2. [classify] returns a category whose weighted count is the
    greatest of the four, with that count; a count of zero gives
    civilization. *)
Theorem classify_greatest (full : jsstring) :
  let c := (classify full).1 in
  let s := (classify full).2 in
  categoryScore full c = s
  /\ (forall c', categoryScore full c' <= s)
  /\ (s = 0 -> c = civilization).
Proof.
  intros c s. subst c s. unfold classify, categoryScore.
  pose proof (hits_nonneg full CIVILIZATION_KW) as Hciv. revert Hciv.
  generalize (hits full SHOCK_KW) (hits full SHOCK_VERBS)
    (hits full CIVILIZATION_KW) (hits full STRUGGLE_KW)
    (hits full ORIGINS_KW).
  intros sh sv ci st og Hciv.
  match goal with
  | |- context [sort ?f ?l] =>
    pose proof (sort_head_greatest cs_s l) as Hhead;
    destruct (sort f l) as [|top rest]; [discriminate Hhead |]
  end.
  destruct Hhead as [Hin Htop].
  set (weight := fun c' : WikiCategory =>
                   match c' with
                   | shock => sh * 25 + sv * 20
                   | civilization => ci * 12
                   | struggle => st * 20
                   | origins => og * 5
                   end).
  assert (Hself : weight (cs_cat top) = cs_s top).
  { destruct Hin as [Heq | [Heq | [Heq | [Heq | []]]]]; rewrite <- Heq;
      reflexivity. }
  assert (Hall : forall c', weight c' <= cs_s top).
  { intros c'. apply (Htop {| cs_cat := c'; cs_s := weight c' |}).
    destruct c'; cbn [In];
      [left | right; left | right; right; left | right; right; right; left];
      reflexivity. }
  change (weight (if cs_s top =? 0 then (civilization, 0)
                  else (cs_cat top, cs_s top)).1
          = (if cs_s top =? 0 then (civilization, 0)
             else (cs_cat top, cs_s top)).2
          /\ (forall c', weight c'
                         <= (if cs_s top =? 0 then (civilization, 0)
                             else (cs_cat top, cs_s top)).2)
          /\ ((if cs_s top =? 0 then (civilization, 0)
               else (cs_cat top, cs_s top)).2 = 0 ->
              (if cs_s top =? 0 then (civilization, 0)
               else (cs_cat top, cs_s top)).1 = civilization)).
  destruct (Z.eqb_spec (cs_s top) 0) as [Hz | Hnz]; cbn [fst snd].
  - split; [| split; [| reflexivity]].
    + specialize (Hall civilization). cbn [weight] in *. unfold weight in *.
      lia.
    + intros c'. specialize (Hall c'). lia.
  - split; [exact Hself | split; [exact Hall | congruence]].
Qed.

(** X3. A rejection of [computeScore] carries one of the scores 0, -100
    and -15, never a positive one. *)
Theorem computeScore_rejected_score (title extract : jsstring) (langs : Z) :
  rejected (computeScore title extract langs) = true ->
  In (score (computeScore title extract langs)) [0; -100; -15].
Proof.
  unfold computeScore.
  repeat match goal with
         | |- context [if ?b then _ else _] => destruct b
         | |- context [classify ?f] => destruct (classify f) as [c catScore]
         | |- context [List.find ?f ?l] => destruct (List.find f l)
         | |- context [afterTitleSteps ?a ?b ?c ?d ?e ?f] =>
           destruct (afterTitleSteps a b c d e f)
         end;
    cbn [rejected score In]; intros Hr; try discriminate Hr; tauto.
Qed.

(** X4. What [computeScore] keeps has a memorial keyword, a category
    keyword or a year that is not zero: a text with none of them is never
    kept. *)
Theorem computeScore_kept (title extract : jsstring) (langs : Z) :
  rejected (computeScore title extract langs) = false ->
  isMemorial (fullText title extract) = true
  \/ 0 < (classify (fullText title extract)).2
  \/ (exists y, extractYear extract = Some y /\ y <> 0).
Proof.
  unfold computeScore. intros Hr.
  destruct (isMemorial _); [left; reflexivity |]. right.
  destruct (_ && _ && _); [discriminate Hr |].
  destruct (_ && _ && _); [discriminate Hr |].
  destruct (classify _) as [c catScore]. cbn [snd].
  destruct (List.find _ _); [discriminate Hr |].
  unfold afterTitleSteps in Hr. cbv zeta in Hr.
  destruct (falsy (extractYear extract) && negb (0 <? catScore)) eqn:Hno;
    [discriminate Hr |].
  apply andb_false_iff in Hno as [Hy | Hk].
  - right. unfold falsy in Hy.
    destruct (extractYear extract) as [y|]; [| discriminate].
    exists y. split; [reflexivity |]. apply Z.eqb_neq, Hy.
  - left. apply negb_false_iff, Z.ltb_lt in Hk. exact Hk.
Qed.

Lemma countFrom_nonneg (w : jsstring) (tl : jsstring) (skip : nat) :
  0 <= countFrom w skip tl.
Proof.
  revert skip. induction tl as [|c t IH]; intros skip; cbn; [lia |].
  destruct skip; [| apply IH].
  destruct (prefixb w (c :: t)).
  - specialize (IH (length w - 1)%nat). lia.
  - apply IH.
Qed.

Lemma countFrom_includes (w tl : jsstring) :
  w <> [] -> (0 < countFrom w 0 tl <-> includes tl w = true).
Proof.
  intros Hw. induction tl as [|c t IH].
  - destruct w; [congruence |]. cbn. split; [lia | discriminate].
  - cbn [countFrom includes].
    destruct (prefixb w (c :: t)); cbn [orb].
    + pose proof (countFrom_nonneg w t (length w - 1)). split; [auto | lia].
    + exact IH.
Qed.

(** X5. For words that are not empty, [countOccurrences] counts something
    exactly when [includes] finds one of the words in the lowercased
    text. (On an empty word the loop of the source does not end.) *)
Theorem countOccurrences_includes (text : jsstring) (ws : list jsstring) :
  Forall (fun w => w <> []) ws ->
  (0 < countOccurrences text ws
   <-> some (fun w => includes (toLowerCase text) w) ws = true).
Proof.
  intros Hws. unfold countOccurrences, some.
  set (tl := toLowerCase text).
  assert (Hgen : forall acc, 0 <= acc ->
            (0 <= fold_left (fun count w => count + countFrom w 0 tl) ws acc)
            /\ (0 < fold_left (fun count w => count + countFrom w 0 tl) ws acc
                <-> 0 < acc \/ existsb (fun w => includes tl w) ws = true)).
  { induction Hws as [|w ws Hw Hws IH]; intros acc Hacc;
      cbn [fold_left existsb].
    - split; [exact Hacc |].
      split; [auto | intros [|]; [assumption | discriminate]].
    - pose proof (countFrom_nonneg w tl 0) as Hnn.
      pose proof (countFrom_includes w tl Hw) as Hiff.
      destruct (IH (acc + countFrom w 0 tl) ltac:(lia)) as [Hnn' Hpos].
      split; [exact Hnn' |]. rewrite Hpos, orb_true_iff, <- Hiff.
      split.
      + intros [Hs | He]; [| right; right; exact He].
        destruct (Z.lt_ge_cases 0 acc); [left; assumption | right; left; lia].
      + intros [Ha | [Hc | He]]; [left; lia | left; lia | right; exact He]. }
  destruct (Hgen 0 ltac:(lia)) as [_ Hpos]. rewrite Hpos.
  split; [intros [|]; [lia | assumption] | auto].
Qed.

End MoreScoringFacts.

(** ** The batches of the extract and language-link requests *)

(** The loop of [fetchExtracts] and of [fetchLangCounts] that cuts the
    page ids into batches:
    [for (let i = 0; i < pageids.length; i += 50)
       chunks.push(pageids.slice(i, i + 50))].
    [rest] is [pageids] from index [i] on; the loop makes at most
    [pageids.length] turns. *)
Fixpoint chunksFrom (fuel : nat) (rest : list Z) : list (list Z) :=
  match fuel with
  | O => []
  | S fuel' =>
    match rest with
    | [] => []
    | _ :: _ => firstn 50 rest :: chunksFrom fuel' (skipn 50 rest)
    end
  end.

Definition chunks (pageids : list Z) : list (list Z) :=
  chunksFrom (length pageids) pageids.

Lemma chunksFrom_spec (fuel : nat) (rest : list Z) :
  (length rest <= fuel)%nat ->
  concat (chunksFrom fuel rest) = rest
  /\ Forall (fun chunk => (1 <= length chunk <= 50)%nat) (chunksFrom fuel rest).
Proof.
  revert rest. induction fuel as [|fuel IH]; intros rest Hlen.
  - destruct rest; [split; [reflexivity | constructor] | cbn in Hlen; lia].
  - cbn [chunksFrom]. destruct rest as [|x rest'] eqn:Hrest;
      [split; [reflexivity | constructor] |].
    rewrite <- Hrest in *.
    assert (Hpos : (1 <= length rest)%nat) by (rewrite Hrest; cbn; lia).
    destruct (IH (skipn 50 rest)) as [Hcat Hall].
    { rewrite length_skipn. lia. }
    cbn [concat]. rewrite Hcat, firstn_skipn. split; [reflexivity |].
    constructor; [| exact Hall]. rewrite length_firstn. lia.
Qed.

(** X6. The batches hold the page ids in their order, none lost and none
    twice, and each batch has from 1 to 50 ids. *)
Theorem chunks_partition (pageids : list Z) :
  concat (chunks pageids) = pageids
  /\ Forall (fun chunk => (1 <= length chunk <= 50)%nat) (chunks pageids).
Proof. apply chunksFrom_spec. lia. Qed.

(** ** The caches of the discovery pass *)

Section MoreDiscoveryFacts.
Context `{Unicode}.
Variable float : Type.
Variables fadd fsub fmin : float -> float -> float.
Variables offsetDeg maxRadius : float.
Variable toFixed2 : float -> jsstring.
Variable geosearch :
  float -> float -> float -> Z -> list (GeoSearchResult.t float).
Variable keywordSearch :
  jsstring -> float -> float -> list (GeoSearchResult.t float).
Variable fetchExtracts : list Z -> gmap Z PageExtract.t.
Variable fetchLangCounts : list Z -> gmap Z Z.
Variable notoriety : Z -> Z -> Z.

Abbreviation fetch :=
  (fetchWikiEvents float fadd fsub fmin offsetDeg maxRadius toFixed2
     geosearch keywordSearch fetchExtracts fetchLangCounts notoriety).

Abbreviation key p := (gridKey float toFixed2 (fst p) (snd p)).

Abbreviation grid lat lon := (buildGrid float fadd fsub offsetDeg lat lon).

(** The cells of the grid that are not in the grid cache. *)
Definition newPoints (lat lon : float) (c : Caches float)
  : list (float * float) :=
  List.filter (fun p => negb (bool_decide (key p ∈ gridCache float c)))
              (grid lat lon).

Lemma gridCache_fold (ps : list (float * float)) (s : gset jsstring)
  (k : jsstring) :
  k ∈ fold_left (fun s p => s ∪ {[ key p ]}) ps s
  <-> k ∈ s \/ In k (map (fun p => key p) ps).
Proof.
  revert s. induction ps as [|p ps IH]; intros s; cbn [fold_left map In].
  - tauto.
  - rewrite IH, elem_of_union, elem_of_singleton. intuition congruence.
Qed.

(** The candidates of a pass, and the article cache and the events after
    the scoring loop. When no cell is new nothing is computed. *)
Definition candidates (lat lon radius : float) (c : Caches float)
  : list (GeoSearchResult.t float) :=
  let allGeoResults :=
    map (fun p => geosearch (fst p) (snd p) (fmin radius maxRadius)
                            SHADOW_LIMIT) (newPoints lat lon c) in
  let allKwResults :=
    map (fun kw => keywordSearch kw lat lon) KEYWORD_SEARCHES in
  fold_left (addUnique float (articleCache float c))
            (concat (allGeoResults ++ allKwResults)) [].

Definition keywordIds (lat lon : float) : gset Z :=
  fold_left (fun s g => s ∪ {[ GeoSearchResult.pageid g ]})
            (concat (map (fun kw => keywordSearch kw lat lon)
                         KEYWORD_SEARCHES)) ∅.

Definition scoredPass (lat lon radius : float) (c : Caches float)
  : gmap Z (option (WikiEvent.t float)) * list (WikiEvent.t float) :=
  let gs := candidates lat lon radius c in
  let pageids := map GeoSearchResult.pageid gs in
  fold_left (scoreCandidate float notoriety (fetchExtracts pageids)
               (fetchLangCounts pageids) (keywordIds lat lon))
            gs (articleCache float c, []).

(** [fetchWikiEvents], with its two early returns folded into the general
    case. *)
Lemma fetch_unfold (lat lon radius : float) (c : Caches float) :
  fetch lat lon radius c
  = match newPoints lat lon c with
    | [] => ([], c)
    | _ :: _ =>
      (firstn MAX_RESULTS
              (sort (byScoreDesc float) (scoredPass lat lon radius c).2),
       {| articleCache := (scoredPass lat lon radius c).1;
          gridCache := fold_left (fun s p => s ∪ {[ key p ]})
                                 (newPoints lat lon c)
                                 (gridCache float c) |})
    end.
Proof.
  unfold fetchWikiEvents, scoredPass, candidates, keywordIds.
  fold (newPoints lat lon c).
  destruct (newPoints lat lon c) as [|p ps] eqn:Hnew; [reflexivity |].
  rewrite <- Hnew.
  destruct (fold_left (addUnique float _) _ []) as [|g gs] eqn:Hgs.
  - reflexivity.
  - rewrite <- Hgs.
    destruct (fold_left (scoreCandidate _ _ _ _ _) _ _) as [cache' scored].
    reflexivity.
Qed.

(** X7. After a call the grid cache holds what it held and the cells of
    the grid of the call, and nothing else. *)
Theorem fetchWikiEvents_gridCache (lat lon radius : float)
  (c : Caches float) (k : jsstring) :
  k ∈ gridCache float (fetch lat lon radius c).2
  <-> k ∈ gridCache float c \/ In k (map (fun p => key p) (grid lat lon)).
Proof.
  rewrite fetch_unfold.
  assert (Hnew : forall p, In p (grid lat lon) ->
                   key p ∈ gridCache float c \/ In p (newPoints lat lon c)).
  { intros p Hp. destruct (decide (key p ∈ gridCache float c)) as [Hk | Hk];
      [left; exact Hk | right].
    apply filter_In. split; [exact Hp |].
    apply negb_true_iff, bool_decide_eq_false. exact Hk. }
  assert (Hsub : forall p, In p (newPoints lat lon c) -> In p (grid lat lon)).
  { intros p Hp. apply filter_In in Hp as [Hp _]. exact Hp. }
  destruct (newPoints lat lon c) as [|p0 ps] eqn:Hpts; cbn [snd gridCache].
  - split; [auto |]. intros [Hk | Hk]; [exact Hk |].
    apply in_map_iff in Hk as (p & <- & Hp).
    destruct (Hnew p Hp) as [Hin | []]. exact Hin.
  - rewrite gridCache_fold. split.
    + intros [Hk | Hk]; [left; exact Hk | right].
      apply in_map_iff in Hk as (p & <- & Hp).
      apply in_map_iff. exists p. split; [reflexivity | apply Hsub, Hp].
    + intros [Hk | Hk]; [left; exact Hk |].
      apply in_map_iff in Hk as (p & <- & Hp).
      destruct (Hnew p Hp) as [Hin | Hin]; [left; exact Hin | right].
      apply in_map_iff. exists p. split; [reflexivity | exact Hin].
Qed.

(** X8. A second call at the same point, whatever the radius, finds every
    cell of the grid in the cache: it returns no event and leaves the
    caches as they are. *)
Theorem fetchWikiEvents_again (lat lon radius radius' : float)
  (c : Caches float) :
  fetch lat lon radius' (fetch lat lon radius c).2
  = ([], (fetch lat lon radius c).2).
Proof.
  set (c' := (fetch lat lon radius c).2).
  rewrite (fetch_unfold lat lon radius' c').
  assert (Hnone : newPoints lat lon c' = []).
  { unfold newPoints.
    assert (Hall : forall p, In p (grid lat lon) ->
              negb (bool_decide (key p ∈ gridCache float c')) = false).
    { intros p Hp. apply negb_false_iff, bool_decide_eq_true.
      apply fetchWikiEvents_gridCache. right.
      apply in_map_iff. exists p. split; [reflexivity | exact Hp]. }
    induction (grid lat lon) as [|p ps IH]; [reflexivity |].
    cbn [List.filter]. rewrite (Hall p (or_introl eq_refl)).
    apply IH. intros q Hq. apply Hall. right. exact Hq. }
  rewrite Hnone. reflexivity.
Qed.

(** *** The scoring loop *)

Lemma addUnique_fold (cache : gmap Z (option (WikiEvent.t float)))
  (gs acc : list (GeoSearchResult.t float)) :
  NoDup (map GeoSearchResult.pageid acc) ->
  (forall u, In u acc -> cache !! GeoSearchResult.pageid u = None) ->
  NoDup (map GeoSearchResult.pageid (fold_left (addUnique float cache) gs acc))
  /\ (forall u, In u (fold_left (addUnique float cache) gs acc) ->
                cache !! GeoSearchResult.pageid u = None).
Proof.
  revert acc. induction gs as [|g gs IH]; intros acc Hnd Hnew;
    cbn [fold_left]; [split; assumption |].
  apply IH; unfold addUnique;
    destruct (existsb _ acc) eqn:Hex; cbn [orb]; try assumption;
    case_bool_decide as Hc; try assumption.
  - rewrite map_app. cbn [map].
    apply NoDup_app. split; [exact Hnd |].
    split; [| apply NoDup_singleton].
    intros k Hk Hk'. apply list_elem_of_singleton in Hk'. subst k.
    apply list_elem_of_In, in_map_iff in Hk as (u & Hu & Hin).
    assert (Htrue : existsb
              (fun u => GeoSearchResult.pageid u =? GeoSearchResult.pageid g)
              acc = true).
    { apply existsb_exists. exists u. split; [exact Hin |].
      apply Z.eqb_eq, Hu. }
    congruence.
  - intros u Hu. apply in_app_or in Hu as [Hu | [<- | []]];
      [apply Hnew, Hu |].
    destruct (cache !! GeoSearchResult.pageid g) eqn:Hl; [| reflexivity].
    exfalso. apply Hc. eexists. reflexivity.
Qed.

(** What one turn of the scoring loop does to the cache and to [scored]:
    a tombstone, or an event of the candidate's id. *)
Inductive turn (extracts : gmap Z PageExtract.t) (langCounts : gmap Z Z)
  (kwPageIds : gset Z) (g : GeoSearchResult.t float)
  (cache : gmap Z (option (WikiEvent.t float)))
  (scored : list (WikiEvent.t float))
  : gmap Z (option (WikiEvent.t float)) * list (WikiEvent.t float) -> Prop :=
| turn_dropped :
    turn extracts langCounts kwPageIds g cache scored
         (<[GeoSearchResult.pageid g := None]> cache, scored)
| turn_kept (e : WikiEvent.t float) :
    WikiEvent.id e = GeoSearchResult.pageid g ->
    WikiEvent.notorietyScore e
    = default 0 (langCounts !! GeoSearchResult.pageid g) ->
    WikiEvent.isIncontournable e
    = bool_decide (GeoSearchResult.pageid g ∈ kwPageIds) ->
    (WikiEvent.category e = origins ->
     15 <= WikiEvent.notorietyScore e
     \/ WikiEvent.isIncontournable e = true) ->
    (forall y, WikiEvent.year e = Some y ->
               -9999 <= y <= 2050 /\ (y <= 0 \/ 50 <= y)) ->
    turn extracts langCounts kwPageIds g cache scored
         (<[GeoSearchResult.pageid g := Some e]> cache, scored ++ [e]).

Lemma scoreCandidate_turn extracts langCounts kwPageIds cache scored g :
  turn extracts langCounts kwPageIds g cache scored
       (scoreCandidate float notoriety extracts langCounts kwPageIds
                       (cache, scored) g).
Proof.
  unfold scoreCandidate.
  destruct (rejected _); [constructor |].
  destruct (bool_decide (cat _ = origins) && (_ <? 15) && negb _) eqn:Hminor;
    [constructor |].
  constructor; cbn [WikiEvent.id WikiEvent.notorietyScore
                    WikiEvent.isIncontournable WikiEvent.category
                    WikiEvent.year];
    try reflexivity; [| intros y; apply extractYear_interval].
  intros Hcat. rewrite Hcat in Hminor.
  rewrite bool_decide_eq_true_2 in Hminor by reflexivity.
  cbn [andb] in Hminor. apply andb_false_iff in Hminor as [Hl | Hk].
  - left. apply Z.ltb_ge in Hl. exact Hl.
  - right. apply negb_false_iff in Hk. exact Hk.
Qed.

(** The rule on minor origins: an origins event has 15 language editions
    or comes from the keyword search. *)
Definition originsRule (e : WikiEvent.t float) : Prop :=
  WikiEvent.category e = origins ->
  15 <= WikiEvent.notorietyScore e \/ WikiEvent.isIncontournable e = true.

(** The range of the year of an event. *)
Definition yearRule (e : WikiEvent.t float) : Prop :=
  forall y, WikiEvent.year e = Some y ->
            -9999 <= y <= 2050 /\ (y <= 0 \/ 50 <= y).

(** The invariant of the scoring loop, [done] being the ids of the
    candidates already seen and [c0] the article cache before the loop. *)
Definition passInv (c0 : gmap Z (option (WikiEvent.t float)))
  (done : list Z)
  (st : gmap Z (option (WikiEvent.t float)) * list (WikiEvent.t float))
  : Prop :=
  (forall e, In e st.2 ->
             st.1 !! WikiEvent.id e = Some (Some e) /\ In (WikiEvent.id e) done)
  /\ NoDup (map WikiEvent.id st.2)
  /\ (forall k, ~ In k done -> st.1 !! k = c0 !! k)
  /\ (forall k, In k done -> is_Some (st.1 !! k))
  /\ Forall (fun e => originsRule e /\ yearRule e) st.2.

Lemma passInv_turn c0 done extracts langCounts kwPageIds g cache scored st' :
  passInv c0 done (cache, scored) ->
  ~ In (GeoSearchResult.pageid g) done ->
  turn extracts langCounts kwPageIds g cache scored st' ->
  passInv c0 (GeoSearchResult.pageid g :: done) st'.
Proof.
  intros (Hev & Hnd & Hold & Hdone & Hrule) Hfresh Hturn.
  assert (Hother : forall e, In e scored -> WikiEvent.id e <> GeoSearchResult.pageid g).
  { intros e He Heq. apply Hfresh. rewrite <- Heq. apply Hev, He. }
  destruct Hturn as [| e Hid Hlangs Hkw Horigins Hyear]; unfold passInv;
    cbn [fst snd]; refine (conj _ (conj _ (conj _ (conj _ _)))).
  - intros e He. rewrite lookup_insert_ne by (apply not_eq_sym, Hother, He).
    split; [| right]; apply Hev, He.
  - exact Hnd.
  - intros k Hk. rewrite lookup_insert_ne; [apply Hold |]; cbn in Hk; tauto.
  - intros k [<- | Hk];
      [rewrite lookup_insert_eq; eexists; reflexivity |].
    destruct (decide (GeoSearchResult.pageid g = k)) as [-> | Hne];
      [rewrite lookup_insert_eq; eexists; reflexivity |].
    rewrite lookup_insert_ne by exact Hne. apply Hdone, Hk.
  - exact Hrule.
  - intros e' He'. apply in_app_or in He' as [He' | [<- | []]].
    + rewrite lookup_insert_ne by (apply not_eq_sym, Hother, He').
      split; [| right]; apply Hev, He'.
    + split; [rewrite <- Hid; apply lookup_insert_eq |].
      left. symmetry. exact Hid.
  - rewrite map_app. cbn [map]. apply NoDup_app.
    split; [exact Hnd |]. split; [| apply NoDup_singleton].
    intros k Hk Hk'. apply list_elem_of_singleton in Hk'. subst k.
    apply list_elem_of_In, in_map_iff in Hk as (e' & He' & Hin).
    apply (Hother e' Hin). rewrite He'. exact Hid.
  - intros k Hk. rewrite lookup_insert_ne; [apply Hold |]; cbn in Hk; tauto.
  - intros k [<- | Hk];
      [rewrite lookup_insert_eq; eexists; reflexivity |].
    destruct (decide (GeoSearchResult.pageid g = k)) as [-> | Hne];
      [rewrite lookup_insert_eq; eexists; reflexivity |].
    rewrite lookup_insert_ne by exact Hne. apply Hdone, Hk.
  - apply Forall_app. split; [exact Hrule |].
    constructor; [split; [exact Horigins | exact Hyear] | constructor].
Qed.

Lemma passInv_fold c0 extracts langCounts kwPageIds gs done st :
  passInv c0 done st ->
  NoDup (map GeoSearchResult.pageid gs) ->
  (forall g, In g gs -> ~ In (GeoSearchResult.pageid g) done) ->
  exists done',
    passInv c0 done'
            (fold_left (scoreCandidate float notoriety extracts langCounts
                                       kwPageIds) gs st)
    /\ (forall k, In k done'
                  <-> In k done \/ In k (map GeoSearchResult.pageid gs)).
Proof.
  revert done st. induction gs as [|g gs IH]; intros done st Hinv Hnd Hfresh.
  - exists done. split; [exact Hinv |]. cbn. tauto.
  - cbn [fold_left map] in *. apply NoDup_cons in Hnd as [Hg Hnd].
    destruct st as [cache scored].
    pose proof (scoreCandidate_turn extracts langCounts kwPageIds cache
                  scored g) as Hturn.
    apply (passInv_turn c0 done) in Hturn;
      [| exact Hinv | apply Hfresh; left; reflexivity].
    destruct (IH _ _ Hturn Hnd) as (done' & Hinv' & Hdone').
    { intros g' Hg' [Heq | Hin].
      - apply Hg. rewrite Heq. apply list_elem_of_In, in_map, Hg'.
      - apply (Hfresh g'); [right; exact Hg' | exact Hin]. }
    exists done'. split; [exact Hinv' |].
    intros k. rewrite Hdone'. cbn [In]. tauto.
Qed.

(** The scoring loop of a pass keeps the invariant, over the ids of its
    candidates, none of which was in the article cache. *)
Lemma scoredPass_inv (lat lon radius : float) (c : Caches float) :
  exists done,
    passInv (articleCache float c) done (scoredPass lat lon radius c)
    /\ (forall k, In k done -> articleCache float c !! k = None).
Proof.
  unfold scoredPass.
  destruct (addUnique_fold (articleCache float c)
              (concat
                 (map (fun p => geosearch p.1 p.2 (fmin radius maxRadius)
                                          SHADOW_LIMIT) (newPoints lat lon c)
                  ++ map (fun kw => keywordSearch kw lat lon)
                         KEYWORD_SEARCHES)) [])
    as [Hnd Hnew]; [constructor | intros u [] |].
  fold (candidates lat lon radius c) in Hnd, Hnew.
  destruct (passInv_fold (articleCache float c)
              (fetchExtracts
                 (map GeoSearchResult.pageid (candidates lat lon radius c)))
              (fetchLangCounts
                 (map GeoSearchResult.pageid (candidates lat lon radius c)))
              (keywordIds lat lon) (candidates lat lon radius c) []
              (articleCache float c, []))
    as (done & Hinv & Hdone).
  - unfold passInv. cbn [fst snd map].
    refine (conj _ (conj _ (conj _ (conj _ _)))).
    + intros e [].
    + constructor.
    + reflexivity.
    + intros k [].
    + constructor.
  - exact Hnd.
  - intros g _ [].
  - exists done. split; [exact Hinv |].
    intros k Hk. apply Hdone in Hk as [[] | Hk].
    apply in_map_iff in Hk as (g & <- & Hg). apply Hnew, Hg.
Qed.

Lemma fetch_events_scored (lat lon radius : float) (c : Caches float)
  (e : WikiEvent.t float) :
  In e (fetch lat lon radius c).1 ->
  newPoints lat lon c <> []
  /\ In e (scoredPass lat lon radius c).2
  /\ articleCache float (fetch lat lon radius c).2
     = (scoredPass lat lon radius c).1.
Proof.
  rewrite fetch_unfold.
  destruct (newPoints lat lon c) as [|p ps]; cbn [fst snd articleCache];
    [intros [] |].
  intros He. split; [discriminate |]. split; [| reflexivity].
  apply firstn_In in He.
  exact (Permutation_in _ (sort_perm WikiEvent.score _) He).
Qed.

(** X9. The events of a call have pairwise different ids, none of which
    was in the article cache before; after the call the cache maps each of
    these ids to its event. *)
Theorem fetchWikiEvents_fresh (lat lon radius : float) (c : Caches float) :
  NoDup (map WikiEvent.id (fetch lat lon radius c).1)
  /\ (forall e, In e (fetch lat lon radius c).1 ->
        articleCache float c !! WikiEvent.id e = None
        /\ articleCache float (fetch lat lon radius c).2 !! WikiEvent.id e
           = Some (Some e)).
Proof.
  destruct (scoredPass_inv lat lon radius c)
    as (done & (Hev & Hnd & _ & _ & _) & Hdone).
  split.
  - rewrite fetch_unfold.
    destruct (newPoints lat lon c) as [|p ps]; cbn [fst];
      [constructor |].
    rewrite <- firstn_map.
    eapply sublist_NoDup; [| apply sublist_take].
    rewrite (Permutation_map WikiEvent.id (sort_perm WikiEvent.score _)).
    exact Hnd.
  - intros e He.
    apply fetch_events_scored in He as (_ & He & ->).
    destruct (Hev e He) as [Hcache Hin].
    split; [apply Hdone, Hin | exact Hcache].
Qed.


(** X11. Every origins event that a call returns has at least 15 language
    editions or was found by the keyword search. *)
Theorem fetchWikiEvents_origins (lat lon radius : float) (c : Caches float) :
  Forall (fun e => WikiEvent.category e = origins ->
                   15 <= WikiEvent.notorietyScore e
                   \/ WikiEvent.isIncontournable e = true)
         (fetch lat lon radius c).1.
Proof.
  apply List.Forall_forall. intros e He.
  apply fetch_events_scored in He as (_ & He & _).
  destruct (scoredPass_inv lat lon radius c)
    as (done & (_ & _ & _ & _ & Hrule) & _).
  exact (proj1 (proj1 (List.Forall_forall _ _) Hrule e He)).
Qed.

(** X12. The year of every event that a call returns, when it has one, is
    between -9999 and 2050 and not between 1 and 49. *)
Theorem fetchWikiEvents_years (lat lon radius : float) (c : Caches float) :
  Forall (fun e => forall y, WikiEvent.year e = Some y ->
                             -9999 <= y <= 2050 /\ (y <= 0 \/ 50 <= y))
         (fetch lat lon radius c).1.
Proof.
  apply List.Forall_forall. intros e He.
  apply fetch_events_scored in He as (_ & He & _).
  destruct (scoredPass_inv lat lon radius c)
    as (done & (_ & _ & _ & _ & Hrule) & _).
  exact (proj2 (proj1 (List.Forall_forall _ _) Hrule e He)).
Qed.

(** [rawExtract] and [rawTitle] of a candidate in the scoring loop. *)
Definition rawExtractOf (extracts : gmap Z PageExtract.t)
  (g : GeoSearchResult.t float) : jsstring :=
  match extracts !! GeoSearchResult.pageid g with
  | Some e => default [] (PageExtract.extract e)
  | None => []
  end.

Definition rawTitleOf (extracts : gmap Z PageExtract.t)
  (g : GeoSearchResult.t float) : jsstring :=
  match extracts !! GeoSearchResult.pageid g with
  | Some e => PageExtract.title e
  | None => GeoSearchResult.title g
  end.

Lemma memorial_turn extracts langCounts kwPageIds cache scored g :
  isMemorial (fullText (rawTitleOf extracts g) (rawExtractOf extracts g))
  = true ->
  exists e,
    (scoreCandidate float notoriety extracts langCounts kwPageIds
                    (cache, scored) g).1 !! GeoSearchResult.pageid g
    = Some (Some e)
    /\ WikiEvent.category e = shock /\ 1000 <= WikiEvent.score e.
Proof.
  unfold rawTitleOf, rawExtractOf. intros Hmem.
  unfold scoreCandidate, computeScore. rewrite Hmem.
  cbn [rejected cat score andb bool_decide].
  pose proof (hits_nonneg
                (fullText
                   match extracts !! GeoSearchResult.pageid g with
                   | Some e => PageExtract.title e
                   | None => GeoSearchResult.title g
                   end
                   match extracts !! GeoSearchResult.pageid g with
                   | Some e => default [] (PageExtract.extract e)
                   | None => []
                   end) IMPACT_KW) as Hhits.
  rewrite bool_decide_eq_false_2 by discriminate. cbn [andb fst].
  eexists. split; [apply lookup_insert_eq |].
  cbn [WikiEvent.category WikiEvent.score]. split; [reflexivity |].
  replace (1000 <=? _) with true by (symmetry; apply Z.leb_le; lia). lia.
Qed.

Lemma scoreCandidate_others extracts langCounts kwPageIds gs :
  forall st k,
    ~ In k (map GeoSearchResult.pageid gs) ->
    (fold_left (scoreCandidate float notoriety extracts langCounts kwPageIds)
               gs st).1 !! k
    = st.1 !! k.
Proof.
  induction gs as [|g gs IH]; intros [cache scored] k Hk; cbn [fold_left map];
    [reflexivity |].
  cbn [map In] in Hk. rewrite IH by tauto.
  destruct (scoreCandidate_turn extracts langCounts kwPageIds cache scored g);
    cbn [fst]; apply lookup_insert_ne; tauto.
Qed.

(** X13. A candidate of a pass whose lowercased title and extract hold a
    memorial keyword is never dropped: after the call the article cache
    maps its page id to an event, of category shock and with a score of
    1000 at least. *)
Theorem fetchWikiEvents_memorial (lat lon radius : float) (c : Caches float)
  (g : GeoSearchResult.t float) :
  newPoints lat lon c <> [] ->
  In g (candidates lat lon radius c) ->
  isMemorial
    (fullText
       (rawTitleOf
          (fetchExtracts
             (map GeoSearchResult.pageid (candidates lat lon radius c))) g)
       (rawExtractOf
          (fetchExtracts
             (map GeoSearchResult.pageid (candidates lat lon radius c))) g))
  = true ->
  exists e,
    articleCache float (fetch lat lon radius c).2 !! GeoSearchResult.pageid g
    = Some (Some e)
    /\ WikiEvent.category e = shock /\ 1000 <= WikiEvent.score e.
Proof.
  intros Hnew Hg Hmem. rewrite fetch_unfold.
  destruct (newPoints lat lon c) as [|p ps] eqn:Hpoints; [congruence |].
  rewrite <- Hpoints. cbn [snd articleCache]. unfold scoredPass.
  assert (Hnd : NoDup (map GeoSearchResult.pageid
                           (candidates lat lon radius c))).
  { unfold candidates. apply addUnique_fold; [constructor | intros u []]. }
  destruct (in_split _ _ Hg) as (l1 & l2 & Hsplit).
  cbv zeta.
  set (ex := fetchExtracts
               (map GeoSearchResult.pageid (candidates lat lon radius c)))
    in *.
  set (lc := fetchLangCounts
               (map GeoSearchResult.pageid (candidates lat lon radius c))).
  rewrite Hsplit in Hnd |- *.
  rewrite fold_left_app. cbn [fold_left].
  rewrite map_app in Hnd. cbn [map] in Hnd.
  apply NoDup_app in Hnd as (_ & _ & Hnd). apply NoDup_cons in Hnd as [Hg2 _].
  rewrite scoreCandidate_others
    by (intros Hin; apply Hg2, list_elem_of_In, Hin).
  destruct (fold_left _ l1 _) as [cache scored].
  apply memorial_turn, Hmem.
Qed.

End MoreDiscoveryFacts.

(** ** More on the quiz *)

Lemma genericFallbacks_trimmed :
  Forall (fun f => trim f = f) genericFallbacks.
Proof. apply (bool_decide_unpack _). vm_compute. exact I. Qed.

(** X14. The points of a wrong answer are 0 and those of a correct answer
    are not; the multiple-choice mode never pays more than the free input;
    and with a count of hints that is not negative the points are at most
    100. *)
Theorem calculatePoints_bounds (correct wasQCM : bool) (hintsUsed : Z) :
  0 <= hintsUsed ->
  (QuizResult.points (calculatePoints correct hintsUsed wasQCM) = 0
   <-> correct = false)
  /\ QuizResult.points (calculatePoints correct hintsUsed true)
     <= QuizResult.points (calculatePoints correct hintsUsed false)
  /\ QuizResult.points (calculatePoints correct hintsUsed wasQCM) <= 100.
Proof.
  intros Hh. unfold calculatePoints, round_div.
  destruct correct; cbn [negb QuizResult.points].
  - assert (Hhalf : (2 * (100 - hintsUsed * 30) + 2) / (2 * 2)
                    <= Z.max 10 (100 - hintsUsed * 30)).
    { destruct (Z.le_gt_cases (100 - hintsUsed * 30) 0).
      - transitivity 0; [| lia].
        apply Z.div_le_upper_bound; lia.
      - transitivity (100 - hintsUsed * 30); [| lia].
        apply Z.div_le_upper_bound; lia. }
    split; [| split].
    + split; [destruct wasQCM; lia | discriminate].
    + lia.
    + destruct wasQCM; lia.
  - split; [split; reflexivity | split; lia].
Qed.

Section MoreQuizFacts.
Context `{Unicode}.
Variable float : Type.

Lemma actionVerbsFrom_spec (lower : jsstring) (maxCount : nat)
  (radicals : list (jsstring * jsstring)) (found : list jsstring) :
  (length found < maxCount)%nat -> NoDup found ->
  let vs := actionVerbsFrom lower maxCount radicals found in
  (length vs <= maxCount)%nat
  /\ NoDup vs
  /\ (forall v, In v found -> In v vs)
  /\ (forall v, In v vs ->
        In v found
        \/ exists r, In (r, v) radicals /\ includes lower r = true)
  /\ ((length vs < maxCount)%nat ->
      forall r v, In (r, v) radicals -> includes lower r = true -> In v vs).
Proof.
  revert found.
  induction radicals as [|[radical verb] rest IH]; intros found Hlen Hnd;
    cbn [actionVerbsFrom].
  - cbn zeta. repeat split; try tauto; try lia. intros _ r v [].
  - destruct (includes lower radical) eqn:Hinc; cbn [andb].
    + destruct (existsb (str_eqb verb) found) eqn:Hex; cbn [negb].
      * destruct (IH found Hlen Hnd) as (Hl & Hn & Hmono & Hsrc & Hall).
        cbn zeta. repeat split; try assumption.
        -- intros v Hv. destruct (Hsrc v Hv) as [Hf | (r & Hr & Hi)];
             [left; exact Hf |].
           right. exists r. split; [right; exact Hr | exact Hi].
        -- intros Hlt r v [Heq | Hr] Hi; [| exact (Hall Hlt r v Hr Hi)].
           injection Heq as <- <-. apply Hmono.
           apply existsb_exists in Hex as (x & Hx & Hxv).
           apply bool_decide_eq_true_1 in Hxv. subst x. exact Hx.
      * assert (Hnew : ~ In verb found).
        { intros Hin. apply (eq_true_false_abs _ eq_refl).
          rewrite <- Hex. symmetry. apply existsb_exists.
          exists verb. split; [exact Hin |].
          apply bool_decide_eq_true_2. reflexivity. }
        assert (Hnd' : NoDup (found ++ [verb])).
        { apply NoDup_app. split; [exact Hnd |].
          split; [| apply NoDup_singleton].
          intros x Hx Hx'. apply list_elem_of_singleton in Hx'. subst x.
          apply Hnew, list_elem_of_In, Hx. }
        assert (Hlen' : length (found ++ [verb]) = S (length found)).
        { rewrite length_app. cbn. lia. }
        destruct (maxCount <=? length (found ++ [verb]))%nat eqn:Hfull.
        -- apply Nat.leb_le in Hfull. cbn zeta.
           repeat split; try assumption; try lia.
           ++ intros v Hv. apply in_or_app. left. exact Hv.
           ++ intros v Hv. apply in_app_or in Hv as [Hv | [<- | []]];
                [left; exact Hv |].
              right. exists radical. split; [left; reflexivity | exact Hinc].
        -- apply Nat.leb_gt in Hfull.
           destruct (IH (found ++ [verb]) Hfull Hnd')
             as (Hl & Hn & Hmono & Hsrc & Hall).
           cbn zeta. repeat split; try assumption.
           ++ intros v Hv. apply Hmono, in_or_app. left. exact Hv.
           ++ intros v Hv. destruct (Hsrc v Hv) as [Hf | (r & Hr & Hi)].
              ** apply in_app_or in Hf as [Hf | [<- | []]];
                   [left; exact Hf |].
                 right. exists radical.
                 split; [left; reflexivity | exact Hinc].
              ** right. exists r. split; [right; exact Hr | exact Hi].
           ++ intros Hlt r v [Heq | Hr] Hi; [| exact (Hall Hlt r v Hr Hi)].
              injection Heq as <- <-. apply Hmono, in_or_app.
              right. left. reflexivity.
    + destruct (IH found Hlen Hnd) as (Hl & Hn & Hmono & Hsrc & Hall).
      cbn zeta. repeat split; try assumption.
      * intros v Hv. destruct (Hsrc v Hv) as [Hf | (r & Hr & Hi)];
          [left; exact Hf |].
        right. exists r. split; [right; exact Hr | exact Hi].
      * intros Hlt r v [Heq | Hr] Hi; [| exact (Hall Hlt r v Hr Hi)].
        injection Heq as <- <-. congruence.
Qed.

(** X15. With a limit of one verb at least, the action verbs are at most
    the limit, pairwise different, and each is the infinitive of a radical
    that occurs in the lowercased description; when they are fewer than the
    limit, the infinitive of every radical that occurs is among them. *)
Theorem extractActionVerbs_spec (description : jsstring) (maxCount : nat) :
  (1 <= maxCount)%nat ->
  let vs := extractActionVerbs description maxCount in
  (length vs <= maxCount)%nat
  /\ NoDup vs
  /\ (forall v, In v vs ->
        exists r, In (r, v) VERB_MAP
                  /\ includes (toLowerCase description) r = true)
  /\ ((length vs < maxCount)%nat ->
      forall r v, In (r, v) VERB_MAP ->
                  includes (toLowerCase description) r = true -> In v vs).
Proof.
  intros Hmax. unfold extractActionVerbs.
  destruct (actionVerbsFrom_spec (toLowerCase description) maxCount VERB_MAP
              []) as (Hl & Hn & _ & Hsrc & Hall);
    [cbn; lia | constructor |].
  cbn zeta. repeat split; try assumption.
  intros v Hv. destruct (Hsrc v Hv) as [[] | Hr]. exact Hr.
Qed.

(** X16. A significant word of a title has four code units at least, all
    of them letters, its lowercase is no stop word, and it is made of code
    units of the title in their order. *)
Theorem extractSignificantWords_spec (title : jsstring) :
  Forall (fun w => (4 <= length w)%nat
                   /\ Forall (fun c => is_letter c = true) w
                   /\ ~ In (toLowerCase w) STOP_WORDS
                   /\ sublist w title)
         (extractSignificantWords title).
Proof.
  apply List.Forall_forall. intros w Hw.
  pose proof (proj1 (List.Forall_forall _ _)
                (extractSignificantWords_letters title) w Hw) as [_ Hl].
  unfold extractSignificantWords in Hw.
  apply filter_In in Hw as [Hsrc Hf]. apply andb_prop in Hf as [Hlen Hstop].
  split; [apply Nat.leb_le, Hlen |]. split; [exact Hl |]. split.
  - intros Hin. apply negb_true_iff in Hstop.
    apply (eq_true_false_abs _ eq_refl). rewrite <- Hstop. symmetry.
    apply existsb_exists. exists (toLowerCase w). split; [exact Hin |].
    apply bool_decide_eq_true_2. reflexivity.
  - apply in_map_iff in Hsrc as (part & <- & Hpart).
    apply split_sublist in Hpart.
    etransitivity; [apply replace_all_sublist |].
    etransitivity; [exact Hpart |]. apply replace_all_sublist.
Qed.

Lemma shuffleFrom_draws {A} (i : nat) (copy : list A) (draws : list nat) :
  (shuffleFrom i copy draws).2 = skipn i draws.
Proof.
  revert copy draws. induction i as [|i IH]; intros copy draws.
  - reflexivity.
  - cbn [shuffleFrom]. unfold Rand.bind, Rand.randomIndex.
    destruct draws as [|r draws]; rewrite IH; [apply skipn_nil | reflexivity].
Qed.

(** X17. Whatever is drawn, [shuffle] returns a permutation of its
    argument, and it takes one draw for each element but one. *)
Theorem shuffle_permutation {A} (arr : list A) (draws : list nat) :
  Permutation (shuffle arr draws).1 arr
  /\ (shuffle arr draws).2 = skipn (length arr - 1) draws.
Proof.
  split; [apply shuffle_perm | apply shuffleFrom_draws].
Qed.

Lemma pickDecoys_sources (count : nat) (shuffled : list (WikiEvent.t float))
  (decoys : list jsstring) (used : gset jsstring) (d : jsstring) :
  In d (pickDecoys float count shuffled decoys used).1 ->
  In d decoys
  \/ exists e, In e shuffled /\ d = cleanTitle (WikiEvent.title e).
Proof.
  revert decoys used.
  induction shuffled as [|e rest IH]; intros decoys used; cbn [pickDecoys].
  - cbn. tauto.
  - cbn zeta. case_bool_decide as Hin.
    + intros Hd. destruct (IH _ _ Hd) as [Hl | (e' & He' & Heq)];
        [left; exact Hl |].
      right. exists e'. split; [right; exact He' | exact Heq].
    + assert (Hpush : In d (decoys ++ [cleanTitle (WikiEvent.title e)]) ->
                      In d decoys
                      \/ exists e', In e' (e :: rest)
                                    /\ d = cleanTitle (WikiEvent.title e')).
      { intros Hd. apply in_app_or in Hd as [Hd | [<- | []]];
          [left; exact Hd |].
        right. exists e. split; [left; reflexivity | reflexivity]. }
      destruct (_ <=? _)%nat; cbn [fst]; [exact Hpush |].
      intros Hd. destruct (IH _ _ Hd) as [Hl | (e' & He' & Heq)];
        [exact (Hpush Hl) |].
      right. exists e'. split; [right; exact He' | exact Heq].
Qed.

Lemma padDecoys_sources (count : nat) (fallbacks decoys : list jsstring)
  (used : gset jsstring) (d : jsstring) :
  In d (padDecoys count fallbacks decoys used) ->
  In d decoys \/ In d fallbacks.
Proof.
  revert decoys used.
  induction fallbacks as [|f rest IH]; intros decoys used; cbn [padDecoys].
  - tauto.
  - destruct (_ <=? _)%nat; [tauto |].
    case_bool_decide as Hin; intros Hd; apply IH in Hd.
    + cbn [In]. tauto.
    + destruct Hd as [Hd | Hd]; [| cbn [In]; tauto].
      apply in_app_or in Hd as [Hd | [<- | []]]; cbn [In]; tauto.
Qed.

Lemma generateDecoys_facts (event : WikiEvent.t float)
  (pool : list (WikiEvent.t float)) (count : nat) (draws : list nat) :
  let decoys := (generateDecoys float event pool count draws).1 in
  (length decoys <= count)%nat
  /\ NoDup (map toLowerCase (cleanTitle (WikiEvent.title event) :: decoys))
  /\ forall d, In d decoys ->
       (exists e, In e pool
                  /\ WikiEvent.id e <> WikiEvent.id event
                  /\ d = cleanTitle (WikiEvent.title e))
       \/ In d genericFallbacks.
Proof.
  unfold generateDecoys, Rand.bind.
  fold (cleanTitle (WikiEvent.title event)).
  set (ct := cleanTitle (WikiEvent.title event)).
  set (cc := toLowerCase ct).
  pose proof (shuffle_perm
                (List.filter
                   (fun e =>
                      negb (WikiEvent.id e =? WikiEvent.id event)
                      && bool_decide
                           (WikiEvent.category e = WikiEvent.category event)
                      && negb (str_eqb
                                 (toLowerCase (cleanTitle (WikiEvent.title e)))
                                 cc)) pool) draws) as Hsame.
  destruct (shuffle (List.filter _ pool) draws) as [same draws1].
  pose proof (shuffle_perm
                (List.filter
                   (fun e =>
                      negb (WikiEvent.id e =? WikiEvent.id event)
                      && negb (bool_decide
                           (WikiEvent.category e = WikiEvent.category event))
                      && negb (str_eqb
                                 (toLowerCase (cleanTitle (WikiEvent.title e)))
                                 cc)) pool) draws1) as Hother.
  destruct (shuffle (List.filter _ pool) draws1) as [other draws2].
  pose proof (pickDecoys_inv float cc count (same ++ other) [] {[ cc ]}
                (DecoyInv_init cc)) as Hpick.
  pose proof (fun d => pickDecoys_sources count (same ++ other) [] {[ cc ]} d)
    as Hsrc.
  destruct (pickDecoys float count (same ++ other) [] {[ cc ]})
    as [picked used].
  cbn [fst snd Rand.ret] in *.
  pose proof (padDecoys_inv cc count genericFallbacks picked used Hpick)
    as Hpad.
  split; [| split].
  - rewrite length_firstn. lia.
  - eapply sublist_NoDup; [exact Hpad |].
    cbn [map]. change (map toLowerCase) with (fmap (M:=list) toLowerCase).
    rewrite fmap_take. apply sublist_skip, sublist_take.
  - intros d Hd. apply firstn_In in Hd.
    apply padDecoys_sources in Hd as [Hd | Hd]; [| right; exact Hd].
    left. destruct (Hsrc d Hd) as [[] | (e & He & ->)].
    exists e. split; [| split; [| reflexivity]].
    + apply in_app_or in He as [He | He];
        [apply (Permutation_in _ Hsame) in He
        | apply (Permutation_in _ Hother) in He];
        apply filter_In in He; apply He.
    + assert (Hid : negb (WikiEvent.id e =? WikiEvent.id event) = true).
      { apply in_app_or in He as [He | He];
          [apply (Permutation_in _ Hsame) in He
          | apply (Permutation_in _ Hother) in He];
          apply filter_In in He as [_ He];
          apply andb_prop in He as [He _]; apply andb_prop in He as [He _];
          exact He. }
      apply negb_true_iff, Z.eqb_neq in Hid. exact Hid.
Qed.

(** X18. Whatever the count asked for, the pool and the draws, the decoys
    are at most the count; their lowercases are pairwise different and
    different from the lowercase of the cleaned correct title; and each
    decoy is the cleaned title of an event of the pool with another id, or
    one of the eight generic titles. *)
Theorem generateDecoys_sources (event : WikiEvent.t float)
  (pool : list (WikiEvent.t float)) (count : nat) (draws : list nat) :
  let decoys := (generateDecoys float event pool count draws).1 in
  (length decoys <= count)%nat
  /\ NoDup (map toLowerCase (cleanTitle (WikiEvent.title event) :: decoys))
  /\ forall d, In d decoys ->
       (exists e, In e pool
                  /\ WikiEvent.id e <> WikiEvent.id event
                  /\ d = cleanTitle (WikiEvent.title e))
       \/ In d genericFallbacks.
Proof. apply generateDecoys_facts. Qed.

Lemma pickDecoys_length (count : nat) (shuffled : list (WikiEvent.t float))
  (decoys : list jsstring) (used : gset jsstring) :
  (length decoys < count)%nat ->
  (length (pickDecoys float count shuffled decoys used).1 <= count)%nat.
Proof.
  revert decoys used.
  induction shuffled as [|e rest IH]; intros decoys used Hlen;
    cbn [pickDecoys]; [cbn; lia |].
  cbn zeta. case_bool_decide as Hin; [apply IH, Hlen |].
  destruct (count <=? length _)%nat eqn:Hfull.
  - cbn [fst]. rewrite length_app. cbn. lia.
  - apply IH. apply Nat.leb_gt in Hfull. exact Hfull.
Qed.

Lemma pickDecoys_used_mono (count : nat)
  (shuffled : list (WikiEvent.t float)) (decoys : list jsstring)
  (used : gset jsstring) (x : jsstring) :
  x ∈ used -> x ∈ (pickDecoys float count shuffled decoys used).2.
Proof.
  revert decoys used.
  induction shuffled as [|e rest IH]; intros decoys used Hx;
    cbn [pickDecoys]; [exact Hx |].
  cbn zeta. case_bool_decide as Hin; [apply IH, Hx |].
  assert (Hx' : x ∈ used ∪ {[toLowerCase (cleanTitle (WikiEvent.title e))]})
    by (apply elem_of_union; left; exact Hx).
  destruct (_ <=? _)%nat; [exact Hx' | apply IH, Hx'].
Qed.

(** The loop over the shuffled pool stops in its first part with the
    count reached, or gets through it, and then every title of the first
    part is used. *)
Lemma pickDecoys_app (count : nat) (l1 l2 : list (WikiEvent.t float))
  (decoys : list jsstring) (used : gset jsstring) :
  (pickDecoys float count (l1 ++ l2) decoys used
   = pickDecoys float count l1 decoys used
   /\ (count <= length (pickDecoys float count l1 decoys used).1)%nat)
  \/ (pickDecoys float count (l1 ++ l2) decoys used
      = pickDecoys float count l2
                   (pickDecoys float count l1 decoys used).1
                   (pickDecoys float count l1 decoys used).2
      /\ forall e, In e l1 ->
           toLowerCase (cleanTitle (WikiEvent.title e))
           ∈ (pickDecoys float count l1 decoys used).2).
Proof.
  revert decoys used.
  induction l1 as [|e rest IH]; intros decoys used; cbn [app pickDecoys].
  - right. split; [reflexivity | intros e []].
  - cbn zeta. case_bool_decide as Hin.
    + destruct (IH decoys used) as [Hl | [Heq Hall]]; [left; exact Hl |].
      right. split; [exact Heq |].
      intros e' [<- | He']; [apply pickDecoys_used_mono, Hin | apply Hall, He'].
    + destruct (count <=? length _)%nat eqn:Hfull.
      * left. split; [reflexivity |]. cbn [fst]. apply Nat.leb_le, Hfull.
      * destruct (IH (decoys ++ [cleanTitle (WikiEvent.title e)])
                    (used ∪ {[toLowerCase (cleanTitle (WikiEvent.title e))]}))
          as [Hl | [Heq Hall]]; [left; exact Hl |].
        right. split; [exact Heq |].
        intros e' [<- | He']; [| apply Hall, He'].
        apply pickDecoys_used_mono, elem_of_union. right.
        apply elem_of_singleton. reflexivity.
Qed.

Lemma padDecoys_full (count : nat) (fallbacks decoys : list jsstring)
  (used : gset jsstring) :
  (count <= length decoys)%nat ->
  padDecoys count fallbacks decoys used = decoys.
Proof.
  intros Hlen. destruct fallbacks as [|f rest]; cbn [padDecoys];
    [reflexivity |].
  apply Nat.leb_le in Hlen. rewrite Hlen. reflexivity.
Qed.

Lemma padDecoys_length_le (count : nat) (fallbacks decoys : list jsstring)
  (used : gset jsstring) :
  (length decoys <= count)%nat ->
  (length (padDecoys count fallbacks decoys used) <= count)%nat.
Proof.
  revert decoys used.
  induction fallbacks as [|f rest IH]; intros decoys used Hlen;
    cbn [padDecoys]; [exact Hlen |].
  destruct (count <=? length decoys)%nat eqn:Hfull; [exact Hlen |].
  apply Nat.leb_gt in Hfull.
  case_bool_decide as Hin; apply IH; [exact Hlen |].
  rewrite length_app. cbn. lia.
Qed.

Lemma padDecoys_incl (count : nat) (fallbacks decoys : list jsstring)
  (used : gset jsstring) (d : jsstring) :
  In d decoys -> In d (padDecoys count fallbacks decoys used).
Proof.
  revert decoys used.
  induction fallbacks as [|f rest IH]; intros decoys used Hd;
    cbn [padDecoys]; [exact Hd |].
  destruct (_ <=? _)%nat; [exact Hd |].
  case_bool_decide as Hin; apply IH; [exact Hd |].
  apply in_or_app. left. exact Hd.
Qed.

(** X19. The same category comes first: when some decoy is not the
    cleaned title of an event of the pool with another id and the category
    of the correct event, every such event has the lowercase of its
    cleaned title among the lowercases of the correct title and of the
    decoys. *)
Theorem generateDecoys_priority (event : WikiEvent.t float)
  (pool : list (WikiEvent.t float)) (count : nat) (draws : list nat) :
  let decoys := (generateDecoys float event pool count draws).1 in
  (exists d, In d decoys
             /\ ~ exists e, In e pool
                            /\ WikiEvent.id e <> WikiEvent.id event
                            /\ WikiEvent.category e
                               = WikiEvent.category event
                            /\ d = cleanTitle (WikiEvent.title e)) ->
  forall e, In e pool ->
            WikiEvent.id e <> WikiEvent.id event ->
            WikiEvent.category e = WikiEvent.category event ->
            In (toLowerCase (cleanTitle (WikiEvent.title e)))
               (map toLowerCase
                    (cleanTitle (WikiEvent.title event) :: decoys)).
Proof.
  unfold generateDecoys, Rand.bind.
  fold (cleanTitle (WikiEvent.title event)).
  set (ct := cleanTitle (WikiEvent.title event)).
  set (cc := toLowerCase ct).
  set (sameCategory :=
         List.filter
           (fun e =>
              negb (WikiEvent.id e =? WikiEvent.id event)
              && bool_decide
                   (WikiEvent.category e = WikiEvent.category event)
              && negb (str_eqb (toLowerCase (cleanTitle (WikiEvent.title e)))
                               cc)) pool).
  pose proof (shuffle_perm sameCategory draws) as Hsame.
  destruct (shuffle sameCategory draws) as [same draws1].
  destruct (shuffle (List.filter _ pool) draws1) as [other draws2].
  cbn [fst snd] in Hsame.
  pose proof (pickDecoys_inv float cc count (same ++ other) [] {[ cc ]}
                (DecoyInv_init cc)) as [_ Hused].
  pose proof (pickDecoys_length count (same ++ other) [] {[ cc ]}) as Hlen.
  pose proof (pickDecoys_app count same other [] {[ cc ]}) as Happ.
  pose proof (fun d => pickDecoys_sources count same [] {[ cc ]} d) as Hsrc.
  destruct (pickDecoys float count (same ++ other) [] {[ cc ]})
    as [picked used].
  cbn [fst snd Rand.ret] in *.
  intros (d & Hd & Hnot) e He Hid Hcat.
  destruct count as [|n]; [destruct Hd |].
  specialize (Hlen ltac:(cbn; lia)).
  destruct Happ as [[Heq Hfull] | [Heq Hall]].
  - exfalso. apply Hnot.
    assert (Hpicked : picked = (pickDecoys float (S n) same [] {[cc]}).1)
      by (rewrite <- Heq; reflexivity).
    rewrite <- Hpicked in Hfull.
    rewrite padDecoys_full in Hd by exact Hfull.
    apply firstn_In in Hd. rewrite Hpicked in Hd.
    destruct (Hsrc d Hd) as [[] | (e' & He' & ->)].
    apply (Permutation_in _ Hsame), filter_In in He' as [He' Hf].
    apply andb_prop in Hf as [Hf _]. apply andb_prop in Hf as [Hid' Hcat'].
    exists e'. split; [exact He' |]. split.
    + apply negb_true_iff, Z.eqb_neq in Hid'. exact Hid'.
    + split; [apply bool_decide_eq_true_1 in Hcat'; exact Hcat' | reflexivity].
  - cbn [map].
    destruct (decide (toLowerCase (cleanTitle (WikiEvent.title e)) = cc))
      as [Hcc | Hcc]; [left; symmetry; exact Hcc |].
    right.
    assert (Hin : In e sameCategory).
    { apply filter_In. split; [exact He |].
      apply andb_true_intro. split; [apply andb_true_intro; split |].
      - apply negb_true_iff, Z.eqb_neq, Hid.
      - apply bool_decide_eq_true_2, Hcat.
      - apply negb_true_iff, bool_decide_eq_false_2, Hcc. }
    apply (Permutation_in _ (Permutation_sym Hsame)), Hall in Hin.
    assert (Hu : toLowerCase (cleanTitle (WikiEvent.title e)) ∈ used).
    { replace used
        with (pickDecoys float (S n) other
                (pickDecoys float (S n) same [] {[cc]}).1
                (pickDecoys float (S n) same [] {[cc]}).2).2
        by (rewrite <- Heq; reflexivity).
      apply pickDecoys_used_mono, Hin. }
    apply Hused in Hu. apply elem_of_cons in Hu as [Hu | Hu]; [congruence |].
    apply list_elem_of_In, in_map_iff in Hu as (p & Hp & Hpin).
    rewrite <- Hp. apply in_map.
    rewrite firstn_all2 by (apply padDecoys_length_le, Hlen).
    apply padDecoys_incl, Hpin.
Qed.

(** [answer.trim().toLowerCase() ===
    currentQuestion.correctTitle.trim().toLowerCase()] in
    [handleSubmitAnswer]. *)
Definition isCorrect (answer correctTitle : jsstring) : bool :=
  str_eqb (toLowerCase (trim answer)) (toLowerCase (trim correctTitle)).

(** X20. The correct title is one of the options of a question, and it is
    the only option that the comparison of [handleSubmitAnswer], which
    trims and lowercases both sides, takes for correct. *)
Theorem prepareQuizQuestion_one_correct (event : WikiEvent.t float)
  (pool : list (WikiEvent.t float)) (difficulty : QuizQuestion.Difficulty)
  (draws : list nat) :
  let q := (prepareQuizQuestion float event pool difficulty draws).1 in
  In (QuizQuestion.correctTitle q) (QuizQuestion.options q)
  /\ forall opt, In opt (QuizQuestion.options q) ->
       (isCorrect opt (QuizQuestion.correctTitle q) = true
        <-> opt = QuizQuestion.correctTitle q).
Proof.
  unfold prepareQuizQuestion, Rand.bind.
  pose proof (generateDecoys_facts event pool 3 draws) as (_ & Hnd & Hsrc).
  destruct (generateDecoys float event pool 3 draws) as [decoys draws1].
  cbn [fst] in Hnd, Hsrc.
  set (ct := cleanTitle (WikiEvent.title event)) in *.
  pose proof (shuffle_perm (ct :: decoys) draws1) as Hperm.
  destruct (shuffle (ct :: decoys) draws1) as [options draws2].
  cbn [fst Rand.ret QuizQuestion.options QuizQuestion.correctTitle] in *.
  split.
  - apply (Permutation_in _ (Permutation_sym Hperm)). left. reflexivity.
  - intros opt Hopt. split; [| intros ->; apply bool_decide_eq_true_2;
                               reflexivity].
    intros Hc. apply bool_decide_eq_true_1 in Hc.
    apply (Permutation_in _ Hperm) in Hopt as [Heq | Hd];
      [symmetry; exact Heq |].
    exfalso. unfold ct in Hc. rewrite cleanTitle_trimmed in Hc. fold ct in Hc.
    assert (Htrim : trim opt = opt).
    { destruct (Hsrc opt Hd) as [(e & _ & _ & ->) | Hg].
      - apply cleanTitle_trimmed.
      - exact (proj1 (List.Forall_forall _ _) genericFallbacks_trimmed _ Hg). }
    rewrite Htrim in Hc. cbn [map] in Hnd.
    apply NoDup_cons in Hnd as [Hnotin _]. apply Hnotin.
    rewrite <- Hc. apply list_elem_of_In, in_map, Hd.
Qed.

Lemma free_search (P : pat) (suf pre : list Z) :
  word P <> [] ->
  (free P pre suf <-> search (regex_of P) pre suf = None).
Proof.
  intros HP. revert pre. induction suf as [|c t IH]; intros pre;
    cbn [free search];
    pose proof (pat_implements P HP pre) as Himpl.
  - specialize (Himpl []). unfold pat_matcher in Himpl.
    destruct (matches_at P pre []).
    + destruct Himpl as [_ [cp ->]]. split; [intros [Hm _] |]; discriminate.
    + rewrite Himpl. tauto.
  - specialize (Himpl (c :: t)). unfold pat_matcher in Himpl.
    destruct (matches_at P pre (c :: t)).
    + destruct Himpl as [_ [cp ->]]. split; [intros [Hm _] |]; discriminate.
    + rewrite Himpl, <- IH. tauto.
Qed.

Lemma free_test (P : pat) (s : jsstring) :
  word P <> [] -> (free P [] s <-> test (regex_of P) s = false).
Proof.
  intros HP. rewrite (free_search P s [] HP). unfold test, exec.
  destruct (search (regex_of P) [] s); split; congruence.
Qed.

(** X21. When the cleaned title holds no full block, the masked
    description shows neither the title nor any of its significant words:
    the expression of the full title matches nowhere in it, and the
    expression of each significant word matches nowhere in it. The case
    mapping must not make any other code unit match the full block, as the
    one of JavaScript does not. *)
Theorem maskDescription_hides (description rawTitle : jsstring) :
  (forall c, Canonicalize c = Canonicalize 9608 -> c = 9608) ->
  ~ In 9608 (cleanTitle rawTitle) ->
  let masked := maskDescription description rawTitle in
  (cleanTitle rawTitle = []
   \/ test (fullTitleRegex (cleanTitle rawTitle)) masked = false)
  /\ forall w, In w (extractSignificantWords (cleanTitle rawTitle)) ->
               test (wordRegex w) masked = false.
Proof.
  intros Hcanon Hclean.
  assert (Hci : forall c, ci_eqb c BLOCK = true -> c = BLOCK).
  { intros c Hc. apply Hcanon, Z.eqb_eq, Hc. }
  unfold maskDescription.
  change (fun masked word => replace_all (wordRegex word) WORD_MASK masked)
    with maskWord.
  set (title := cleanTitle rawTitle) in *.
  set (ws := extractSignificantWords title).
  assert (Hws : Forall (fun w => good (Pat true w)) ws).
  { eapply List.Forall_impl; [| apply extractSignificantWords_letters].
    intros w [Hw Hl]. split; [exact Hw | apply letters_mask_free; assumption]. }
  assert (Hword : forall s,
             Forall (fun w => free (Pat true w) [] s) ws ->
             forall w, In w ws -> test (wordRegex w) s = false).
  { intros s Hfree w Hw.
    apply (free_test (Pat true w));
      [exact (proj1 (proj1 (List.Forall_forall _ _) Hws w Hw)) |].
    exact (proj1 (List.Forall_forall _ _) Hfree w Hw). }
  destruct title as [|c t] eqn:Htitle; cbn zeta.
  - split; [left; reflexivity |].
    apply Hword.
    exact (proj2 (maskWords_free ws [] description Hws (List.Forall_nil _))).
  - rewrite <- Htitle in *.
    assert (Hne : title <> []) by (rewrite Htitle; discriminate).
    assert (Hgood : good (Pat false title)).
    { split; [exact Hne |]. cbn [word]. apply List.Forall_forall.
      intros x Hx. destruct (ci_eqb x BLOCK) eqn:Hxb; [| reflexivity].
      apply Hci in Hxb. subst x. contradiction. }
    rewrite maskTitle_gsub by exact Hne.
    destruct (maskWords_free ws [Pat false title]
                (gsub (pat_matcher (Pat false title)) FULL_MASK 0 []
                      description) Hws) as [Htitle' Hfree].
    { constructor; [| constructor]. split; [exact Hgood |].
      apply free_after_self;
        [exact Hne | apply Hgood | exact FULL_MASK_is_mask]. }
    apply Forall_cons in Htitle' as [Htitle' _].
    split; [right | apply Hword, Hfree].
    apply (free_test (Pat false title) _ Hne), Htitle'.
Qed.

(** X22. A description in which neither the expression of the full title
    nor the expression of any significant word matches is returned as it
    is. *)
Theorem maskDescription_unchanged (description rawTitle : jsstring) :
  cleanTitle rawTitle = []
  \/ test (fullTitleRegex (cleanTitle rawTitle)) description = false ->
  (forall w, In w (extractSignificantWords (cleanTitle rawTitle)) ->
             test (wordRegex w) description = false) ->
  maskDescription description rawTitle = description.
Proof.
  intros Htitle Hwords. unfold maskDescription.
  change (fun masked word => replace_all (wordRegex word) WORD_MASK masked)
    with maskWord.
  set (title := cleanTitle rawTitle) in *.
  assert (Hfirst : match title with
                   | _ :: _ =>
                     replace_all (fullTitleRegex title) FULL_MASK description
                   | [] => description
                   end = description).
  { destruct title as [|c t] eqn:Ht; [reflexivity |].
    rewrite <- Ht in *.
    assert (Hne : title <> []) by (rewrite Ht; discriminate).
    destruct Htitle as [Hnil | Htest]; [congruence |].
    rewrite maskTitle_gsub by exact Hne.
    apply gsub_free_id, (free_test (Pat false title) _ Hne), Htest. }
  cbn zeta. rewrite Hfirst. apply maskWords_id.
  apply List.Forall_forall. intros w Hw.
  pose proof (proj1 (List.Forall_forall _ _)
                (extractSignificantWords_letters title) w Hw) as [Hne _].
  split; [exact Hne |].
  apply (free_test (Pat true w) _ Hne), Hwords, Hw.
Qed.

Lemma gsub_units (M : matcher) (by_ : jsstring) (suf : list Z) :
  forall (skip : nat) (pre : list Z),
    Forall (fun c => In c suf \/ In c by_) (gsub M by_ skip pre suf).
Proof.
  induction suf as [|c t IH]; intros skip pre; cbn [gsub]; [constructor |].
  assert (Hrest : forall k p,
             Forall (fun x => In x (c :: t) \/ In x by_) (gsub M by_ k p t)).
  { intros k p. eapply List.Forall_impl; [| apply IH].
    cbn [In]. tauto. }
  destruct skip as [|k]; [| apply Hrest].
  destruct (M pre (c :: t)) as [n|].
  - apply Forall_app. split; [| apply Hrest].
    apply List.Forall_forall. tauto.
  - constructor; [left; left; reflexivity | apply Hrest].
Qed.

(** X23. Masking writes full blocks only: a code unit of the masked
    description is a code unit of the description or the full block. *)
Theorem maskDescription_blocks (description rawTitle : jsstring) :
  Forall (fun c => In c description \/ c = 9608)
         (maskDescription description rawTitle).
Proof.
  unfold maskDescription.
  change (fun masked word => replace_all (wordRegex word) WORD_MASK masked)
    with maskWord.
  set (title := cleanTitle rawTitle).
  assert (Hmask : forall by_ M s,
             is_mask by_ ->
             Forall (fun c => In c description \/ c = 9608) s ->
             Forall (fun c => In c description \/ c = 9608)
                    (gsub M by_ 0 [] s)).
  { intros by_ M s [_ Hby] Hs.
    eapply List.Forall_impl; [| apply gsub_units].
    intros c [Hc | Hc].
    - exact (proj1 (List.Forall_forall _ _) Hs c Hc).
    - right. exact (proj1 (List.Forall_forall _ _) Hby c Hc). }
  assert (Hstart : Forall (fun c => In c description \/ c = 9608)
                          match title with
                          | _ :: _ =>
                            replace_all (fullTitleRegex title) FULL_MASK
                                        description
                          | [] => description
                          end).
  { assert (Hd : Forall (fun c => In c description \/ c = 9608) description)
      by (apply List.Forall_forall; tauto).
    destruct title as [|c t] eqn:Ht; [exact Hd |].
    rewrite maskTitle_gsub by discriminate.
    apply Hmask; [exact FULL_MASK_is_mask | exact Hd]. }
  cbn zeta. revert Hstart.
  generalize (match title with
              | _ :: _ =>
                replace_all (fullTitleRegex title) FULL_MASK description
              | [] => description
              end).
  pose proof (extractSignificantWords_letters title) as Hws.
  induction Hws as [|w ws [Hw _] _ IH]; intros s Hs; cbn [fold_left];
    [exact Hs |].
  apply IH. rewrite maskWord_gsub by exact Hw.
  apply Hmask; [exact WORD_MASK_is_mask | exact Hs].
Qed.

End MoreQuizFacts.

(** ** Formatted titles *)

Lemma m_Seq {R} (a b : re) (k : mstate -> option R) (st : mstate) :
  m (Seq a b) k st = m a (m b k) st.
Proof. reflexivity. Qed.

Lemma m_Chr_hit {R} (p : Z -> bool) (k : mstate -> option R)
  (cp : option jsstring) (pre : list Z) (c : Z) (t : list Z) :
  p c = true ->
  m (Chr p) k (MState cp pre (c :: t)) = k (MState cp (c :: pre) t).
Proof. intros Hp. cbn [m after before cap]. rewrite Hp. reflexivity. Qed.

Lemma m_Chr_miss {R} (p : Z -> bool) (k : mstate -> option R)
  (cp : option jsstring) (pre suf : list Z) :
  match suf with
  | c :: _ => p c = false
  | [] => True
  end ->
  m (Chr p) k (MState cp pre suf) = None.
Proof.
  intros Hp. cbn [m after]. destruct suf as [|c t]; [reflexivity |].
  rewrite Hp. reflexivity.
Qed.

(** A quantifier over one class reads all it can, when what follows it
    matches there. *)
Lemma rep_loop_chr_greedy {R} (p : Z -> bool) (k : mstate -> option R)
  (x : R) (rest : list Z) (w : list Z) :
  forall (fuel lo : nat) (hi : option nat) (cp : option jsstring)
         (pre : list Z),
    (length w < fuel)%nat ->
    Forall (fun c => p c = true) w ->
    (lo <= length w)%nat ->
    match hi with
    | Some h => (length w <= h)%nat
    | None => True
    end ->
    (hi = Some (length w)
     \/ match rest with
        | c :: _ => p c = false
        | [] => True
        end) ->
    k (MState cp (rev w ++ pre) rest) = Some x ->
    rep_loop (m (Chr p)) k fuel lo hi (MState cp pre (w ++ rest)) = Some x.
Proof.
  induction w as [|c w IH]; intros fuel lo hi cp pre Hfuel Hw Hlo Hhi Hstop Hk;
    (destruct fuel as [|fuel]; [cbn in Hfuel; lia |]).
  - cbn [rep_loop app]. destruct lo; [| cbn in Hlo; lia].
    destruct (hi_zero hi) eqn:Hz; [exact Hk |].
    rewrite m_Chr_miss; [exact Hk |].
    destruct Hstop as [-> | Hp]; [discriminate Hz | exact Hp].
  - apply Forall_cons in Hw as [Hc Hw]. cbn [length] in *.
    assert (Hnext : forall lo',
               (lo' <= length w)%nat ->
               rep_loop (m (Chr p)) k fuel lo' (hi_pred hi)
                        (MState cp (c :: pre) (w ++ rest)) = Some x).
    { intros lo' Hlo'. apply IH; try assumption; try lia.
      - destruct hi as [h|]; cbn [hi_pred]; [lia | exact I].
      - destruct Hstop as [-> | Hp]; [left; reflexivity | right; exact Hp].
      - cbn [rev] in Hk. rewrite <- app_assoc in Hk. exact Hk. }
    cbn [rep_loop app]. destruct lo as [|lo].
    + assert (Hz : hi_zero hi = false).
      { destruct hi as [[|h]|]; try reflexivity. lia. }
      rewrite Hz, m_Chr_hit by exact Hc. cbn [after].
      replace (length (w ++ rest) <? length (c :: w ++ rest))%nat with true
        by (symmetry; apply Nat.ltb_lt; cbn [length]; lia).
      rewrite Hnext by lia. reflexivity.
    + rewrite m_Chr_hit by exact Hc. apply Hnext. lia.
Qed.

Lemma rep_chr_greedy {R} (p : Z -> bool) (k : mstate -> option R)
  (x : R) (w rest : list Z) (lo : nat) (hi : option nat)
  (cp : option jsstring) (pre : list Z) :
  Forall (fun c => p c = true) w ->
  (lo <= length w)%nat ->
  match hi with
  | Some h => (length w <= h)%nat
  | None => True
  end ->
  (hi = Some (length w)
   \/ match rest with
      | c :: _ => p c = false
      | [] => True
      end) ->
  k (MState cp (rev w ++ pre) rest) = Some x ->
  m (Rep lo hi (Chr p)) k (MState cp pre (w ++ rest)) = Some x.
Proof.
  intros Hw Hlo Hhi Hstop Hk. rewrite m_Rep.
  apply rep_loop_chr_greedy; try assumption.
  cbn [after]. rewrite length_app. lia.
Qed.

(** An optional part that reads nothing is left out. *)
Lemma m_opt_cons {R} (r : re) (k : mstate -> option R)
  (cp : option jsstring) (pre : list Z) (c : Z) (t : list Z) :
  m (opt r) k (MState cp pre (c :: t))
  = match m r (fun st' =>
                 if (length (after st') <? S (length t))%nat
                 then k st' else None) (MState cp pre (c :: t)) with
    | Some x => Some x
    | None => k (MState cp pre (c :: t))
    end.
Proof. reflexivity. Qed.

Lemma trimStart_split (s : jsstring) :
  exists sp, s = sp ++ trimStart s /\ Forall (fun c => is_space c = true) sp.
Proof.
  induction s as [|c t (sp & Hs & Hsp)]; cbn [trimStart].
  - exists []. split; [reflexivity | constructor].
  - destruct (is_space c) eqn:Hc.
    + exists (c :: sp). split; [cbn; f_equal; exact Hs |].
      constructor; assumption.
    + exists []. split; [reflexivity | constructor].
Qed.

(** The decimal form of a number from 1 to 9999: one to four digits. *)
Definition year_digits_ok (n : Z) : bool :=
  forallb is_digit (String_of_Z n)
  && (1 <=? length (String_of_Z n))%nat
  && (length (String_of_Z n) <=? 4)%nat.

Lemma year_digits (n : Z) :
  1 <= n <= 9999 ->
  Forall (fun c => is_digit c = true) (String_of_Z n)
  /\ (1 <= length (String_of_Z n) <= 4)%nat.
Proof.
  intros Hn.
  assert (Hall : forallb year_digits_ok (map Z.of_nat (List.seq 1 (Z.to_nat 9999)))
                 = true) by (vm_compute; reflexivity).
  assert (Hin : In n (map Z.of_nat (List.seq 1 (Z.to_nat 9999)))).
  { apply in_map_iff. exists (Z.to_nat n). split; [lia |].
    apply in_seq. lia. }
  apply (proj1 (forallb_forall _ _) Hall) in Hin.
  unfold year_digits_ok in Hin.
  apply andb_prop in Hin as [Hin Hhi]. apply andb_prop in Hin as [Hd Hlo].
  apply Nat.leb_le in Hhi, Hlo. split; [| lia].
  apply List.Forall_forall, (proj1 (forallb_forall _ _) Hd).
Qed.

Lemma m_Bol_start {R} (k : mstate -> option R) (cp : option jsstring)
  (suf : list Z) :
  m Bol k (MState cp [] suf) = k (MState cp [] suf).
Proof. reflexivity. Qed.

Lemma av_jc_miss {R} (k : mstate -> option R) (cp : option jsstring)
  (pre t : list Z) :
  m (seq [star space; str (lit "av"); opt (chr 46); star space; chr 74;
          opt (chr 46); opt (chr 45); chr 67; opt (chr 46)]) k
    (MState cp pre (41 :: t)) = None.
Proof. reflexivity. Qed.

(** The white space after the tag, up to the title. *)
Lemma year_tag_end (cp : option jsstring) (pre raw s : list Z) :
  m (seq [chr 41; star space])
    (fun st' =>
       Some (Found [] (firstn (length s - length (after st')) s)
                   (cap st') (after st')))
    (MState cp pre (41 :: 32 :: raw))
  = Some (Found [] (firstn (length s - length (trimStart raw)) s) cp
                (trimStart raw)).
Proof.
  destruct (trimStart_split raw) as (sp & Hraw & Hsp).
  pose proof (trimStart_head raw) as Hhead.
  destruct (trimStart raw) as [|c rest] eqn:Hrest; rewrite Hraw;
    rewrite m_seq_cons; unfold chr; rewrite m_Chr_hit by reflexivity;
    cbn [seq]; unfold star, space.
  - apply (rep_chr_greedy _ _ _ (32 :: sp) []);
      [constructor; [reflexivity | exact Hsp] | cbn; lia | exact I
      | right; exact I | reflexivity].
  - apply (rep_chr_greedy _ _ _ (32 :: sp) (c :: rest));
      [constructor; [reflexivity | exact Hsp] | cbn; lia | exact I
      | right; exact Hhead | reflexivity].
Qed.

Lemma year_tag_plain (ds raw : list Z) :
  Forall (fun c => is_digit c = true) ds ->
  (1 <= length ds <= 4)%nat ->
  replace (Seq Bol re_year_tag) [] (40 :: ds ++ 41 :: 32 :: raw)
  = trimStart raw.
Proof.
  intros Hd Hlen. rewrite replace_bol.
  assert (Hex : exists txt,
             exec_at (Seq Bol re_year_tag) [] (40 :: ds ++ 41 :: 32 :: raw)
             = Some (Found [] txt None (trimStart raw))).
  { eexists. unfold exec_at.
    rewrite m_Seq, m_Bol_start. unfold re_year_tag.
    rewrite m_seq_cons. unfold chr at 1. rewrite m_Chr_hit by reflexivity.
    rewrite m_seq_cons. unfold digit.
    apply (rep_chr_greedy _ _ _ ds (41 :: 32 :: raw));
      [exact Hd | lia | cbn; lia | right; reflexivity |].
    rewrite m_seq_cons. unfold re_av_jc. rewrite m_opt_cons, av_jc_miss.
    apply year_tag_end. }
  destruct Hex as [txt ->]. reflexivity.
Qed.

Ltac rep_step w :=
  apply (rep_chr_greedy _ _ _ w);
  [ repeat constructor
  | cbn [length]; lia
  | cbn [length]; first [lia | exact I]
  | first [left; reflexivity | right; reflexivity]
  | cbn [rev app] ].

Ltac chr_step :=
  unfold chr at 1; rewrite m_Chr_hit by reflexivity.

(** The BCE mark of a tag, as [formatTitle] writes it. *)
Lemma av_jc_hit {R} (k : mstate -> option R) (x : R)
  (cp : option jsstring) (pre t : list Z) :
  k (MState cp ([46; 67; 45; 46; 74; 32; 46; 118; 97; 32] ++ pre) (41 :: t))
  = Some x ->
  m re_av_jc k
    (MState cp pre (32 :: 97 :: 118 :: 46 :: 32 :: 74 :: 46 :: 45 :: 67
                       :: 46 :: 41 :: t))
  = Some x.
Proof.
  intros Hk. unfold re_av_jc. rewrite m_opt_cons.
  match goal with
  | |- match ?inner with Some _ => _ | None => _ end = _ =>
    assert (Hin : inner = Some x); [| rewrite Hin; reflexivity]
  end.
  rewrite m_seq_cons. unfold star at 1, space at 1. rep_step [32].
  rewrite m_seq_cons. change (str (lit "av")) with (Seq (chr 97) (chr 118)).
  rewrite m_Seq. chr_step. chr_step.
  rewrite m_seq_cons. unfold opt at 1, chr at 1. rep_step [46].
  rewrite m_seq_cons. unfold star at 1, space at 1. rep_step [32].
  rewrite m_seq_cons. chr_step.
  rewrite m_seq_cons. unfold opt at 1, chr at 1. rep_step [46].
  rewrite m_seq_cons. unfold opt at 1, chr at 1. rep_step [45].
  rewrite m_seq_cons. chr_step.
  cbn [seq]. unfold opt, chr. rep_step [46].
  cbn [after length].
  replace (_ <? _)%nat with true by (symmetry; apply Nat.ltb_lt; lia).
  exact Hk.
Qed.

Lemma year_tag_bce (ds raw : list Z) :
  Forall (fun c => is_digit c = true) ds ->
  (1 <= length ds <= 4)%nat ->
  replace (Seq Bol re_year_tag) []
          (40 :: ds ++ [32; 97; 118; 46; 32; 74; 46; 45; 67; 46; 41; 32]
              ++ raw)
  = trimStart raw.
Proof.
  intros Hd Hlen. rewrite replace_bol.
  assert (Hex : exists txt,
             exec_at (Seq Bol re_year_tag) []
                     (40 :: ds ++ [32; 97; 118; 46; 32; 74; 46; 45; 67; 46;
                                   41; 32] ++ raw)
             = Some (Found [] txt None (trimStart raw))).
  { eexists. unfold exec_at.
    rewrite m_Seq, m_Bol_start. unfold re_year_tag.
    rewrite m_seq_cons. unfold chr at 1. rewrite m_Chr_hit by reflexivity.
    rewrite m_seq_cons. unfold digit.
    apply (rep_chr_greedy _ _ _ ds
             ([32; 97; 118; 46; 32; 74; 46; 45; 67; 46; 41; 32] ++ raw));
      [exact Hd | lia | cbn; lia | right; reflexivity |].
    rewrite m_seq_cons. cbn [app]. apply av_jc_hit.
    apply year_tag_end. }
  destruct Hex as [txt ->]. reflexivity.
Qed.

(** A text that does not start with an opening parenthesis has no tag to
    take off. *)
Lemma no_tag (r : re) (s : jsstring) :
  head s <> Some 40 -> replace (Seq Bol (Seq (chr 40) r)) [] s = s.
Proof.
  intros Hs. rewrite replace_bol. unfold exec_at.
  rewrite m_Seq, m_Bol_start, m_Seq. unfold chr. rewrite m_Chr_miss;
    [reflexivity |].
  destruct s as [|c t]; [exact I |]. cbn [head] in Hs.
  apply Z.eqb_neq. congruence.
Qed.

Lemma trim_trimStart (s : jsstring) : trim (trimStart s) = trim s.
Proof. unfold trim. rewrite trimStart_idem. reflexivity. Qed.

(** X24. The cleaned title is a piece of the title: what is left after a
    prefix and a suffix are taken off; and it has no white space at either
    end. *)
Theorem cleanTitle_infix (title : jsstring) :
  (exists a b, title = a ++ cleanTitle title ++ b)
  /\ trim (cleanTitle title) = cleanTitle title.
Proof.
  split; [| apply trim_idem].
  unfold cleanTitle.
  destruct (replace_bol_suffix re_year_tag title) as [a1 H1].
  change re_century_prefix
    with (Seq Bol (seq [chr 40; plus (Chr is_roman_letter); chr 101;
                        re_av_jc; chr 41; star space])).
  destruct (replace_bol_suffix
              (seq [chr 40; plus (Chr is_roman_letter); chr 101;
                    re_av_jc; chr 41; star space])
              (replace (Seq Bol re_year_tag) [] title)) as [a2 H2].
  destruct (trim_infix
              (replace
                 (Seq Bol (seq [chr 40; plus (Chr is_roman_letter); chr 101;
                                re_av_jc; chr 41; star space])) []
                 (replace (Seq Bol re_year_tag) [] title))) as (a3 & b & H3).
  exists (a1 ++ a2 ++ a3), b.
  rewrite <- !app_assoc, <- H3, <- H2. exact H1.
Qed.

Section FormatFacts.
Context `{Unicode}.

(** X25. For a year from 1 to 9999 or from -9999 to -1, which covers every
    year but zero that [extractYear] gives, and a raw title that does not
    start with an opening parenthesis when its leading white space is left
    out, the cleaned form of the formatted title is the raw title,
    trimmed. *)
Theorem cleanTitle_formatTitle (rawTitle extract : jsstring) (y : Z) :
  -9999 <= y <= 9999 -> y <> 0 ->
  head (trimStart rawTitle) <> Some 40 ->
  cleanTitle (formatTitle rawTitle (Some y) extract) = trim rawTitle.
Proof.
  intros Hy Hy0 Hraw. unfold formatTitle.
  assert (Hclean : trim (replace re_century_prefix [] (trimStart rawTitle))
                   = trim rawTitle).
  { change re_century_prefix
      with (Seq Bol (Seq (chr 40)
                         (seq [plus (Chr is_roman_letter); chr 101; re_av_jc;
                               chr 41; star space]))).
    rewrite no_tag by exact Hraw. apply trim_trimStart. }
  destruct (Z.ltb_spec 0 y) as [Hpos | Hneg].
  - destruct (year_digits y ltac:(lia)) as [Hd Hlen].
    unfold cleanTitle.
    change (lit "(" ++ String_of_Z y ++ lit ") " ++ rawTitle)
      with (40 :: String_of_Z y ++ 41 :: 32 :: rawTitle).
    rewrite year_tag_plain by assumption. exact Hclean.
  - destruct (Z.ltb_spec y 0) as [Hlt | Hge]; [| lia].
    destruct (year_digits (Z.abs y) ltac:(lia)) as [Hd Hlen].
    unfold cleanTitle.
    change (lit "(" ++ String_of_Z (Z.abs y) ++ lit " av. J.-C.) "
                ++ rawTitle)
      with (40 :: String_of_Z (Z.abs y)
               ++ [32; 97; 118; 46; 32; 74; 46; 45; 67; 46; 41; 32]
               ++ rawTitle).
    rewrite year_tag_bce by assumption. exact Hclean.
Qed.

End FormatFacts.

(** ** The next question *)

Section NextQuestion.
Variable float : Type.

(** The loop of [handleNextQuestion] over the events, from the running
    index: [None] stands for the exception of reading [id] of
    [undefined]. *)
Fixpoint pickLoop (attempts : nat) (wikiEvents : list (WikiEvent.t float))
  (nextIdx : nat) (currentId : Z)
  : option (option (WikiEvent.t float) * nat) :=
  match attempts with
  | O => Some (None, nextIdx)
  | S attempts' =>
    match wikiEvents !! (nextIdx mod length wikiEvents)%nat with
    | None => None
    | Some candidate =>
      if negb (WikiEvent.id candidate =? currentId)
      then Some (Some candidate, S nextIdx)
      else pickLoop attempts' wikiEvents (S nextIdx) currentId
    end
  end.

(** The event of the next question and the index afterwards; the outer
    [None] is the return without a question, the inner one the
    exception. *)
Definition nextPick (wikiEvents : list (WikiEvent.t float)) (nextIdx : nat)
  (currentId : Z) : option (option (WikiEvent.t float * nat)) :=
  if (length wikiEvents <? 2)%nat then None
  else
    Some
      match pickLoop (length wikiEvents) wikiEvents nextIdx currentId with
      | None => None
      | Some (Some pick, idx) => Some (pick, idx)
      | Some (None, idx) =>
        match wikiEvents !! (idx mod length wikiEvents)%nat with
        | Some pick => Some (pick, idx)
        | None => None
        end
      end.

Lemma mod_reaches (n idx j : nat) :
  (j < n)%nat -> exists i, (i < n)%nat /\ ((idx + i) mod n)%nat = j.
Proof.
  intros Hj. pose proof (Nat.div_mod_eq idx n) as Hdiv.
  pose proof (Nat.mod_upper_bound idx n ltac:(lia)) as Hr.
  destruct (le_lt_dec (idx mod n) j) as [Hle | Hgt].
  - exists (j - idx mod n)%nat. split; [lia |].
    symmetry. apply (Nat.mod_unique _ _ (idx / n)); [exact Hj | lia].
  - exists (j + n - idx mod n)%nat. split; [lia |].
    symmetry. apply (Nat.mod_unique _ _ (S (idx / n))); [exact Hj | nia].
Qed.

Lemma pickLoop_spec (wikiEvents : list (WikiEvent.t float)) (currentId : Z)
  (attempts : nat) :
  wikiEvents <> [] ->
  forall nextIdx,
    match pickLoop attempts wikiEvents nextIdx currentId with
    | None => False
    | Some (Some pick, idx) =>
      In pick wikiEvents /\ WikiEvent.id pick <> currentId
    | Some (None, idx) =>
      forall i, (i < attempts)%nat ->
        exists e, wikiEvents !! ((nextIdx + i) mod length wikiEvents)%nat
                  = Some e
                  /\ WikiEvent.id e = currentId
    end.
Proof.
  intros Hne. induction attempts as [|attempts IH]; intros nextIdx;
    cbn [pickLoop].
  - intros i Hi. lia.
  - assert (Hlen : (0 < length wikiEvents)%nat).
    { destruct wikiEvents; [congruence | cbn; lia]. }
    destruct (lookup_lt_is_Some_2 wikiEvents
                (nextIdx mod length wikiEvents)%nat) as [cand Hcand];
      [apply Nat.mod_upper_bound; lia |].
    rewrite Hcand.
    destruct (WikiEvent.id cand =? currentId) eqn:Hid; cbn [negb].
    + apply Z.eqb_eq in Hid. specialize (IH (S nextIdx)).
      destruct (pickLoop attempts wikiEvents (S nextIdx) currentId)
        as [[[pick|] idx]|]; try exact IH.
      intros [|i] Hi.
      * rewrite Nat.add_0_r. exists cand. split; assumption.
      * replace (nextIdx + S i)%nat with (S nextIdx + i)%nat by lia.
        apply IH. lia.
    + apply Z.eqb_neq in Hid. split; [| exact Hid].
      apply list_elem_of_In, (list_elem_of_lookup_2 _ _ _ Hcand).
Qed.

(** X26. With two events at least, [handleNextQuestion] finds an event
    for the next question, and when some event has another id than the
    current one, so has the event it finds. *)
Theorem nextPick_other (wikiEvents : list (WikiEvent.t float))
  (nextIdx : nat) (currentId : Z) :
  (2 <= length wikiEvents)%nat ->
  exists pick idx,
    nextPick wikiEvents nextIdx currentId = Some (Some (pick, idx))
    /\ In pick wikiEvents
    /\ ((exists e, In e wikiEvents /\ WikiEvent.id e <> currentId) ->
        WikiEvent.id pick <> currentId).
Proof.
  intros Hlen. unfold nextPick.
  replace (length wikiEvents <? 2)%nat with false
    by (symmetry; apply Nat.ltb_ge; exact Hlen).
  assert (Hne : wikiEvents <> []) by (destruct wikiEvents; [cbn in Hlen; lia
                                                           | discriminate]).
  pose proof (pickLoop_spec wikiEvents currentId (length wikiEvents) Hne
                nextIdx) as Hloop.
  destruct (pickLoop (length wikiEvents) wikiEvents nextIdx currentId)
    as [[[pick|] idx]|]; [| | contradiction].
  - destruct Hloop as [Hin Hid]. exists pick, idx.
    split; [reflexivity |]. split; [exact Hin |]. intros _. exact Hid.
  - destruct (lookup_lt_is_Some_2 wikiEvents (idx mod length wikiEvents)%nat)
      as [pick Hpick]; [apply Nat.mod_upper_bound; lia |].
    rewrite Hpick. exists pick, idx. split; [reflexivity |].
    split; [apply list_elem_of_In, (list_elem_of_lookup_2 _ _ _ Hpick) |].
    intros (e & He & Hid). exfalso. apply Hid.
    apply list_elem_of_In, list_elem_of_lookup in He as [j Hj].
    destruct (mod_reaches (length wikiEvents) nextIdx j) as (i & Hi & Hmod);
      [apply (lookup_lt_Some _ _ _ Hj) |].
    destruct (Hloop i Hi) as (e' & He' & Hid').
    rewrite Hmod in He'. congruence.
Qed.

End NextQuestion.

(** ** The further properties at concrete inputs *)

Lemma extractYear_bounds_witness :
  let text := lit "La Bastille est prise en 1789." in
  extractYear text = Some 1789
  /\ -9999 <= 1789 <= 2050 /\ (1789 <= 0 \/ 50 <= 1789).
Proof.
  intros text. split; [vm_compute; reflexivity |].
  apply (extractYear_bounds text 1789). vm_compute. reflexivity.
Defined.

Lemma computeScore_rejected_score_witness :
  let title := lit "Stade municipal" in
  let extract := lit "Un stade de football." in
  rejected (computeScore title extract 5) = true
  /\ In (score (computeScore title extract 5)) [0; -100; -15].
Proof.
  intros title extract. split; [vm_compute; reflexivity |].
  apply (computeScore_rejected_score title extract 5).
  vm_compute. reflexivity.
Defined.

Lemma computeScore_kept_witness :
  let title := lit "Massacre de la Saint-Barthélemy" in
  let extract := lit "En 1572, des milliers de morts." in
  isMemorial (fullText title extract) = true
  \/ 0 < (classify (fullText title extract)).2
  \/ (exists y, extractYear extract = Some y /\ y <> 0).
Proof.
  intros title extract.
  apply (computeScore_kept title extract 40). vm_compute. reflexivity.
Defined.

Lemma countOccurrences_includes_witness :
  let text := lit "L'église et la Chapelle" in
  let ws := [lit "église"; lit "chapelle"; lit "abbaye"] in
  0 < countOccurrences text ws
  <-> some (fun w => includes (toLowerCase text) w) ws = true.
Proof.
  intros text ws. apply (countOccurrences_includes text ws).
  apply (bool_decide_unpack _). vm_compute. exact I.
Defined.

Lemma calculatePoints_bounds_witness :
  (QuizResult.points (calculatePoints true 2 true) = 0 <-> true = false)
  /\ QuizResult.points (calculatePoints true 2 true)
     <= QuizResult.points (calculatePoints true 2 false)
  /\ QuizResult.points (calculatePoints true 2 true) <= 100.
Proof. apply (calculatePoints_bounds true true 2). lia. Defined.

Lemma extractActionVerbs_spec_witness :
  let description :=
    lit "Le roi est assassiné, puis la ville est bombardée et occupée." in
  let vs := extractActionVerbs description 3 in
  (length vs <= 3)%nat
  /\ NoDup vs
  /\ (forall v, In v vs ->
        exists r, In (r, v) VERB_MAP
                  /\ includes (toLowerCase description) r = true)
  /\ ((length vs < 3)%nat ->
      forall r v, In (r, v) VERB_MAP ->
                  includes (toLowerCase description) r = true -> In v vs).
Proof.
  intros description. apply (extractActionVerbs_spec description 3). lia.
Defined.

Lemma maskDescription_hides_witness :
  let title := lit "(1942) Rafle du Vel d'Hiv" in
  let description := lit "La rafle du Vel d'Hiv, Rafle de juillet 1942." in
  let masked := maskDescription description title in
  (cleanTitle title = []
   \/ test (fullTitleRegex (cleanTitle title)) masked = false)
  /\ forall w, In w (extractSignificantWords (cleanTitle title)) ->
               test (wordRegex w) masked = false.
Proof.
  intros title description.
  apply (maskDescription_hides description title).
  - exact Latin1_block.
  - rewrite <- list_elem_of_In. apply (bool_decide_unpack _).
    vm_compute. exact I.
Defined.

Lemma maskDescription_unchanged_witness :
  let title := lit "(1942) Rafle du Vel d'Hiv" in
  let description := lit "Une bataille de 1916, près de Verdun." in
  maskDescription description title = description.
Proof.
  intros title description.
  apply (maskDescription_unchanged description title).
  - right. vm_compute. reflexivity.
  - intros w Hw. vm_compute in Hw. destruct Hw as [<- | []].
    vm_compute. reflexivity.
Defined.

Lemma cleanTitle_formatTitle_witness :
  let rawTitle := lit "Prise de la Bastille" in
  let extract := lit "La Bastille est prise en 1789." in
  cleanTitle (formatTitle rawTitle (Some 1789) extract) = trim rawTitle.
Proof.
  intros rawTitle extract.
  apply (cleanTitle_formatTitle rawTitle extract 1789); [lia | lia |].
  vm_compute. discriminate.
Defined.

Lemma nextPick_other_witness :
  let ev (i : Z) : WikiEvent.t unit := {|
    WikiEvent.id := i; WikiEvent.title := []; WikiEvent.description := [];
    WikiEvent.lat := tt; WikiEvent.lng := tt; WikiEvent.year := None;
    WikiEvent.category := shock; WikiEvent.score := 0;
    WikiEvent.notorietyScore := 0; WikiEvent.isIncontournable := false |} in
  let wikiEvents := [ev 1; ev 2; ev 3] in
  exists pick idx,
    nextPick unit wikiEvents 3 1 = Some (Some (pick, idx))
    /\ In pick wikiEvents
    /\ ((exists e, In e wikiEvents /\ WikiEvent.id e <> 1) ->
        WikiEvent.id pick <> 1).
Proof.
  intros ev wikiEvents. apply (nextPick_other unit wikiEvents 3 1).
  subst wikiEvents. cbn [length]. lia.
Defined.

Lemma generateDecoys_priority_witness :
  let ev (i : Z) (t : jsstring) (c : WikiCategory) : WikiEvent.t unit := {|
    WikiEvent.id := i; WikiEvent.title := t; WikiEvent.description := [];
    WikiEvent.lat := tt; WikiEvent.lng := tt; WikiEvent.year := None;
    WikiEvent.category := c; WikiEvent.score := 0;
    WikiEvent.notorietyScore := 0; WikiEvent.isIncontournable := false |} in
  let event := ev 1 (lit "(1916) Bataille de Verdun") shock in
  let rafle := ev 3 (lit "Rafle du Vel d'Hiv") shock in
  let pool := [ev 2 (lit "Cathédrale de Reims") civilization; rafle] in
  let decoys := (generateDecoys unit event pool 3 [4; 1]%nat).1 in
  In (lit "Cathédrale de Reims") decoys
  /\ In (toLowerCase (cleanTitle (WikiEvent.title rafle)))
        (map toLowerCase (cleanTitle (WikiEvent.title event) :: decoys)).
Proof.
  intros ev event rafle pool.
  split; [vm_compute; right; left; reflexivity |].
  apply (generateDecoys_priority unit event pool 3 [4; 1]%nat).
  - exists (lit "Cathédrale de Reims"). split.
    + vm_compute. right. left. reflexivity.
    + intros (e & He & _ & Hcat & Heq).
      destruct He as [<- | [<- | []]];
        [vm_compute in Hcat | vm_compute in Heq]; discriminate.
  - right. left. reflexivity.
  - vm_compute. discriminate.
  - reflexivity.
Defined.

Lemma fetchWikiEvents_memorial_witness :
  let g : GeoSearchResult.t Z := {|
    GeoSearchResult.pageid := 7;
    GeoSearchResult.title := lit "Rafle du Vel d'Hiv";
    GeoSearchResult.lat := 4886; GeoSearchResult.lon := 229;
    GeoSearchResult.dist := 40 |} in
  let geosearch := fun (_ _ _ : Z) (_ : Z) => [g] in
  let keywordSearch :=
    fun (_ : jsstring) (_ _ : Z) => @nil (GeoSearchResult.t Z) in
  let fetchExtracts := fun (_ : list Z) =>
    ({[ 7 := {| PageExtract.pageid := 7;
                PageExtract.title := lit "Rafle du Vel d'Hiv";
                PageExtract.extract :=
                  Some (lit "En 1942, des familles sont déportées vers un camp de concentration.") |} ]}
     : gmap Z PageExtract.t) in
  let fetchLangCounts := fun (_ : list Z) => (∅ : gmap Z Z) in
  let c := Build_Caches Z ∅ ∅ in
  exists e,
    articleCache Z
      (fetchWikiEvents Z Z.add Z.sub Z.min 18 10000 String_of_Z geosearch
         keywordSearch fetchExtracts fetchLangCounts (fun b _ => b)
         4885 235 10000 c).2 !! 7
    = Some (Some e)
    /\ WikiEvent.category e = shock /\ 1000 <= WikiEvent.score e.
Proof.
  intros g geosearch keywordSearch fetchExtracts fetchLangCounts c.
  apply (fetchWikiEvents_memorial Z Z.add Z.sub Z.min 18 10000 String_of_Z
           geosearch keywordSearch fetchExtracts fetchLangCounts
           (fun b _ => b) 4885 235 10000 c g).
  - vm_compute. discriminate.
  - vm_compute. left. reflexivity.
  - vm_compute. reflexivity.
Defined.
